(** * Parser.cpp: token cursor, recovery, list parsing, delayed parsing

    A shallow embedding of [lib/Parse/Parser.cpp].  The parser is a record
    of the members the file touches; its member functions are computations
    in a small state-and-error monad over that record.  Assertions of the
    source are faults of the monad.  Loops and recursion that the source
    bounds only by the input take a [fuel] argument; the theorems show how
    much fuel is enough. *)

From Stdlib Require Import ZArith List String Ascii Bool Arith Lia.
Import ListNotations.

(** * The program *)

(** ** Tokens and source locations *)

(** [swift/Parse/Tokens.def] is not part of this file.  The kinds that
    Parser.cpp names are constructors of their own; every other kind of
    Tokens.def (keywords, operators, the remaining punctuation) is
    [other n].  [NUM_TOKENS] is the one-past-the-end enumerator. *)
Module tok.

Inductive t : Set :=
| unknown
| eof
| code_complete
| identifier
| integer_literal
| string_literal
| l_paren | r_paren
| l_brace | r_brace
| l_square | r_square
| comma
| semi
| other (n : nat)
| NUM_TOKENS.

Definition eq_dec (a b : t) : {a = b} + {a <> b}.
Proof. decide equality. apply Nat.eq_dec. Defined.

Definition eqb (a b : t) : bool := if eq_dec a b then true else false.

End tok.

Abbreviation tok := tok.t.

(** A [SourceLoc] wraps a pointer into a source buffer: an address. *)
Definition SourceLoc := Z.
Bind Scope Z_scope with SourceLoc.

Definition getAdvancedLoc (Loc : SourceLoc) (n : Z) : SourceLoc := (Loc + n)%Z.

(** [llvm::StringRef]: a pointer and a length, owning nothing. *)
Record StringRef : Set := mkStringRef { Data : Z; Length : Z }.

Record Token : Set := mkToken { Kind : tok; Text : StringRef }.

Definition setToken (K : tok) (T : StringRef) : Token := mkToken K T.

Definition getLoc (T : Token) : SourceLoc := Data (Text T).
Definition getLength (T : Token) : Z := Length (Text T).
Definition getText (T : Token) : StringRef := Text T.

(** [Token::is] and [Token::isNot]. *)
Definition Tok_is (T : Token) (K : tok) : bool := tok.eqb (Kind T) K.
Definition Tok_isNot (T : Token) (K : tok) : bool := negb (Tok_is T K).

(** ** External collaborators *)

(** The source manager owns the buffers.  Of it this file needs the bytes
    a [StringRef] points at, the buffer that contains a location, the
    offset of a location in a buffer, the size of a buffer, and (through
    the static [Lexer::getLocForEndOfToken]) the end of the token that
    starts at a location. *)
Record SourceManager : Type := mkSourceManager {
  charAt : Z -> ascii;
  getLocForEndOfToken : SourceLoc -> SourceLoc;
  FindBufferContainingLoc : SourceLoc -> Z;
  getLocOffsetInBuffer : SourceLoc -> Z -> Z;
  getBufferSize : Z -> Z
}.

Fixpoint bytesAt (SM : SourceManager) (p : Z) (n : nat) : string :=
  match n with
  | O => EmptyString
  | S n' => String (charAt SM p) (bytesAt SM (p + 1)%Z n')
  end.

(** [StringRef::operator==] against a string literal: equal lengths, then
    equal bytes. *)
Definition StringRef_equals (SM : SourceManager) (S : StringRef) (lit : string) : bool :=
  (Length S =? Z.of_nat (String.length lit))%Z
  && String.eqb (bytesAt SM (Data S) (String.length lit)) lit.

(** The lexer is the sequence of tokens it will still hand out; past the
    last one it hands out [eof] tokens (with text [EofText]) for ever. *)
Record Lexer : Set := mkLexer { NextTokens : list Token; EofText : StringRef }.

Definition lex (L : Lexer) : Token * Lexer :=
  match NextTokens L with
  | [] => (setToken tok.eof (EofText L), L)
  | T :: rest => (T, mkLexer rest (EofText L))
  end.

(** ** Diagnostics *)

Module diag.
Inductive t : Set :=
| unexpected_separator
| expected_separator
| opening_paren
| opening_bracket
| opening_brace
| uninitialized
| user (n : nat).
End diag.

Inductive FixIt : Set :=
| fixItRemove (Start End : SourceLoc)
| fixItInsert (Loc : SourceLoc) (Str : string).

Record Diagnostic : Set := mkDiagnostic {
  DiagLoc : SourceLoc;
  DiagID : diag.t;
  DiagArgs : list string;
  FixIts : list FixIt
}.

(** ** The parser and its monad *)

Record Parser : Type := mkParser {
  SourceMgr : SourceManager;
  Diags : list Diagnostic;
  L : Lexer;
  Tok : Token;
  PreviousLoc : SourceLoc
}.

Inductive Res (A : Type) : Type :=
| Done (a : A)
| AssertionFailure (msg : string)
| NullDereference
| OutOfFuel.

Arguments Done {A} a.
Arguments AssertionFailure {A} msg.
Arguments NullDereference {A}.
Arguments OutOfFuel {A}.

(** Computations over a state [S] that return, or stop on a fault. *)
Definition ST (S A : Type) : Type := S -> Res (A * S).

Definition ret {S A} (a : A) : ST S A := fun s => Done (a, s).

Definition bind {S A B} (m : ST S A) (k : A -> ST S B) : ST S B :=
  fun s =>
    match m s with
    | Done (a, s') => k a s'
    | AssertionFailure msg => AssertionFailure msg
    | NullDereference => NullDereference
    | OutOfFuel => OutOfFuel
    end.

(** The member functions of [Parser]. *)
Definition M (A : Type) : Type := ST Parser A.

Declare Scope parser_scope.
Delimit Scope parser_scope with parser.
Notation "x <- m ;; k" := (bind m (fun x => k))
  (at level 61, m at next level, right associativity) : parser_scope.
Notation "m ;; k" := (bind m (fun _ => k))
  (at level 61, right associativity) : parser_scope.
Open Scope parser_scope.

Definition getTok : M Token := fun P => Done (Tok P, P).
Definition getPreviousLoc : M SourceLoc := fun P => Done (PreviousLoc P, P).
Definition getSourceMgr : M SourceManager := fun P => Done (SourceMgr P, P).

Definition assert {S} (b : bool) (msg : string) : ST S unit :=
  fun s => if b then Done (tt, s) else AssertionFailure msg.

(** [diagnose(Loc, ID, Args...)] followed by the fix-its chained onto the
    in-flight diagnostic: one record appended to the engine's log. *)
Definition diagnose (Loc : SourceLoc) (ID : diag.t) (Args : list string)
    (Fix : list FixIt) : M unit :=
  fun P =>
    Done (tt, mkParser (SourceMgr P)
                       (Diags P ++ [mkDiagnostic Loc ID Args Fix])
                       (L P) (Tok P) (PreviousLoc P)).

(** ** The token cursor *)

(** [Parser::consumeToken()], lines 253-259. *)
Definition consumeToken : M SourceLoc :=
  fun P =>
    let Loc := getLoc (Tok P) in
    if Tok_isNot (Tok P) tok.eof then
      let (T, L') := lex (L P) in
      Done (Loc, mkParser (SourceMgr P) (Diags P) L' T Loc)
    else AssertionFailure "Lexing past eof!".

(** Modelled from the spec: [consumeToken(tok K)], an inline member of
    Parser.h, which is not part of this file: the consume of a token that
    the caller has just checked to be of kind [K]. *)
Definition consumeTokenK (K : tok) : M SourceLoc :=
  T <- getTok ;;
  assert (Tok_is T K) "Consuming wrong token kind" ;;
  consumeToken.

(** Modelled from the spec: [consumeIf(tok K)], an inline member of
    Parser.h, which is not part of this file: it "consumes only if
    currentToken.kind == kind; returns whether it did". *)
Definition consumeIf (K : tok) : M bool :=
  T <- getTok ;;
  if Tok_isNot T K then ret false
  else (consumeTokenK K ;; ret true).

(** ** The recovery engine *)

(** The condition of the [while] of [Parser::skipUntil], lines 320-321. *)
Definition skipUntil_continues (T1 T2 : tok) (StopAtCodeComplete : bool)
    (T : Token) : bool :=
  Tok_isNot T tok.eof && Tok_isNot T T1 && Tok_isNot T T2
  && (negb StopAtCodeComplete || Tok_isNot T tok.code_complete).

(** The [while] loop of [skipUntil], over the [skipSingle] it calls.  Each
    iteration costs one unit of [fuel]. *)
Fixpoint skipUntil_loop (skipSingle : M unit) (T1 T2 : tok)
    (StopAtCodeComplete : bool) (fuel : nat) : M unit :=
  fun P =>
    if skipUntil_continues T1 T2 StopAtCodeComplete (Tok P) then
      match fuel with
      | O => OutOfFuel
      | S fuel' =>
          (skipSingle ;;
           skipUntil_loop skipSingle T1 T2 StopAtCodeComplete fuel') P
      end
    else Done (tt, P).

(** The body of [Parser::skipUntil(tok T1, tok T2, bool)], lines 316-323,
    over the [skipSingle] it calls. *)
Definition skipUntil_body (skipSingle : M unit) (fuel : nat) (T1 T2 : tok)
    (StopAtCodeComplete : bool) : M unit :=
  (* tok::unknown is a sentinel that means "don't skip". *)
  if tok.eqb T1 tok.unknown && tok.eqb T2 tok.unknown then ret tt
  else skipUntil_loop skipSingle T1 T2 StopAtCodeComplete fuel.

(** Modelled from the spec: [skipUntil(tok T1, bool StopAtCodeComplete)],
    the two-argument overload of Parser.h, which is not part of this file
    and which the bracket cases of [skipSingle] call.  The second target
    is optional ("this lets callers pass an optional second target
    uniformly"), an absent target being the sentinel [tok::unknown].  It
    is given over the [skipSingle] that [skipUntil] calls. *)
Definition skipUntil_T1 (skipSingle : bool -> M unit) (fuel : nat) (T1 : tok)
    (StopAtCodeComplete : bool) : M unit :=
  skipUntil_body (skipSingle StopAtCodeComplete) fuel T1 tok.unknown
                 StopAtCodeComplete.

(** [Parser::skipSingle], lines 289-314.  [skipSingle] and [skipUntil]
    call each other; [fuel] bounds the depth of that recursion as well as
    the iterations of each loop. *)
Fixpoint skipSingle (fuel : nat) (StopAtCodeComplete : bool) : M unit :=
  match fuel with
  | O => fun _ => OutOfFuel
  | S fuel' =>
      T <- getTok ;;
      match Kind T with
      | tok.l_paren =>
          consumeToken ;;
          skipUntil_T1 (skipSingle fuel') fuel' tok.r_paren StopAtCodeComplete ;;
          consumeIf tok.r_paren ;;
          ret tt
      | tok.l_brace =>
          consumeToken ;;
          skipUntil_T1 (skipSingle fuel') fuel' tok.r_brace StopAtCodeComplete ;;
          consumeIf tok.r_brace ;;
          ret tt
      | tok.l_square =>
          consumeToken ;;
          skipUntil_T1 (skipSingle fuel') fuel' tok.r_square StopAtCodeComplete ;;
          consumeIf tok.r_square ;;
          ret tt
      | tok.code_complete =>
          if negb StopAtCodeComplete then consumeToken ;; ret tt
          else ret tt
      | _ =>
          consumeToken ;; ret tt
      end
  end.

(** [Parser::skipUntil(tok T1, tok T2, bool StopAtCodeComplete)]. *)
Definition skipUntil (fuel : nat) (T1 T2 : tok) (StopAtCodeComplete : bool)
    : M unit :=
  skipUntil_body (skipSingle fuel StopAtCodeComplete) fuel T1 T2
                 StopAtCodeComplete.

(** ** Primitive parsing *)

(** [Parser::parseToken], lines 388-396.  The out-parameter [TokLoc] is
    the second component: [None] when it is left untouched. *)
Definition parseToken (K : tok) (D : diag.t) : M (bool * option SourceLoc) :=
  T <- getTok ;;
  if Tok_is T K then
    TokLoc <- consumeTokenK K ;;
    ret (false, Some TokLoc)
  else
    diagnose (getLoc T) D [] [] ;;
    ret (true, None).

(** [Parser::parseMatchingToken], lines 401-416. *)
Definition parseMatchingToken (K : tok) (ErrorDiag : diag.t)
    (OtherLoc : SourceLoc) : M (bool * option SourceLoc) :=
  OtherNote <-
    match K with
    | tok.r_paren => ret diag.opening_paren
    | tok.r_square => ret diag.opening_bracket
    | tok.r_brace => ret diag.opening_brace
    | _ => assert false "unknown matching token!" ;; ret diag.uninitialized
    end ;;
  r <- parseToken K ErrorDiag ;;
  if fst r then
    diagnose OtherLoc OtherNote [] [] ;;
    ret (true, snd r)
  else ret (false, snd r).

(** ** The list parser *)

(** How one round of the [while (true)] of [parseList] ends. *)
Inductive ListStep : Set :=
| LoopContinue (Invalid : bool)
| LoopBreak (Invalid : bool)
| LoopReturn (Result : bool) (RightLoc : option SourceLoc).

Definition separatorSpelling (SeparatorK : tok) : string :=
  if tok.eqb SeparatorK tok.comma then "," else ";".

Section ParseList.

(** Parser.h gives [skipUntil]'s [StopAtCodeComplete] a default value,
    which the call [skipUntil(RightK, SeparatorK)] of line 459 takes. *)
Variable StopAtCodeComplete_default : bool.

Variables (RightK : tok) (LeftLoc : SourceLoc) (SeparatorK : tok)
          (OptionalSep : bool) (ErrorDiag : diag.t) (callback : M bool).

(** Lines 431-436: the stray separators before an element. *)
Fixpoint parseList_straySeparators (fuel : nat) : M unit :=
  fun P =>
    if Tok_is (Tok P) SeparatorK then
      match fuel with
      | O => OutOfFuel
      | S fuel' =>
          (diagnose (getLoc (Tok P)) diag.unexpected_separator
                    [separatorSpelling SeparatorK]
                    [fixItRemove (getLoc (Tok P)) (getLoc (Tok P))] ;;
           consumeToken ;;
           parseList_straySeparators fuel') P
      end
    else Done (tt, P).

(** Lines 450-456: the missing separator. *)
Definition parseList_missingSeparator (Invalid : bool) : M bool :=
  if negb OptionalSep then
    SM <- getSourceMgr ;;
    Prev <- getPreviousLoc ;;
    T <- getTok ;;
    let InsertLoc := getLocForEndOfToken SM Prev in
    let Separator := separatorSpelling SeparatorK in
    diagnose (getLoc T) diag.expected_separator [Separator]
             [fixItInsert InsertLoc Separator] ;;
    ret true
  else ret Invalid.

(** Lines 457-465: the progress check. *)
Definition parseList_progress (fuel : nat) (StartLoc : SourceLoc)
    (Invalid : bool) : M ListStep :=
  T <- getTok ;;
  if (getLoc T =? StartLoc)%Z then
    skipUntil fuel RightK SeparatorK StopAtCodeComplete_default ;;
    T' <- getTok ;;
    if Tok_is T' RightK then ret (LoopBreak Invalid)
    else if Tok_is T' tok.eof || Tok_is T' tok.code_complete
    then ret (LoopReturn true None)
    else consumeIf SeparatorK ;; ret (LoopContinue Invalid)
  else ret (LoopContinue Invalid).

(** Lines 439-465: what follows the element callback. *)
Definition parseList_afterElement (fuel : nat) (StartLoc : SourceLoc)
    (Invalid : bool) : M ListStep :=
  T <- getTok ;;
  SM <- getSourceMgr ;;
  if Tok_is T RightK then ret (LoopBreak Invalid)
  else if Tok_is T tok.eof && StringRef_equals SM (getText T) ")"
  then ret (LoopReturn Invalid (Some (getLoc T)))
  else
    sep <- consumeIf SeparatorK ;;
    if sep then ret (LoopContinue Invalid)
    else
      Invalid' <- parseList_missingSeparator Invalid ;;
      parseList_progress fuel StartLoc Invalid'.

(** Lines 431-465: one round of the loop. *)
Definition parseList_round (fuel : nat) (Invalid : bool) : M ListStep :=
  parseList_straySeparators fuel ;;
  T <- getTok ;;
  let StartLoc := getLoc T in
  b <- callback ;;
  parseList_afterElement fuel StartLoc (Invalid || b).

(** Lines 430-469: the loop and the close delimiter after it. *)
Fixpoint parseList_loop (fuel : nat) (Invalid : bool)
    : M (bool * option SourceLoc) :=
  match fuel with
  | O => fun _ => OutOfFuel
  | S fuel' =>
      step <- parseList_round fuel Invalid ;;
      match step with
      | LoopContinue Invalid' => parseList_loop fuel' Invalid'
      | LoopBreak Invalid' =>
          r <- parseMatchingToken RightK ErrorDiag LeftLoc ;;
          ret (Invalid' || fst r, snd r)
      | LoopReturn Result RightLoc => ret (Result, RightLoc)
      end
  end.

(** [Parser::parseList], lines 419-470.  The result is the returned flag
    and the out-parameter [RightLoc] ([None]: left untouched). *)
Definition parseList (fuel : nat) : M (bool * option SourceLoc) :=
  assert (tok.eqb SeparatorK tok.comma || tok.eqb SeparatorK tok.semi)
         "SeparatorK == tok::comma || SeparatorK == tok::semi" ;;
  T <- getTok ;;
  if Tok_is T RightK then
    RightLoc <- consumeTokenK RightK ;;
    ret (false, Some RightLoc)
  else parseList_loop fuel false.

End ParseList.

(** ** The tokenizer entry points *)

(** [unsigned]: 32 bits, wrapping. *)
Definition unsigned (z : Z) : Z := (z mod 2 ^ 32)%Z.

(** [Lexer::StringSegment]. *)
Inductive SegmentKind : Set := Literal | Expr.

Record StringSegment : Set := mkStringSegment {
  SegKind : SegmentKind;
  SegLoc : SourceLoc;
  SegLength : Z
}.

(** [std::vector::back()]; on an empty vector the behaviour is undefined. *)
Definition back {A} (v : list A) : option A :=
  match rev v with
  | [] => None
  | x :: _ => Some x
  end.

(** Sequencing for the entry points that thread no parser state. *)
Definition Res_bind {A B} (r : Res A) (k : A -> Res B) : Res B :=
  match r with
  | Done a => k a
  | AssertionFailure msg => AssertionFailure msg
  | NullDereference => NullDereference
  | OutOfFuel => OutOfFuel
  end.

Section Tokenize.

(** The lexer proper is not part of this file: the lexer constructed
    over the range [Offset, EndOffset) of a buffer, and the static
    [Lexer::getStringLiteralSegments]. *)
Variable Lexer_new : SourceManager -> Z -> bool -> Z -> Z -> Lexer.
Variable getStringLiteralSegments : Token -> list StringSegment.

(** Subsystems.h gives [TokenizeInterpolatedString] a default value,
    which the call of line 179 takes. *)
Variable TokenizeInterpolatedString_default : bool.

(** The literal case of lines 159-174. *)
Definition literalSegmentToken (isFirst isLast : bool) (Seg : StringSegment)
    : Token :=
  let Loc := SegLoc Seg in
  let Len := SegLength Seg in
  (* Include the quote. *)
  let Loc := if isFirst then getAdvancedLoc Loc (-1) else Loc in
  let Len := if isFirst then unsigned (Len + 1) else Len in
  (* Include the quote. *)
  let Len := if isLast then unsigned (Len + 1) else Len in
  setToken tok.string_literal (mkStringRef Loc Len).

(** The [for] loop of lines 155-184, over the [tokenize] it calls;
    [fuel] is the number of rounds still allowed. *)
Fixpoint getStringPartTokens_loop
    (tokenize : Z -> Z -> Z -> bool -> bool -> Res (list Token))
    (SM : SourceManager) (BufID : Z) (Segments : list StringSegment)
    (fuel : nat) (i e : Z) (Toks : list Token) : Res (list Token) :=
  if (i =? e)%Z then Done Toks
  else
    match fuel with
    | O => OutOfFuel
    | S fuel' =>
        match nth_error Segments (Z.to_nat i) with
        | None => AssertionFailure "idx < size()"
        | Some Seg =>
            let isFirst := (i =? 0)%Z in
            let isLast := (i =? unsigned (e - 1))%Z in
            Res_bind
              match SegKind Seg with
              | Literal =>
                  Done (Toks ++ [literalSegmentToken isFirst isLast Seg])
              | Expr =>
                  let Offset :=
                    unsigned (getLocOffsetInBuffer SM (SegLoc Seg) BufID) in
                  let EndOffset := unsigned (Offset + SegLength Seg) in
                  Res_bind
                    (tokenize BufID Offset EndOffset true
                              TokenizeInterpolatedString_default)
                    (fun NewTokens => Done (Toks ++ NewTokens))
              end
              (fun Toks' =>
                 getStringPartTokens_loop tokenize SM BufID Segments fuel'
                                          (unsigned (i + 1)) e Toks')
        end
    end.

(** [getStringPartTokens], lines 150-185; the result is the vector
    [Toks] after the call. *)
Definition getStringPartTokens
    (tokenize : Z -> Z -> Z -> bool -> bool -> Res (list Token))
    (T : Token) (SM : SourceManager) (BufID : Z) (Toks : list Token)
    : Res (list Token) :=
  if Tok_is T tok.string_literal then
    let Segments := getStringLiteralSegments T in
    let e := unsigned (Z.of_nat (List.length Segments)) in
    getStringPartTokens_loop tokenize SM BufID Segments (Z.to_nat e)
                             0%Z e Toks
  else AssertionFailure "Tok.is(tok::string_literal)".

(** The [do ... while] of lines 197-205, over the [tokenize] that
    [getStringPartTokens] calls. *)
Fixpoint tokenize_loop
    (tokenize : Z -> Z -> Z -> bool -> bool -> Res (list Token))
    (SM : SourceManager) (BufferID : Z) (TokenizeInterpolatedString : bool)
    (fuel : nat) (Lx : Lexer) (Tokens : list Token) : Res (list Token) :=
  match fuel with
  | O => OutOfFuel
  | S fuel' =>
      let (T, Lx') := lex Lx in
      Res_bind
        (if Tok_is T tok.string_literal && TokenizeInterpolatedString
         then getStringPartTokens tokenize T SM BufferID Tokens
         else Done (Tokens ++ [T]))
        (fun Tokens' =>
           match back Tokens' with
           | None => AssertionFailure "back() of an empty vector"
           | Some B =>
               if Tok_isNot B tok.eof
               then tokenize_loop tokenize SM BufferID
                                  TokenizeInterpolatedString fuel' Lx' Tokens'
               else Done Tokens'
           end)
  end.

(** [swift::tokenize], lines 187-208.  [fuel] bounds the depth of the
    recursion through interpolated segments and the rounds of the
    loop. *)
Fixpoint tokenize (fuel : nat) (SM : SourceManager) (BufferID : Z)
    (Offset EndOffset : Z) (KeepComments TokenizeInterpolatedString : bool)
    : Res (list Token) :=
  match fuel with
  | O => OutOfFuel
  | S fuel' =>
      let EndOffset :=
        if (Offset =? 0)%Z && (EndOffset =? 0)%Z
        then unsigned (getBufferSize SM BufferID)
        else EndOffset in
      let Lx := Lexer_new SM BufferID KeepComments Offset EndOffset in
      Res_bind
        (tokenize_loop (tokenize fuel' SM) SM BufferID
                       TokenizeInterpolatedString fuel Lx [])
        (fun Tokens => Done (removelast Tokens)) (* Remove EOF. *)
  end.

End Tokenize.

(** ** Parser construction and the persistent parser state *)

(** [PersistentParserState], of swift/Parse/PersistentParserState.h,
    which is not part of this file. *)
Module PersistentParserState.

(** Modelled from the spec: [PersistentParserState::ParserPos], a saved
    cursor position; Parser.cpp reads its [Loc]. *)
Record ParserPos : Set := mkParserPos { Loc : SourceLoc; PrevLoc : SourceLoc }.

(** Modelled from the spec: the state "holds at most one saved Cursor
    Position" and the location of "at most one pending top-level
    statement/declaration".  A position that was never saved, or that
    was taken, is the invalid one: [None]. *)
Record t : Set := mk {
  MarkedPos : option ParserPos;
  DelayedDeclLoc : option SourceLoc
}.

(** [new PersistentParserState()]. *)
Definition fresh : t := mk None None.

(** Modelled from the spec: [takeParserPosition()] returns the saved
    position, and "taking a position clears it". *)
Definition takeParserPosition (S : t) : option ParserPos * t :=
  (MarkedPos S, mk None (DelayedDeclLoc S)).

(** Modelled from the spec: [hasDelayedDecl()], whether a top-level
    declaration is pending. *)
Definition hasDelayedDecl (S : t) : bool :=
  match DelayedDeclLoc S with Some _ => true | None => false end.

(** Modelled from the spec: [getDelayedDeclLoc()], the location of the
    pending declaration; the invalid location, a null pointer, when
    there is none. *)
Definition getDelayedDeclLoc (S : t) : SourceLoc :=
  match DelayedDeclLoc S with Some DeclLoc => DeclLoc | None => 0%Z end.

End PersistentParserState.

(** Modelled from the spec: [Parser::ParserPosition] of Parser.h, which
    is not part of this file: what "the tokenizer must resume from",
    together with the previous location. *)
Record ParserPosition : Set := mkParserPosition {
  LS : Lexer;
  ParserPosition_PreviousLoc : SourceLoc
}.

(** The tokens of [ts] from the first one that does not start before
    [Loc]. *)
Fixpoint tokensFrom (Loc : SourceLoc) (ts : list Token) : list Token :=
  match ts with
  | [] => []
  | T :: rest => if (getLoc T <? Loc)%Z then tokensFrom Loc rest else ts
  end.

(** Modelled from the spec: [Parser::getParserPosition] of Parser.h.  The
    tokenizer being "a pure function of (buffer, offset, mode flags)",
    the lexer state at a location is the lexer without the tokens that
    start before it. *)
Definition getParserPosition (P : Parser)
    (Pos : PersistentParserState.ParserPos) : ParserPosition :=
  mkParserPosition
    (mkLexer (tokensFrom (PersistentParserState.Loc Pos) (NextTokens (L P)))
             (EofText (L P)))
    (PersistentParserState.PrevLoc Pos).

(** Modelled from the spec: [Parser::restoreParserPosition] of Parser.h:
    it "rewinds the cursor"; the lexer resumes at the position and the
    current token is the one it hands out first. *)
Definition restoreParserPosition (PP : ParserPosition) (P : Parser) : Parser :=
  mkParser (SourceMgr P) (Diags P) (snd (lex (LS PP))) (fst (lex (LS PP)))
           (ParserPosition_PreviousLoc PP).

(** The conversion [int(BufferID)] of an [unsigned]. *)
Definition int_of_unsigned (u : Z) : Z :=
  if (unsigned u <? 2 ^ 31)%Z then unsigned u else (unsigned u - 2 ^ 32)%Z.

(** What the constructor takes from the translation unit: the source
    manager and the diagnostics of its AST context. *)
Record ASTContext : Type := mkASTContext {
  ASTContext_SourceMgr : SourceManager;
  ASTContext_Diags : list Diagnostic
}.

Section ParserConstruction.

(** [new Lexer(SourceMgr, BufferID, &Diags, InSILMode, KeepComments)]:
    the lexer over a whole buffer. *)
Variable Lexer_ofBuffer : SourceManager -> Z -> bool -> bool -> Lexer.

(** The parser before the position of the persistent state is looked
    at: the lexer at the start of the buffer, the token the sentinel
    [tok::NUM_TOKENS]. *)
Definition unprimed (BufferID : Z) (Context : ASTContext) (SIL : bool)
    : Parser :=
  mkParser (ASTContext_SourceMgr Context) (ASTContext_Diags Context)
           (Lexer_ofBuffer (ASTContext_SourceMgr Context) BufferID SIL false)
           (mkToken tok.NUM_TOKENS (mkStringRef 0 0)) 0%Z.

(** [Parser::Parser], lines 214-242.  [PersistentState] is the pointer
    argument ([None]: null); the result is the parser and the state its
    [State] member points to, which is the caller's when there is one. *)
Definition Parser_new (BufferID : Z) (Context : ASTContext) (SIL : bool)
    (PersistentState : option PersistentParserState.t)
    : Parser * PersistentParserState.t :=
  let P := unprimed BufferID Context SIL in
  let State :=
    match PersistentState with
    | Some TheState => TheState
    | None => PersistentParserState.fresh
    end in
  let (ParserPos, State') := PersistentParserState.takeParserPosition State in
  match ParserPos with
  | Some Pos =>
      if (FindBufferContainingLoc (SourceMgr P)
            (PersistentParserState.Loc Pos) =? int_of_unsigned BufferID)%Z
      then
        let BeginParserPosition := getParserPosition P Pos in
        (restoreParserPosition BeginParserPosition P, State')
      else (P, State')
  | None => (P, State')
  end.

End ParserConstruction.

(** ** Delayed parsing *)

(** [FuncExpr::BodyKind]; only [Unparsed] is named in this file. *)
Inductive BodyKind : Set := Unparsed | Parsed.

(** A function declaration: its location and its body, [None] when
    [getBody()] is null. *)
Record FuncDecl : Set := mkFuncDecl {
  FuncDecl_Loc : SourceLoc;
  FuncDecl_Body : option BodyKind
}.

(** Declarations, each with the declarations nested in it. *)
Unset Elimination Schemes.
Inductive Decl : Set :=
| FuncDeclNode (FD : FuncDecl) (members : list Decl)
| OtherDeclNode (members : list Decl).
Set Elimination Schemes.

Record TranslationUnit : Type := mkTranslationUnit {
  Ctx : ASTContext;
  Decls : list Decl
}.

Inductive CodeCompletionCallbacksFactory : Set := TheFactory.

(** What the delayed parsing does to its collaborators, in order.  The
    callback objects are numbered in the order the factory creates them. *)
Inductive Event : Set :=
| createCodeCompletionCallbacks (Callbacks : nat)
| setCodeCompletionCallbacks (Callbacks : nat)
| parseDeclFuncBodyDelayed (FD : FuncDecl)
| parseTopLevelCodeDeclDelayed
| doneParsing (Callbacks : nat).

(** The state the delayed parsing runs over: the persistent parser state
    it is handed, the number of callback objects created so far, and the
    events so far. *)
Record Delayed : Type := mkDelayed {
  ParserState : PersistentParserState.t;
  Created : nat;
  Events : list Event
}.

Definition emit (e : Event) : ST Delayed unit :=
  fun s => Done (tt, mkDelayed (ParserState s) (Created s) (Events s ++ [e])).

(** [Factory->createCodeCompletionCallbacks(TheParser)]: a new object. *)
Definition createCallbacks (TheParser : Parser) : ST Delayed nat :=
  fun s =>
    Done (Created s,
          mkDelayed (ParserState s) (S (Created s))
                    (Events s ++ [createCodeCompletionCallbacks (Created s)])).

(** [CodeCompletion->doneParsing()] through the [unique_ptr]. *)
Definition callDoneParsing (CodeCompletion : option nat) : ST Delayed unit :=
  match CodeCompletion with
  | Some Callbacks => emit (doneParsing Callbacks)
  | None => fun _ => NullDereference
  end.

Section DelayedParsing.

Variable Lexer_ofBuffer : SourceManager -> Z -> bool -> bool -> Lexer.

(** [Parser TheParser(BufferID, TU, nullptr, &ParserState)]. *)
Definition newSubParser (BufferID : Z) (TU : TranslationUnit)
    : ST Delayed Parser :=
  fun s =>
    let (TheParser, State') :=
      Parser_new Lexer_ofBuffer (unsigned BufferID) (Ctx TU) false
                 (Some (ParserState s)) in
    Done (TheParser, mkDelayed State' (Created s) (Events s)).

(** [ParseDelayedFunctionBodies::parseFunctionBody], lines 76-92. *)
Definition parseFunctionBody (TU : TranslationUnit)
    (CodeCompletionFactory : option CodeCompletionCallbacksFactory)
    (FD : FuncDecl) : ST Delayed unit :=
  let FE := FuncDecl_Body FD in
  assert (match FE with Some _ => true | None => false end) "FE" ;;
  assert (match FE with Some Unparsed => true | _ => false end)
         "FE->getBodyKind() == FuncExpr::BodyKind::Unparsed" ;;
  let BufferID :=
    FindBufferContainingLoc (ASTContext_SourceMgr (Ctx TU)) (FuncDecl_Loc FD) in
  TheParser <- newSubParser BufferID TU ;;
  CodeCompletion <-
    match CodeCompletionFactory with
    | Some _ =>
        Callbacks <- createCallbacks TheParser ;;
        emit (setCodeCompletionCallbacks Callbacks) ;;
        ret (Some Callbacks)
    | None => ret None
    end ;;
  emit (parseDeclFuncBodyDelayed FD) ;;
  callDoneParsing CodeCompletion.

(** [ParseDelayedFunctionBodies::walkToDeclPre], lines 63-73. *)
Definition walkToDeclPre (TU : TranslationUnit)
    (CodeCompletionFactory : option CodeCompletionCallbacksFactory)
    (D : Decl) : ST Delayed bool :=
  match D with
  | FuncDeclNode FD _ =>
      match FuncDecl_Body FD with
      | Some Kind =>
          match Kind with
          | Unparsed =>
              parseFunctionBody TU CodeCompletionFactory FD ;; ret true
          | _ => ret false
          end
      | None => ret true
      end
  | OtherDeclNode _ => ret true
  end.

(** Modelled from the spec: [Decl::walk] of the AST walker, which is not
    part of this file: it "visits each recursively, able to signal 'do
    not descend further' for a given node". *)
Fixpoint walk (TU : TranslationUnit)
    (CodeCompletionFactory : option CodeCompletionCallbacksFactory)
    (D : Decl) {struct D} : ST Delayed unit :=
  descend <- walkToDeclPre TU CodeCompletionFactory D ;;
  if descend then
    (fix walkAll (Ds : list Decl) : ST Delayed unit :=
       match Ds with
       | [] => ret tt
       | D' :: Ds' =>
           walk TU CodeCompletionFactory D' ;; walkAll Ds'
       end)
      match D with
      | FuncDeclNode _ ms => ms
      | OtherDeclNode ms => ms
      end
  else ret tt.

(** [parseDelayedTopLevelDecl], lines 95-114. *)
Definition parseDelayedTopLevelDecl (TU : TranslationUnit)
    (CodeCompletionFactory : option CodeCompletionCallbacksFactory)
    : ST Delayed unit :=
  assert (match CodeCompletionFactory with Some _ => true | None => false end)
         "delayed parsing of decls only makes sense for code completion" ;;
  fun s =>
    if negb (PersistentParserState.hasDelayedDecl (ParserState s))
    then Done (tt, s)
    else
      (let BufferID :=
         FindBufferContainingLoc
           (ASTContext_SourceMgr (Ctx TU))
           (PersistentParserState.getDelayedDeclLoc (ParserState s)) in
       TheParser <- newSubParser BufferID TU ;;
       Callbacks <- createCallbacks TheParser ;;
       let CodeCompletion := Some Callbacks in
       emit (setCodeCompletionCallbacks Callbacks) ;;
       emit parseTopLevelCodeDeclDelayed ;;
       callDoneParsing CodeCompletion) s.

(** The [for] of lines 141-143. *)
Fixpoint walkDecls (TU : TranslationUnit)
    (CodeCompletionFactory : option CodeCompletionCallbacksFactory)
    (Ds : list Decl) : ST Delayed unit :=
  match Ds with
  | [] => ret tt
  | D :: Ds' =>
      walk TU CodeCompletionFactory D ;;
      walkDecls TU CodeCompletionFactory Ds'
  end.

(** [swift::performDelayedParsing], lines 136-147. *)
Definition performDelayedParsing (TU : TranslationUnit)
    (CodeCompletionFactory : option CodeCompletionCallbacksFactory)
    : ST Delayed unit :=
  walkDecls TU CodeCompletionFactory (Decls TU) ;;
  match CodeCompletionFactory with
  | Some _ => parseDelayedTopLevelDecl TU CodeCompletionFactory
  | None => ret tt
  end.

End DelayedParsing.

(** ** The rest of the token cursor *)

(** Modelled from the spec: [Lexer::peekNextToken] of Lexer.h, which is
    not part of this file: it "returns the token after currentToken
    without advancing", that is the token [lex] hands out next. *)
Definition peekNextToken (Lx : Lexer) : Token := fst (lex Lx).

(** [Parser::peekToken], lines 249-251: "the next token that will be
    installed by consumeToken". *)
Definition peekToken : M Token := fun P => Done (peekNextToken (L P), P).

(** [Parser::getEndOfPreviousLoc], lines 261-263. *)
Definition getEndOfPreviousLoc : M SourceLoc :=
  SM <- getSourceMgr ;;
  Prev <- getPreviousLoc ;;
  ret (getLocForEndOfToken SM Prev).

Section StartingAngle.

(** [startsWithLess] and [startsWithGreater] of Parser.h are not part of
    this file, nor is [Lexer::getTokenAt], which lexes the token that
    starts at a location and hands it out with the lexer it leaves. *)
Variables startsWithLess startsWithGreater : Token -> bool.
Variable getTokenAt : Lexer -> SourceLoc -> Token * Lexer.

(** [Parser::consumeStartingLess], lines 265-275. *)
Definition consumeStartingLess : M SourceLoc :=
  T <- getTok ;;
  assert (startsWithLess T) "Token does not start with '<'" ;;
  if (getLength T =? 1)%Z then consumeToken
  else
    (* Skip the starting '<' in the existing token. *)
    fun P =>
      let Loc := getLoc (Tok P) in
      let (T', L') := getTokenAt (L P) (getAdvancedLoc Loc 1) in
      Done (Loc, mkParser (SourceMgr P) (Diags P) L' T' (PreviousLoc P)).

(** [Parser::consumeStartingGreater], lines 277-287. *)
Definition consumeStartingGreater : M SourceLoc :=
  T <- getTok ;;
  assert (startsWithGreater T) "Token does not start with '>'" ;;
  if (getLength T =? 1)%Z then consumeToken
  else
    (* Skip the starting '>' in the existing token. *)
    fun P =>
      let Loc := getLoc (Tok P) in
      let (T', L') := getTokenAt (L P) (getAdvancedLoc Loc 1) in
      Done (Loc, mkParser (SourceMgr P) (Diags P) L' T' (PreviousLoc P)).

End StartingAngle.

(** ** The other skip loops *)

(** Modelled from the spec: [Token::isAnyOperator] and
    [Token::isNotAnyOperator] of Token.h, which is not part of this file:
    whether the token is an "operator-kind token".  The operator kinds of
    Tokens.def are among the kinds [other n]; [operatorKind] tells
    which. *)
Definition Tok_isAnyOperator (operatorKind : nat -> bool) (T : Token) : bool :=
  match Kind T with
  | tok.other n => operatorKind n
  | _ => false
  end.

Definition Tok_isNotAnyOperator (operatorKind : nat -> bool) (T : Token)
    : bool :=
  negb (Tok_isAnyOperator operatorKind T).

(** A [while] loop of the parser: [continues] computes its condition,
    and each iteration costs one unit of [fuel]. *)
Fixpoint whileLoop (continues : M bool) (body : M unit) (fuel : nat)
    : M unit :=
  c <- continues ;;
  if c then
    match fuel with
    | O => fun _ => OutOfFuel
    | S fuel' => body ;; whileLoop continues body fuel'
    end
  else ret tt.

Section SkipLoops.

(** Parser.h gives [skipSingle]'s [StopAtCodeComplete] a default value,
    which the calls [skipSingle()] of lines 327 and 333 take. *)
Variable skipSingle_StopAtCodeComplete_default : bool.

Variable operatorKind : nat -> bool.

(** The grammar look-ahead [isStartOfStmt] and [isStartOfDecl] of the
    statement and declaration parsers, which are not part of this file. *)
Variable isStartOfStmt : Token -> bool.
Variable isStartOfDecl : Token -> Token -> bool.

(** The condition of the [while] of line 326. *)
Definition skipUntilAnyOperator_continues : M bool :=
  T <- getTok ;;
  ret (Tok_isNot T tok.eof && Tok_isNotAnyOperator operatorKind T).

(** [Parser::skipUntilAnyOperator], lines 325-328. *)
Definition skipUntilAnyOperator (fuel : nat) : M unit :=
  whileLoop skipUntilAnyOperator_continues
            (skipSingle fuel skipSingle_StopAtCodeComplete_default) fuel.

(** The condition of the [while] of lines 331-332; [peekToken] is called
    only when the conjuncts before it hold. *)
Definition skipUntilDeclRBrace_continues : M bool :=
  T <- getTok ;;
  if Tok_isNot T tok.eof && Tok_isNot T tok.r_brace then
    Next <- peekToken ;;
    ret (negb (isStartOfDecl T Next))
  else ret false.

(** [Parser::skipUntilDeclRBrace], lines 330-334. *)
Definition skipUntilDeclRBrace (fuel : nat) : M unit :=
  whileLoop skipUntilDeclRBrace_continues
            (skipSingle fuel skipSingle_StopAtCodeComplete_default) fuel.

(** The condition of the [while] of lines 337-340. *)
Definition skipUntilDeclStmtRBrace_continues (StopAtCodeComplete : bool)
    : M bool :=
  T <- getTok ;;
  if Tok_isNot T tok.eof && Tok_isNot T tok.r_brace
     && negb (isStartOfStmt T) then
    Next <- peekToken ;;
    ret (negb (isStartOfDecl T Next)
         && (negb StopAtCodeComplete || Tok_isNot T tok.code_complete))
  else ret false.

(** [Parser::skipUntilDeclStmtRBrace], lines 336-343. *)
Definition skipUntilDeclStmtRBrace (fuel : nat) (StopAtCodeComplete : bool)
    : M unit :=
  whileLoop (skipUntilDeclStmtRBrace_continues StopAtCodeComplete)
            (skipSingle fuel StopAtCodeComplete) fuel.

End SkipLoops.

(** ** Identifiers *)

Section Identifiers.

(** [Identifier] and [ASTContext::getIdentifier], which gives the
    identifier of a text, are not part of this file. *)
Variable Identifier : Type.
Variable getIdentifier : StringRef -> Identifier.

(** Tokens.def is not part of this file.  The keywords it marks
    [IDENTIFIER_KEYWORD] are among the kinds [other n], as its operators
    are; [identifierKeyword] and [operatorKind] tell which. *)
Variable identifierKeyword : nat -> bool.
Variable operatorKind : nat -> bool.

(** [Parser::parseIdentifier], lines 353-367.  The out-parameters
    [Result] and [Loc] are the second component: [None] when they are
    left untouched. *)
Definition parseIdentifier (D : diag.t)
    : M (bool * option (Identifier * SourceLoc)) :=
  T <- getTok ;;
  let identifier :=
    let Result := getIdentifier (getText T) in
    let Loc := getLoc T in
    consumeToken ;;
    ret (false, Some (Result, Loc)) in
  let default :=
    diagnose (getLoc T) D [] [] ;;
    ret (true, None) in
  match Kind T with
  | tok.other n => if identifierKeyword n then identifier else default
  | tok.identifier => identifier
  | _ => default
  end.

(** [Parser::parseAnyIdentifier], lines 371-382. *)
Definition parseAnyIdentifier (D : diag.t)
    : M (bool * option (Identifier * SourceLoc)) :=
  T <- getTok ;;
  if Tok_is T tok.identifier || Tok_isAnyOperator operatorKind T then
    let Result := getIdentifier (getText T) in
    let Loc := getLoc T in
    consumeToken ;;
    ret (false, Some (Result, Loc))
  else
    diagnose (getLoc T) D [] [] ;;
    ret (true, None).

End Identifiers.

Arguments parseIdentifier {Identifier} getIdentifier identifierKeyword D.
Arguments parseAnyIdentifier {Identifier} getIdentifier operatorKind D.

(** * Specification vocabulary *)

(** Tokens not yet consumed: the current one unless it is [eof], and those
    the lexer still holds. *)
Definition remaining (P : Parser) : nat :=
  (if Tok_is (Tok P) tok.eof then 0 else 1) + List.length (NextTokens (L P)).

(** The parser after one token has been consumed. *)
Definition lexed (P : Parser) : Parser :=
  mkParser (SourceMgr P) (Diags P) (snd (lex (L P))) (fst (lex (L P)))
           (getLoc (Tok P)).

(** The consecutive tokens a bracket case of [skipSingle] goes through. *)
Definition skipSingle_bracket (skipSingle : M unit) (fuel : nat) (Close : tok)
    (StopAtCodeComplete : bool) : M unit :=
  consumeToken ;;
  skipUntil_body skipSingle fuel Close tok.unknown StopAtCodeComplete ;;
  consumeIf Close ;;
  ret tt.

(** What the loop of [skipUntil] needs of the [skipSingle] it calls, on
    parsers with at most [N] tokens left: one call consumes at least one
    token and maintains the relation [I]. *)
Definition skips_one (I : Parser -> Parser -> Prop) (Stop : bool) (N : nat)
    (single : M unit) : Prop :=
  forall P,
    remaining P <= N ->
    Kind (Tok P) <> tok.eof ->
    (Stop = true -> Kind (Tok P) <> tok.code_complete) ->
    exists P',
      single P = Done (tt, P') /\ remaining P' < remaining P /\ I P P'.

(** [n] times the step [m], one after the other. *)
Fixpoint repeatM (n : nat) (m : M unit) : M unit :=
  match n with
  | O => ret tt
  | S n' => m ;; repeatM n' m
  end.

(** Skipping emits no diagnostic and leaves the source manager and the
    lexer's end-of-file text alone. *)
Definition frame (P P' : Parser) : Prop :=
  SourceMgr P' = SourceMgr P /\ Diags P' = Diags P
  /\ EofText (L P') = EofText (L P).

(** The diagnostic of lines 451-454. *)
Definition expectedSeparatorDiag (SeparatorK : tok) (P : Parser) : Diagnostic :=
  mkDiagnostic (getLoc (Tok P)) diag.expected_separator
               [separatorSpelling SeparatorK]
               [fixItInsert (getLocForEndOfToken (SourceMgr P) (PreviousLoc P))
                            (separatorSpelling SeparatorK)].

(** The parser with one more diagnostic in the log. *)
Definition withDiag (P : Parser) (D : Diagnostic) : Parser :=
  mkParser (SourceMgr P) (Diags P ++ [D]) (L P) (Tok P) (PreviousLoc P).

(** The kinds [parseMatchingToken] knows as close delimiters. *)
Definition closeDelimiter (K : tok) : Prop :=
  K = tok.r_paren \/ K = tok.r_square \/ K = tok.r_brace.

(** The assertion of line 422. *)
Definition listSeparator (K : tok) : Prop := K = tok.comma \/ K = tok.semi.

(** An element callback that only moves the cursor forward: it returns,
    leaves no more tokens than it found, and when it leaves as many the
    current token is where it was. *)
Definition forwardOnly (callback : M bool) : Prop :=
  forall P, exists b P',
    callback P = Done (b, P')
    /\ remaining P' <= remaining P
    /\ (remaining P' = remaining P -> getLoc (Tok P') = getLoc (Tok P)).

(** Lines 444: the [eof] token that stands for the close delimiter. *)
Definition acceptsEofAsClose (P : Parser) : bool :=
  Tok_is (Tok P) tok.eof && StringRef_equals (SourceMgr P) (getText (Tok P)) ")".

(** The [Invalid] flag a round of the loop hands on. *)
Definition stepInvalid (step : ListStep) : bool :=
  match step with
  | LoopContinue Invalid => Invalid
  | LoopBreak Invalid => Invalid
  | LoopReturn Result _ => Result
  end.

(** The spelling of a close delimiter. *)
Definition closeSpelling (K : tok) : string :=
  match K with
  | tok.r_paren => ")"
  | tok.r_square => "]"
  | tok.r_brace => "}"
  | _ => ""
  end.

(** The closer [skipSingle] looks for after an opening bracket. *)
Definition closerOf (K : tok) : option tok :=
  match K with
  | tok.l_paren => Some tok.r_paren
  | tok.l_brace => Some tok.r_brace
  | tok.l_square => Some tok.r_square
  | _ => None
  end.

(** Bracket nesting, as a stack of the closers still awaited: an opening
    bracket pushes its closer, the closer on top of the stack pops it, any
    other token leaves the nesting as it is. *)
Fixpoint nesting (stack : list tok) (ts : list Token) : list tok :=
  match ts with
  | [] => stack
  | T :: ts' =>
      match closerOf (Kind T) with
      | Some Close => nesting (Close :: stack) ts'
      | None =>
          match stack with
          | Close :: stack' =>
              if tok.eqb (Kind T) Close then nesting stack' ts'
              else nesting stack ts'
          | [] => nesting [] ts'
          end
      end
  end.

Definition bracketDepth (ts : list Token) : nat := List.length (nesting [] ts).

(** [Nested Stop Close ts]: the tokens [ts] are a run of plain tokens and
    of bracketed groups, each group an opening bracket, a nested run and
    the matching closer; outside the groups there is no [Close], and
    nowhere an [eof] or, when [Stop] is set, a code-completion token. *)
Inductive Nested (Stop : bool) : tok -> list Token -> Prop :=
| Nested_nil Close : Nested Stop Close []
| Nested_token Close T ts :
    closerOf (Kind T) = None ->
    Kind T <> Close ->
    Kind T <> tok.eof ->
    (Stop = true -> Kind T <> tok.code_complete) ->
    Nested Stop Close ts ->
    Nested Stop Close (T :: ts)
| Nested_group Close Open Close' body Cl ts :
    closerOf (Kind Open) = Some Close' ->
    Kind Open <> Close ->
    Nested Stop Close' body ->
    Kind Cl = Close' ->
    Nested Stop Close ts ->
    Nested Stop Close (Open :: body ++ Cl :: ts).

(** The tokens ahead of the cursor, the current one first. *)
Definition stream (P : Parser) : list Token := Tok P :: NextTokens (L P).

Definition noUnknown (ts : list Token) : Prop :=
  Forall (fun T => Kind T <> tok.unknown) ts.

(** The parser [P] once the tokens up to and including [Cl] have been
    consumed, [after] being the tokens behind [Cl]. *)
Definition consumedThrough (P : Parser) (Cl : Token) (after : list Token)
    : Parser :=
  lexed (mkParser (SourceMgr P) (Diags P) (mkLexer after (EofText (L P))) Cl
                  (PreviousLoc P)).

(** Where a skip stops short of its target. *)
Definition stopsShort (Stop : bool) (P : Parser) : Prop :=
  Kind (Tok P) = tok.eof \/ (Stop = true /\ Kind (Tok P) = tok.code_complete).

(** What one [skipSingle] inside the loop of [skipUntil(Close)] does, on
    parsers with at most [N] tokens left: it consumes one unit, after
    which a nested run is still a nested run, or it stops short. *)
Definition skips_unit (Stop : bool) (N : nat) (single : M unit) : Prop :=
  forall Close P,
    remaining P <= N ->
    noUnknown (stream P) ->
    skipUntil_continues Close tok.unknown Stop (Tok P) = true ->
    exists P',
      single P = Done (tt, P')
      /\ remaining P' < remaining P
      /\ frame P P'
      /\ noUnknown (stream P')
      /\ ((exists unit,
              stream P = unit ++ stream P'
              /\ forall ts, Nested Stop Close ts -> Nested Stop Close (unit ++ ts))
          \/ stopsShort Stop P').

(** The token a literal segment stands for: the segment's range, with
    the quote before it when it is the first segment and the quote after
    it when it is the last. *)
Definition quotedSegmentToken (isFirst isLast : bool) (Seg : StringSegment)
    : Token :=
  setToken tok.string_literal
    (mkStringRef (SegLoc Seg - (if isFirst then 1 else 0))%Z
                 (SegLength Seg + (if isFirst then 1 else 0)
                  + (if isLast then 1 else 0))%Z).

(** A segment whose length, quotes included, fits [unsigned]. *)
Definition segmentFits (Seg : StringSegment) : Prop :=
  (0 <= SegLength Seg /\ SegLength Seg + 2 < 2 ^ 32)%Z.

(** What the segment at index [i] of [n] adds to the vector. *)
Definition segmentTokens (TokenizeInterpolatedString_default : bool)
    (tokenize : Z -> Z -> Z -> bool -> bool -> Res (list Token))
    (SM : SourceManager) (BufID : Z) (n i : nat) (Seg : StringSegment)
    : Res (list Token) :=
  match SegKind Seg with
  | Literal => Done [quotedSegmentToken (i =? 0) (i =? n - 1) Seg]
  | Expr =>
      let Offset := unsigned (getLocOffsetInBuffer SM (SegLoc Seg) BufID) in
      tokenize BufID Offset (unsigned (Offset + SegLength Seg)) true
               TokenizeInterpolatedString_default
  end.

Definition notEof (T : Token) : Prop := Kind T <> tok.eof.

(** The end offset [tokenize] hands to the lexer. *)
Definition effectiveEndOffset (SM : SourceManager) (BufferID : Z)
    (Offset EndOffset : Z) : Z :=
  if (Offset =? 0)%Z && (EndOffset =? 0)%Z
  then unsigned (getBufferSize SM BufferID)
  else EndOffset.

(** ** Vocabulary of the further properties *)

(** No code-completion token among [ts]. *)
Definition noCodeComplete (ts : list Token) : Prop :=
  Forall (fun T => Kind T <> tok.code_complete) ts.

(** Where [skipUntilAnyOperator] stops. *)
Definition operatorStop (operatorKind : nat -> bool) (P : Parser) : Prop :=
  Kind (Tok P) = tok.eof \/ Tok_isAnyOperator operatorKind (Tok P) = true.

(** Where [skipUntilDeclRBrace] stops. *)
Definition declStop (isStartOfDecl : Token -> Token -> bool) (P : Parser)
    : Prop :=
  Kind (Tok P) = tok.eof \/ Kind (Tok P) = tok.r_brace
  \/ isStartOfDecl (Tok P) (peekNextToken (L P)) = true.

(** Where [skipUntilDeclStmtRBrace] stops. *)
Definition declStmtStop (isStartOfStmt : Token -> bool)
    (isStartOfDecl : Token -> Token -> bool) (StopAtCodeComplete : bool)
    (P : Parser) : Prop :=
  Kind (Tok P) = tok.eof \/ Kind (Tok P) = tok.r_brace
  \/ isStartOfStmt (Tok P) = true
  \/ isStartOfDecl (Tok P) (peekNextToken (L P)) = true
  \/ (StopAtCodeComplete = true /\ Kind (Tok P) = tok.code_complete).

(** What every skipped token maintains: no diagnostic is emitted, and a
    stream without code-completion token stays one. *)
Definition skipKeeps (P P' : Parser) : Prop :=
  frame P P' /\ (noCodeComplete (stream P) -> noCodeComplete (stream P')).

(** What the loops that call [skipSingle()] with its default argument
    need: the default is not to stop at a code-completion token, or there
    is none ahead. *)
Definition passesCodeComplete (default : bool) (P : Parser) : Prop :=
  default = false \/ noCodeComplete (stream P).

(** The note [parseMatchingToken] adds for a close delimiter. *)
Definition openingNote (K : tok) : diag.t :=
  match K with
  | tok.r_paren => diag.opening_paren
  | tok.r_square => diag.opening_bracket
  | tok.r_brace => diag.opening_brace
  | _ => diag.uninitialized
  end.

(** A diagnostic without arguments and fix-its. *)
Definition plainDiag (Loc : SourceLoc) (ID : diag.t) : Diagnostic :=
  mkDiagnostic Loc ID [] [].

(** The tokens [parseIdentifier] accepts, and those [parseAnyIdentifier]
    accepts. *)
Definition isIdentifierToken (identifierKeyword : nat -> bool) (T : Token)
    : bool :=
  match Kind T with
  | tok.identifier => true
  | tok.other n => identifierKeyword n
  | _ => false
  end.

Definition isAnyIdentifierToken (operatorKind : nat -> bool) (T : Token)
    : bool :=
  match Kind T with
  | tok.identifier => true
  | tok.other n => operatorKind n
  | _ => false
  end.

(** What the two identifier parsers return for a token they accept, and
    the parser they leave when they reject one. *)
Definition identifierOf {Identifier : Type}
    (getIdentifier : StringRef -> Identifier) (P : Parser)
    : Identifier * SourceLoc :=
  (getIdentifier (getText (Tok P)), getLoc (Tok P)).

Definition rejected (P : Parser) (D : diag.t) : Parser :=
  withDiag P (plainDiag (getLoc (Tok P)) D).

(** The parser with more diagnostics in the log. *)
Definition withDiags (P : Parser) (ds : list Diagnostic) : Parser :=
  mkParser (SourceMgr P) (Diags P ++ ds) (L P) (Tok P) (PreviousLoc P).

(** The diagnostic of lines 432-434 for the stray separator [T]. *)
Definition unexpectedSeparatorDiag (SeparatorK : tok) (T : Token)
    : Diagnostic :=
  mkDiagnostic (getLoc T) diag.unexpected_separator
               [separatorSpelling SeparatorK]
               [fixItRemove (getLoc T) (getLoc T)].

(** How a round of [parseList] may leave the loop. *)
Definition roundExit (RightK : tok) (step : ListStep) (P : Parser) : Prop :=
  match step with
  | LoopContinue _ => True
  | LoopBreak _ => Kind (Tok P) = RightK
  | LoopReturn Result None =>
      Result = true
      /\ (Kind (Tok P) = tok.eof \/ Kind (Tok P) = tok.code_complete)
  | LoopReturn _ (Some _) => True
  end.

(** The tokens that follow the element [prev] of a well-formed list, up
    to the close delimiter [Cl] and the tokens [after] it, with the
    diagnostics they call for: the close delimiter; or a separator, any
    number of stray separators behind it (one diagnostic each), an
    element and what follows that; or, when separators are optional, an
    element right away. *)
Inductive listRest (elem : Token -> Prop) (RightK SeparatorK : tok)
    (OptionalSep : bool) (Cl : Token) (after : list Token)
    : Token -> list Token -> list Diagnostic -> Prop :=
| listRest_close prev :
    Kind Cl = RightK ->
    listRest elem RightK SeparatorK OptionalSep Cl after prev (Cl :: after) []
| listRest_separated prev s strays e ts ds :
    Kind s = SeparatorK ->
    Forall (fun T => Kind T = SeparatorK) strays ->
    elem e ->
    listRest elem RightK SeparatorK OptionalSep Cl after e ts ds ->
    listRest elem RightK SeparatorK OptionalSep Cl after prev
             (s :: strays ++ e :: ts)
             (map (unexpectedSeparatorDiag SeparatorK) strays ++ ds)
| listRest_juxtaposed prev e ts ds :
    OptionalSep = true ->
    elem e ->
    getLoc e <> getLoc prev ->
    listRest elem RightK SeparatorK OptionalSep Cl after e ts ds ->
    listRest elem RightK SeparatorK OptionalSep Cl after prev (e :: ts) ds.

(** The tokens of [ts] before the first [eof] token. *)
Fixpoint beforeEof (ts : list Token) : list Token :=
  match ts with
  | [] => []
  | T :: rest => if Tok_isNot T tok.eof then T :: beforeEof rest else []
  end.

(** The function bodies the delayed parsing reaches in a declaration, in
    the order of the walk: a function whose body is parsed already is
    not entered. *)
Fixpoint delayedBodies (D : Decl) : list FuncDecl :=
  match D with
  | FuncDeclNode FD members =>
      match FuncDecl_Body FD with
      | Some Unparsed => FD :: flat_map delayedBodies members
      | Some Parsed => []
      | None => flat_map delayedBodies members
      end
  | OtherDeclNode members => flat_map delayedBodies members
  end.

(** What a sub-parser with the callback object number [k] leaves in the
    trace, for a function body and for the top-level declaration. *)
Definition bodyEvents (k : nat) (FD : FuncDecl) : list Event :=
  [createCodeCompletionCallbacks k; setCodeCompletionCallbacks k;
   parseDeclFuncBodyDelayed FD; doneParsing k].

Definition topLevelEvents (k : nat) : list Event :=
  [createCodeCompletionCallbacks k; setCodeCompletionCallbacks k;
   parseTopLevelCodeDeclDelayed; doneParsing k].

Fixpoint bodiesEvents (k : nat) (FDs : list FuncDecl) : list Event :=
  match FDs with
  | [] => []
  | FD :: rest => bodyEvents k FD ++ bodiesEvents (S k) rest
  end.

(** The parser after [consumeStartingLess] or [consumeStartingGreater]:
    a token of one character has been consumed; of a longer token the
    first character has been split off, and the current token is the one
    [getTokenAt] finds behind it. *)
Definition afterStartingAngle
    (getTokenAt : Lexer -> SourceLoc -> Token * Lexer) (P : Parser)
    : Parser :=
  if (getLength (Tok P) =? 1)%Z then lexed P
  else mkParser (SourceMgr P) (Diags P)
                (snd (getTokenAt (L P) (getLoc (Tok P) + 1)%Z))
                (fst (getTokenAt (L P) (getLoc (Tok P) + 1)%Z))
                (PreviousLoc P).

(** What a walk with a completion-callback factory does, from any state,
    when the function bodies it reaches are [FDs]: it returns, having
    created one callback object per body and left their events in the
    trace; the pending top-level declaration is as before. *)
Definition walked (m : ST Delayed unit) (FDs : list FuncDecl) : Prop :=
  forall s, exists s',
    m s = Done (tt, s')
    /\ Created s' = Created s + List.length FDs
    /\ Events s' = Events s ++ bodiesEvents (Created s) FDs
    /\ PersistentParserState.hasDelayedDecl (ParserState s')
       = PersistentParserState.hasDelayedDecl (ParserState s).

(** A string literal without interpolation: its one segment is the text
    between its quotes. *)
Definition plainLiteral (getStringLiteralSegments : Token -> list StringSegment)
    (T : Token) : Prop :=
  Kind T = tok.string_literal
  /\ (2 <= getLength T < 2 ^ 32)%Z
  /\ getStringLiteralSegments T
     = [mkStringSegment Literal (getLoc T + 1)%Z (getLength T - 2)%Z].

(** The rounds of the loop of [parseList], from the parser [P] with the
    flag [Invalid], up to the round that leaves the loop with [step] and
    the parser [P']: every round before that one continues the loop and
    has consumed at least one token. *)
Inductive listRounds (round : nat -> bool -> M ListStep)
    : nat -> bool -> Parser -> ListStep -> Parser -> Prop :=
| listRounds_last fuel Invalid P step P' :
    round (S fuel) Invalid P = Done (step, P') ->
    (forall Invalid', step <> LoopContinue Invalid') ->
    listRounds round (S fuel) Invalid P step P'
| listRounds_next fuel Invalid P Invalid' P1 step P' :
    round (S fuel) Invalid P = Done (LoopContinue Invalid', P1) ->
    remaining P1 < remaining P ->
    listRounds round fuel Invalid' P1 step P' ->
    listRounds round (S fuel) Invalid P step P'.

(** What [parseList] returns once a round has left the loop: on a break
    the close delimiter is consumed and is the [RightLoc]; a return
    inside the loop is the result as it is. *)
Definition listResult (step : ListStep) (P : Parser)
    : Res ((bool * option SourceLoc) * Parser) :=
  match step with
  | LoopContinue _ => OutOfFuel
  | LoopBreak Invalid => Done ((Invalid, Some (getLoc (Tok P))), lexed P)
  | LoopReturn Result RightLoc => Done ((Result, RightLoc), P)
  end.

(** What one token of the lexer leaves in the result of [tokenize]: a
    string literal, when string literals are split, the tokens [parts]
    gives for it, and any other token itself. *)
Definition expandToken (Interpolated : bool) (parts : Token -> list Token)
    (T : Token) : list Token :=
  if Tok_is T tok.string_literal && Interpolated then parts T else [T].

(** * Sample inputs *)

(** A source manager with one buffer, number 0, of 16 bytes at address 0,
    which holds [")"] at address 9, ["]"] at address 10 and blanks
    elsewhere, and in which every token is one character long. *)
Definition sampleSM : SourceManager :=
  mkSourceManager (fun p => if (p =? 9)%Z then ")"%char
                            else if (p =? 10)%Z then "]"%char else " "%char)
                  (fun Loc => (Loc + 1)%Z)
                  (fun _ => 0%Z)
                  (fun Loc _ => Loc)
                  (fun _ => 16%Z).

(** A one-character token of kind [K] at address [p]. *)
Definition tokenAt (K : tok) (p : Z) : Token := mkToken K (mkStringRef p 1).

(** A parser over [sampleSM] whose current token is [T], with [rest] still
    to come and the end of the buffer at address [e]. *)
Definition parserOn (T : Token) (rest : list Token) (e : Z) : Parser :=
  mkParser sampleSM [] (mkLexer rest (mkStringRef e 0)) T 0%Z.

(** A parser at the end of a nested re-lex: the current token is the
    [eof] token, spelled [")"]. *)
Definition atEofSpelledRParen : Parser :=
  parserOn (mkToken tok.eof (mkStringRef 9 1)) [] 9.

(** A parser whose current token is an [eof] token spelled ["]"]. *)
Definition atEofSpelledRSquare : Parser :=
  parserOn (mkToken tok.eof (mkStringRef 10 1)) [] 10.

(** An element callback: consume one identifier; anything else is an
    error that consumes nothing. *)
Definition sampleElement : M bool :=
  T <- getTok ;;
  if Tok_is T tok.identifier then consumeToken ;; ret false else ret true.

(** The tokens of [a, b c, d)], the parser standing on [a]. *)
Definition sampleList : Parser :=
  parserOn (tokenAt tok.identifier 1)
           [tokenAt tok.comma 2; tokenAt tok.identifier 3;
            tokenAt tok.identifier 4; tokenAt tok.comma 5;
            tokenAt tok.identifier 6; tokenAt tok.r_paren 7] 8.

(** The parser after [b] of [a, b c, d)] has been parsed as an element:
    the current token is [c]. *)
Definition sampleAfterB : Parser :=
  mkParser sampleSM []
           (mkLexer [tokenAt tok.comma 5; tokenAt tok.identifier 6;
                     tokenAt tok.r_paren 7] (mkStringRef 8 0))
           (tokenAt tok.identifier 4) 3%Z.

(** The tokens of [( [ x ] { } ) y], the parser standing on the first. *)
Definition sampleNested : Parser :=
  parserOn (tokenAt tok.l_paren 1)
           [tokenAt tok.l_square 2; tokenAt tok.identifier 3;
            tokenAt tok.r_square 4; tokenAt tok.l_brace 5;
            tokenAt tok.r_brace 6; tokenAt tok.r_paren 7;
            tokenAt tok.identifier 8] 9.

(** The tokens of [( <code-completion> ) y], the parser on the first. *)
Definition sampleCompletion : Parser :=
  parserOn (tokenAt tok.l_paren 1)
           [tokenAt tok.code_complete 2; tokenAt tok.r_paren 3;
            tokenAt tok.identifier 4] 5.

(** The segments of the literal ["x\(y)z"] that starts at address 0. *)
Definition sampleSegments (T : Token) : list StringSegment :=
  [mkStringSegment Literal 1 1; mkStringSegment Expr 4 1;
   mkStringSegment Literal 6 1].

(** A stand-in for the nested tokenizer: one identifier over the range. *)
Definition sampleTokenize (BufferID Offset EndOffset : Z)
    (KeepComments Interpolated : bool) : Res (list Token) :=
  Done [mkToken tok.identifier (mkStringRef Offset (EndOffset - Offset))].

(** A stand-in for the lexer: over the whole sample buffer it finds an
    identifier and a comma, over any other range nothing. *)
Definition sampleLexer (SM : SourceManager) (BufferID : Z)
    (KeepComments : bool) (Offset EndOffset : Z) : Lexer :=
  if (Offset =? 0)%Z && (EndOffset =? 16)%Z
  then mkLexer [tokenAt tok.identifier 0; tokenAt tok.comma 1]
               (mkStringRef 16 0)
  else mkLexer [] (mkStringRef EndOffset 0).

(** A stand-in for the lexer over a whole buffer: [a , b]. *)
Definition sampleBufferLexer (SM : SourceManager) (BufferID : Z)
    (InSILMode KeepComments : bool) : Lexer :=
  mkLexer [tokenAt tok.identifier 0; tokenAt tok.comma 1;
           tokenAt tok.identifier 2] (mkStringRef 16 0).

Definition sampleContext : ASTContext := mkASTContext sampleSM [].

(** A persistent state that holds the position of the comma. *)
Definition sampleState : PersistentParserState.t :=
  PersistentParserState.mk (Some (PersistentParserState.mkParserPos 1 0)) None.

(** A translation unit with one function whose body is still unparsed,
    nested in another declaration. *)
Definition sampleFunc : FuncDecl := mkFuncDecl 2 (Some Unparsed).

Definition sampleTU : TranslationUnit :=
  mkTranslationUnit sampleContext [OtherDeclNode [FuncDeclNode sampleFunc []]].

Definition sampleDelayed : Delayed := mkDelayed sampleState 0 [].

(** Stand-ins for the token classes of Tokens.def and for the grammar
    look-ahead: the kind [other 0] is an operator, [other 1] a keyword
    that starts a declaration, [other 2] one that starts a statement,
    [other 3] a keyword that may be used as an identifier. *)
Definition sampleOperatorKind (n : nat) : bool := n =? 0.
Definition sampleIdentifierKeyword (n : nat) : bool := n =? 3.
Definition sampleStartOfDecl (T Next : Token) : bool := Tok_is T (tok.other 1).
Definition sampleStartOfStmt (T : Token) : bool := Tok_is T (tok.other 2).

(** A stand-in for the identifier table: the identifier of a text is its
    bytes in the sample buffer. *)
Definition sampleGetIdentifier (S : StringRef) : string :=
  bytesAt sampleSM (Data S) (Z.to_nat (Length S)).

(** The tokens of [x ( op ) op func], the parser standing on [x]. *)
Definition sampleOperators : Parser :=
  parserOn (tokenAt tok.identifier 1)
           [tokenAt tok.l_paren 2; tokenAt (tok.other 0) 3;
            tokenAt tok.r_paren 4; tokenAt (tok.other 0) 5;
            tokenAt (tok.other 1) 6] 7.

(** The tokens of [, a , , b c )], the parser standing on the first
    comma: a stray separator before [a], one behind the separator that
    follows it, and no separator between [b] and [c]. *)
Definition sampleStrayList : Parser :=
  parserOn (tokenAt tok.comma 1)
           [tokenAt tok.identifier 2; tokenAt tok.comma 3;
            tokenAt tok.comma 4; tokenAt tok.identifier 5;
            tokenAt tok.identifier 6; tokenAt tok.r_paren 7] 8.

(** Stand-ins for the angle-bracket helpers: operators start with the
    bracket, and the token found at a location is a one-character
    operator, the lexer being left as it is. *)
Definition sampleStartsWithAngle (T : Token) : bool := Tok_is T (tok.other 0).

Definition sampleTokenAt (Lx : Lexer) (Loc : SourceLoc) : Token * Lexer :=
  (tokenAt (tok.other 0) Loc, Lx).

(** The parser on a two-character operator at address 4, the token
    before it having started at address 3. *)
Definition sampleShift : Parser :=
  mkParser sampleSM []
           (mkLexer [tokenAt tok.identifier 6] (mkStringRef 7 0))
           (mkToken (tok.other 0) (mkStringRef 4 2)) 3%Z.

(** The segments of a string literal without interpolation. *)
Definition samplePlainSegments (T : Token) : list StringSegment :=
  [mkStringSegment Literal (getLoc T + 1)%Z (getLength T - 2)%Z].

(** A stand-in for the lexer: an identifier, a string literal of five
    characters and a comma. *)
Definition sampleStringLexer (SM : SourceManager) (BufferID : Z)
    (KeepComments : bool) (Offset EndOffset : Z) : Lexer :=
  mkLexer [tokenAt tok.identifier 0;
           mkToken tok.string_literal (mkStringRef 2 5);
           tokenAt tok.comma 7]
          (mkStringRef 16 0).

(** The tokens of [a 5 , b )], the parser standing on [a]: the integer
    literal is no element for [sampleElement], which consumes nothing
    there, and no separator follows [a]. *)
Definition sampleStuckList : Parser :=
  parserOn (tokenAt tok.identifier 1)
           [tokenAt tok.integer_literal 2; tokenAt tok.comma 3;
            tokenAt tok.identifier 4; tokenAt tok.r_paren 5] 6.

(** The parser on the integer literal of [a 5 , b )], after [a]. *)
Definition sampleStuck : Parser :=
  mkParser sampleSM []
           (mkLexer [tokenAt tok.comma 3; tokenAt tok.identifier 4;
                     tokenAt tok.r_paren 5] (mkStringRef 6 0))
           (tokenAt tok.integer_literal 2) 1%Z.

(** The tokens of [a b )], the parser standing on [a]. *)
Definition sampleTwo : Parser :=
  parserOn (tokenAt tok.identifier 1)
           [tokenAt tok.identifier 2; tokenAt tok.r_paren 3] 4.

(** An element callback that backtracks: it consumes the identifier at
    address 1, and on any other token it rewinds the lexer, the current
    token and the previous location to where they were at the start of
    [a b )]. *)
Definition sampleBacktrack : M bool :=
  T <- getTok ;;
  if Tok_is T tok.identifier && (getLoc T =? 1)%Z
  then consumeToken ;; ret false
  else
    fun P =>
      Done (false,
            mkParser (SourceMgr P) (Diags P) (L sampleTwo) (Tok sampleTwo)
                     (PreviousLoc sampleTwo)).

(** A stand-in for the lexer on a buffer of size 16 that starts with the
    literal ["x\(y)z"]: over the whole buffer it finds the string
    literal, a comma and an identifier, over the range of the
    interpolated expression the identifier [y], and nothing over any
    other range. *)
Definition sampleInterpolatedLexer (SM : SourceManager) (BufferID : Z)
    (KeepComments : bool) (Offset EndOffset : Z) : Lexer :=
  if (Offset =? 0)%Z && (EndOffset =? 16)%Z
  then mkLexer [mkToken tok.string_literal (mkStringRef 0 8);
                tokenAt tok.comma 9; tokenAt tok.identifier 11]
               (mkStringRef 16 0)
  else if (Offset =? 4)%Z && (EndOffset =? 5)%Z
  then mkLexer [tokenAt tok.identifier 4] (mkStringRef 5 0)
  else mkLexer [] (mkStringRef EndOffset 0).

(** The tokens the string literal of that buffer is split into. *)
Definition sampleParts (T : Token) : list Token :=
  [mkToken tok.string_literal (mkStringRef 0 2); tokenAt tok.identifier 4;
   mkToken tok.string_literal (mkStringRef 6 2)].

(** * Properties *)

(** ** Token kinds *)

Lemma tok_eqb_eq a b : tok.eqb a b = true <-> a = b.
Proof. unfold tok.eqb. destruct (tok.eq_dec a b); split; congruence. Qed.

Lemma tok_eqb_neq a b : tok.eqb a b = false <-> a <> b.
Proof. unfold tok.eqb. destruct (tok.eq_dec a b); split; congruence. Qed.

Lemma tok_eqb_refl a : tok.eqb a a = true.
Proof. apply tok_eqb_eq. reflexivity. Qed.

Lemma Tok_is_true T K : Tok_is T K = true <-> Kind T = K.
Proof. apply tok_eqb_eq. Qed.

Lemma Tok_is_false T K : Tok_is T K = false <-> Kind T <> K.
Proof. apply tok_eqb_neq. Qed.

Lemma Tok_isNot_true T K : Tok_isNot T K = true <-> Kind T <> K.
Proof. unfold Tok_isNot. rewrite negb_true_iff. apply Tok_is_false. Qed.

(** ** The token cursor *)

Lemma consumeToken_Done P :
  Kind (Tok P) <> tok.eof ->
  consumeToken P = Done (getLoc (Tok P), lexed P).
Proof.
  intros H. unfold consumeToken, lexed.
  apply Tok_isNot_true in H. rewrite H.
  destruct (lex (L P)); reflexivity.
Qed.

Lemma consumeToken_eof P :
  Kind (Tok P) = tok.eof ->
  consumeToken P = AssertionFailure "Lexing past eof!".
Proof.
  intros H. unfold consumeToken, Tok_isNot.
  apply Tok_is_true in H. rewrite H. reflexivity.
Qed.

Lemma consumeIf_taken K P :
  Kind (Tok P) = K -> K <> tok.eof ->
  consumeIf K P = Done (true, lexed P).
Proof.
  intros HK Hne. apply Tok_is_true in HK as HK'.
  cbv [consumeIf consumeTokenK bind getTok assert ret Tok_isNot].
  rewrite HK'. cbv [negb]. rewrite HK'.
  rewrite consumeToken_Done by congruence. reflexivity.
Qed.

Lemma consumeIf_not_taken K P :
  Kind (Tok P) <> K -> consumeIf K P = Done (false, P).
Proof.
  intros HK. unfold consumeIf, bind, getTok, ret.
  apply Tok_isNot_true in HK. rewrite HK. reflexivity.
Qed.

Lemma remaining_not_eof P :
  Kind (Tok P) <> tok.eof ->
  remaining P = S (List.length (NextTokens (L P))).
Proof.
  intros H. unfold remaining. apply Tok_is_false in H. rewrite H. reflexivity.
Qed.

Lemma remaining_lexed P :
  remaining (lexed P) <= List.length (NextTokens (L P)).
Proof.
  unfold remaining, lexed, lex. simpl.
  destruct (NextTokens (L P)) as [|T rest] eqn:E; simpl.
  - rewrite E. simpl. lia.
  - destruct (Tok_is T tok.eof); lia.
Qed.

Lemma remaining_lexed_lt P :
  Kind (Tok P) <> tok.eof -> remaining (lexed P) < remaining P.
Proof.
  intros H. rewrite (remaining_not_eof P H).
  pose proof (remaining_lexed P). lia.
Qed.

(** C9: [consumeToken] requires that the current token is not [eof].
    Under that precondition it returns the location of the current token,
    installs the next token of the lexer as the current one, and records
    the returned location as [PreviousLoc]; the diagnostics are untouched.
    When the current token is [eof] it stops on the assertion
    ["Lexing past eof!"] instead of producing any result. *)
Theorem consumeToken_contract (P : Parser) :
  (Kind (Tok P) <> tok.eof ->
   exists P',
     consumeToken P = Done (getLoc (Tok P), P')
     /\ Tok P' = fst (lex (L P))
     /\ L P' = snd (lex (L P))
     /\ PreviousLoc P' = getLoc (Tok P)
     /\ Diags P' = Diags P
     /\ SourceMgr P' = SourceMgr P)
  /\ (Kind (Tok P) = tok.eof ->
      consumeToken P = AssertionFailure "Lexing past eof!").
Proof.
  split.
  - intros H. exists (lexed P). rewrite (consumeToken_Done P H).
    repeat split.
  - apply consumeToken_eof.
Qed.

Lemma consumeToken_contract_witness :
  consumeToken (parserOn (tokenAt tok.identifier 1) [tokenAt tok.comma 2] 3)
  = Done (1%Z, mkParser sampleSM [] (mkLexer [] (mkStringRef 3 0))
                        (tokenAt tok.comma 2) 1%Z).
Proof.
  destruct (consumeToken_contract
              (parserOn (tokenAt tok.identifier 1) [tokenAt tok.comma 2] 3))
    as [Hconsume _].
  destruct Hconsume as (P' & HD & _); [discriminate|].
  rewrite HD. vm_compute in HD. injection HD as <-. reflexivity.
Defined.

(** ** The recovery engine: termination *)

Lemma skipUntil_continues_true T1 T2 Stop T :
  skipUntil_continues T1 T2 Stop T = true <->
  Kind T <> tok.eof /\ Kind T <> T1 /\ Kind T <> T2
  /\ (Stop = true -> Kind T <> tok.code_complete).
Proof.
  unfold skipUntil_continues.
  rewrite !andb_true_iff, orb_true_iff, negb_true_iff, !Tok_isNot_true.
  split.
  - intros [[[H1 H2] H3] H4]. repeat split; auto.
    intros HS. destruct H4 as [H4|H4]; congruence.
  - intros (H1 & H2 & H3 & H4). repeat split; auto.
    destruct Stop; auto.
Qed.

Lemma skipUntil_continues_false T1 T2 Stop T :
  skipUntil_continues T1 T2 Stop T = false ->
  Kind T = tok.eof \/ Kind T = T1 \/ Kind T = T2
  \/ (Stop = true /\ Kind T = tok.code_complete).
Proof.
  unfold skipUntil_continues, Tok_isNot, Tok_is. intros H.
  destruct (tok.eq_dec (Kind T) tok.eof) as [|N1]; [auto|].
  destruct (tok.eq_dec (Kind T) T1) as [|N2]; [auto|].
  destruct (tok.eq_dec (Kind T) T2) as [|N3]; [auto|].
  apply tok_eqb_neq in N1, N2, N3. rewrite N1, N2, N3 in H. simpl in H.
  destruct Stop; simpl in H; [|discriminate].
  apply negb_false_iff, tok_eqb_eq in H. auto.
Qed.

Lemma skipSingle_S fuel Stop P :
  skipSingle (S fuel) Stop P =
  match Kind (Tok P) with
  | tok.l_paren =>
      skipSingle_bracket (skipSingle fuel Stop) fuel tok.r_paren Stop P
  | tok.l_brace =>
      skipSingle_bracket (skipSingle fuel Stop) fuel tok.r_brace Stop P
  | tok.l_square =>
      skipSingle_bracket (skipSingle fuel Stop) fuel tok.r_square Stop P
  | tok.code_complete =>
      if negb Stop then (consumeToken ;; ret tt) P else Done (tt, P)
  | _ => (consumeToken ;; ret tt) P
  end.
Proof.
  simpl. unfold bind at 1. unfold getTok at 1.
  destruct (Kind (Tok P)); try reflexivity.
  destruct Stop; reflexivity.
Qed.

Section SkipFrame.

(** A relation between the parser before and after a skip that every
    consumed token maintains. *)
Variable I : Parser -> Parser -> Prop.
Hypothesis I_refl : forall P, I P P.
Hypothesis I_trans : forall P Q R, I P Q -> I Q R -> I P R.
Hypothesis I_lexed : forall P, Kind (Tok P) <> tok.eof -> I P (lexed P).

Lemma skipUntil_loop_sound single T1 T2 Stop N :
  skips_one I Stop N single ->
  forall fuel P,
    remaining P <= fuel -> remaining P <= N ->
    exists P',
      skipUntil_loop single T1 T2 Stop fuel P = Done (tt, P')
      /\ remaining P' <= remaining P
      /\ I P P'
      /\ skipUntil_continues T1 T2 Stop (Tok P') = false.
Proof.
  intros Hsingle. induction fuel as [|fuel IH]; intros P Hfuel HN.
  - simpl. destruct (skipUntil_continues T1 T2 Stop (Tok P)) eqn:E.
    + apply skipUntil_continues_true in E. destruct E as [E _].
      rewrite (remaining_not_eof P E) in Hfuel. lia.
    + exists P. auto.
  - simpl. destruct (skipUntil_continues T1 T2 Stop (Tok P)) eqn:E.
    + apply skipUntil_continues_true in E.
      destruct E as (E1 & _ & _ & E4).
      destruct (Hsingle P HN E1 E4) as (P1 & H1 & Hlt & HI).
      unfold bind at 1. rewrite H1.
      destruct (IH P1) as (P' & H' & Hle & HI' & Hstop); [lia|lia|].
      exists P'. rewrite H'. repeat split; eauto. lia.
    + exists P. auto.
Qed.

Lemma skipSingle_bracket_sound single fuel Close Stop :
  skips_one I Stop fuel single ->
  Close <> tok.eof ->
  forall P,
    remaining P <= S fuel ->
    Kind (Tok P) <> tok.eof ->
    exists P',
      skipSingle_bracket single fuel Close Stop P = Done (tt, P')
      /\ remaining P' < remaining P /\ I P P'.
Proof.
  intros Hsingle HC P Hfuel Hne.
  pose proof (remaining_lexed_lt P Hne) as Hlt.
  unfold skipSingle_bracket. unfold bind at 1.
  rewrite (consumeToken_Done P Hne).
  assert (exists P1,
             skipUntil_body single fuel Close tok.unknown Stop (lexed P)
             = Done (tt, P1)
             /\ remaining P1 <= remaining (lexed P) /\ I (lexed P) P1)
    as (P1 & H1 & Hle & HI).
  { unfold skipUntil_body.
    destruct (tok.eqb Close tok.unknown && tok.eqb tok.unknown tok.unknown).
    - exists (lexed P). unfold ret. auto.
    - destruct (skipUntil_loop_sound single Close tok.unknown Stop fuel
                  Hsingle fuel (lexed P))
        as (P1 & H1 & Hle & HI & _); [lia|lia|].
      exists P1. auto. }
  unfold bind at 1. rewrite H1.
  destruct (tok.eq_dec (Kind (Tok P1)) Close) as [HK|HK].
  - unfold bind at 1. rewrite (consumeIf_taken Close P1 HK HC).
    exists (lexed P1). unfold ret. repeat split.
    + assert (Kind (Tok P1) <> tok.eof) as H by congruence.
      pose proof (remaining_lexed_lt P1 H). lia.
    + apply I_trans with (lexed P); [auto|].
      apply I_trans with P1; [auto|]. apply I_lexed. congruence.
  - unfold bind at 1. rewrite (consumeIf_not_taken Close P1 HK).
    exists P1. unfold ret. repeat split; [lia|].
    apply I_trans with (lexed P); auto.
Qed.

Lemma skipSingle_sound Stop :
  forall fuel, skips_one I Stop fuel (skipSingle fuel Stop).
Proof.
  induction fuel as [|fuel IH]; intros P Hfuel Hne Hcc.
  - rewrite (remaining_not_eof P Hne) in Hfuel. lia.
  - rewrite skipSingle_S.
    assert (exists P',
               (consumeToken ;; ret tt) P = Done (tt, P')
               /\ remaining P' < remaining P /\ I P P') as Hone.
    { exists (lexed P). unfold bind. rewrite (consumeToken_Done P Hne).
      unfold ret. repeat split; auto using remaining_lexed_lt. }
    destruct (Kind (Tok P)) eqn:EK; try exact Hone.
    + destruct Stop; [|exact Hone]. exfalso. apply Hcc; reflexivity.
    + apply skipSingle_bracket_sound; auto; congruence.
    + apply skipSingle_bracket_sound; auto; congruence.
    + apply skipSingle_bracket_sound; auto; congruence.
Qed.

Lemma skipUntil_sound fuel T1 T2 Stop P :
  remaining P <= fuel ->
  exists P',
    skipUntil fuel T1 T2 Stop P = Done (tt, P')
    /\ remaining P' <= remaining P
    /\ I P P'
    /\ (T1 = tok.unknown /\ T2 = tok.unknown -> P' = P)
    /\ (~ (T1 = tok.unknown /\ T2 = tok.unknown) ->
        skipUntil_continues T1 T2 Stop (Tok P') = false).
Proof.
  intros Hfuel. unfold skipUntil, skipUntil_body.
  destruct (tok.eqb T1 tok.unknown && tok.eqb T2 tok.unknown) eqn:E.
  - exists P. unfold ret. repeat split; auto.
    intros Hnot. exfalso. apply Hnot.
    apply andb_true_iff in E. destruct E as [E1 E2].
    apply tok_eqb_eq in E1, E2. auto.
  - destruct (skipUntil_loop_sound (skipSingle fuel Stop) T1 T2 Stop fuel
                (skipSingle_sound Stop fuel) fuel P)
      as (P' & H' & Hle & HI & Hstop); [lia|lia|].
    exists P'. repeat split; auto.
    intros [H1 H2]. subst. rewrite !tok_eqb_refl in E. discriminate.
Qed.

End SkipFrame.

(** The loop of [skipUntil] is a number of [skipSingle] steps, one after
    the other, each of which consumes at least one token. *)
Lemma skipUntil_loop_steps single T1 T2 Stop N :
  skips_one (fun _ _ => True) Stop N single ->
  forall fuel P P',
    remaining P <= N ->
    skipUntil_loop single T1 T2 Stop fuel P = Done (tt, P') ->
    exists n,
      repeatM n single P = Done (tt, P') /\ n + remaining P' <= remaining P.
Proof.
  intros Hsingle. induction fuel as [|fuel IH]; intros P P' HN; simpl.
  - destruct (skipUntil_continues T1 T2 Stop (Tok P)); [discriminate|].
    intros H. injection H as <-. exists 0. split; [reflexivity|lia].
  - destruct (skipUntil_continues T1 T2 Stop (Tok P)) eqn:E.
    + apply skipUntil_continues_true in E. destruct E as (E1 & _ & _ & E4).
      destruct (Hsingle P HN E1 E4) as (P1 & H1 & Hlt & _).
      unfold bind at 1. rewrite H1. intros Hloop.
      destruct (IH P1 P') as (n & Hn & Hle); [lia|exact Hloop|].
      exists (S n). split; [|lia].
      simpl. unfold bind at 1. rewrite H1. exact Hn.
    + intros H. injection H as <-. exists 0. split; [reflexivity|lia].
Qed.

Lemma frame_refl P : frame P P.
Proof. unfold frame. auto. Qed.

Lemma frame_trans P Q R : frame P Q -> frame Q R -> frame P R.
Proof. unfold frame. intros (A1 & A2 & A3) (B1 & B2 & B3). repeat split; congruence. Qed.

Lemma frame_lexed P : Kind (Tok P) <> tok.eof -> frame P (lexed P).
Proof.
  intros _. unfold frame, lexed, lex. simpl.
  destruct (NextTokens (L P)); simpl; auto.
Qed.

(** C5 (as amended): on every finite token stream,
    [skipUntil(T1, T2, StopAtCodeComplete)] returns once it is given as
    many loop steps as there are remaining tokens.  What it does is a
    number of [skipSingle] steps, one after the other, and that number
    is at most the number of tokens it has consumed; it emits no
    diagnostic, and
    - when both targets are the sentinel [tok::unknown] it does nothing:
      the parser, cursor included, is unchanged, wherever the cursor is;
    - otherwise the cursor is left at [eof], at a token of kind [T1] or
      [T2], or, when [StopAtCodeComplete] is set, at a code-completion
      token. *)
Theorem skipUntil_terminates_at_target
    (fuel : nat) (T1 T2 : tok) (StopAtCodeComplete : bool) (P : Parser) :
  remaining P <= fuel ->
  exists P',
    skipUntil fuel T1 T2 StopAtCodeComplete P = Done (tt, P')
    /\ (exists steps,
          repeatM steps (skipSingle fuel StopAtCodeComplete) P = Done (tt, P')
          /\ steps + remaining P' <= remaining P)
    /\ Diags P' = Diags P
    /\ (T1 = tok.unknown /\ T2 = tok.unknown -> P' = P)
    /\ (~ (T1 = tok.unknown /\ T2 = tok.unknown) ->
        Kind (Tok P') = tok.eof \/ Kind (Tok P') = T1 \/ Kind (Tok P') = T2
        \/ (StopAtCodeComplete = true /\ Kind (Tok P') = tok.code_complete)).
Proof.
  intros Hfuel.
  destruct (skipUntil_sound frame frame_refl frame_trans frame_lexed
              fuel T1 T2 StopAtCodeComplete P Hfuel)
    as (P' & HD & Hle & (_ & HDiags & _) & Hsent & Hstop).
  exists P'. split; [exact HD|]. split; [|split; [exact HDiags|split]].
  - unfold skipUntil, skipUntil_body in HD.
    destruct (tok.eqb T1 tok.unknown && tok.eqb T2 tok.unknown).
    + injection HD as <-. exists 0. split; [reflexivity|lia].
    + apply (skipUntil_loop_steps (skipSingle fuel StopAtCodeComplete)
               T1 T2 StopAtCodeComplete fuel) with (fuel := fuel);
        [|exact Hfuel|exact HD].
      apply (skipSingle_sound (fun _ _ => True)); auto.
  - exact Hsent.
  - intros Hnot. apply skipUntil_continues_false. auto.
Qed.

Lemma skipUntil_terminates_at_target_witness :
  exists P',
    skipUntil 5 tok.r_paren tok.comma false
      (parserOn (tokenAt tok.identifier 1)
                [tokenAt tok.l_square 2; tokenAt tok.comma 3;
                 tokenAt tok.r_square 4; tokenAt tok.comma 5] 6)
    = Done (tt, P')
    /\ Kind (Tok P') = tok.comma
    /\ getLoc (Tok P') = 5%Z.
Proof.
  destruct (skipUntil_terminates_at_target 5 tok.r_paren tok.comma false
              (parserOn (tokenAt tok.identifier 1)
                        [tokenAt tok.l_square 2; tokenAt tok.comma 3;
                         tokenAt tok.r_square 4; tokenAt tok.comma 5] 6))
    as (P' & HD & _).
  - vm_compute. lia.
  - exists P'. split; [exact HD|].
    vm_compute in HD. injection HD as <-. split; reflexivity.
Defined.

(** C5, the claim as stated fails: with both targets the sentinel
    [tok::unknown], [skipUntil] returns with the cursor on the identifier
    it started on, which is neither [eof], nor of a requested kind, nor a
    code-completion token. *)
Lemma skipUntil_sentinel_pair_counterexample :
  exists P',
    skipUntil 1 tok.unknown tok.unknown false
      (parserOn (tokenAt tok.identifier 1) [] 2) = Done (tt, P')
    /\ ~ (Kind (Tok P') = tok.eof \/ Kind (Tok P') = tok.unknown
          \/ Kind (Tok P') = tok.unknown
          \/ (false = true /\ Kind (Tok P') = tok.code_complete)).
Proof.
  exists (parserOn (tokenAt tok.identifier 1) [] 2).
  split; [reflexivity|].
  simpl. intros [H|[H|[H|[H _]]]]; discriminate.
Qed.

(** ** The list parser *)

Lemma remaining_withDiag P D : remaining (withDiag P D) = remaining P.
Proof. reflexivity. Qed.

Lemma parseList_missingSeparator_mandatory SeparatorK Invalid P :
  parseList_missingSeparator SeparatorK false Invalid P
  = Done (true, withDiag P (expectedSeparatorDiag SeparatorK P)).
Proof. reflexivity. Qed.

Lemma parseList_missingSeparator_optional SeparatorK Invalid P :
  parseList_missingSeparator SeparatorK true Invalid P = Done (Invalid, P).
Proof. reflexivity. Qed.

Lemma closeDelimiter_not_eof K : closeDelimiter K -> K <> tok.eof.
Proof. intros [H|[H|H]]; subst; discriminate. Qed.

Lemma listSeparator_not_eof K : listSeparator K -> K <> tok.eof.
Proof. intros [H|H]; subst; discriminate. Qed.

Lemma listSeparator_not_unknown K : listSeparator K -> K <> tok.unknown.
Proof. intros [H|H]; subst; discriminate. Qed.

Lemma parseToken_sound K D P :
  K <> tok.eof ->
  exists r P',
    parseToken K D P = Done (r, P') /\ remaining P' <= remaining P.
Proof.
  intros HK. unfold parseToken. unfold bind at 1. unfold getTok.
  destruct (Tok_is (Tok P) K) eqn:E.
  - apply Tok_is_true in E.
    assert (Kind (Tok P) <> tok.eof) as Hne by congruence.
    unfold consumeTokenK, bind, getTok, assert.
    apply Tok_is_true in E. rewrite E.
    rewrite (consumeToken_Done P Hne). unfold ret.
    eexists; eexists; split; [reflexivity|].
    pose proof (remaining_lexed_lt P Hne). lia.
  - unfold bind, diagnose, ret.
    eexists; eexists; split; [reflexivity|]. unfold remaining. simpl. lia.
Qed.

Lemma parseMatchingToken_sound K ErrorDiag OtherLoc P :
  closeDelimiter K ->
  exists r P',
    parseMatchingToken K ErrorDiag OtherLoc P = Done (r, P')
    /\ remaining P' <= remaining P.
Proof.
  intros HK. pose proof (closeDelimiter_not_eof K HK) as Hne.
  destruct (parseToken_sound K ErrorDiag P Hne) as ([b loc] & P1 & H1 & Hle).
  unfold parseMatchingToken.
  assert (forall OtherNote,
             exists r P',
               (r <- parseToken K ErrorDiag ;;
                if fst r
                then diagnose OtherLoc OtherNote [] [] ;; ret (true, snd r)
                else ret (false, snd r)) P = Done (r, P')
               /\ remaining P' <= remaining P) as Hrest.
  { intros OtherNote. unfold bind at 1. rewrite H1. simpl.
    destruct b; unfold bind, diagnose, ret;
      eexists; eexists; (split; [reflexivity|]); unfold remaining in *;
      simpl; lia. }
  destruct HK as [HK|[HK|HK]]; subst K; unfold bind at 1; unfold ret at 1;
    apply Hrest.
Qed.

Section ParseListProperties.

Variable StopAtCodeComplete_default : bool.
Variables (RightK : tok) (LeftLoc : SourceLoc) (SeparatorK : tok)
          (OptionalSep : bool) (ErrorDiag : diag.t) (callback : M bool).

Hypothesis SeparatorK_ok : listSeparator SeparatorK.

Let progress := parseList_progress StopAtCodeComplete_default RightK SeparatorK.
Let afterElement :=
  parseList_afterElement StopAtCodeComplete_default RightK SeparatorK OptionalSep.
Let round :=
  parseList_round StopAtCodeComplete_default RightK SeparatorK OptionalSep callback.

Lemma parseList_straySeparators_sound fuel :
  forall P,
    remaining P <= fuel ->
    exists P',
      parseList_straySeparators SeparatorK fuel P = Done (tt, P')
      /\ remaining P' <= remaining P
      /\ Kind (Tok P') <> SeparatorK.
Proof.
  pose proof (listSeparator_not_eof _ SeparatorK_ok) as Hne.
  induction fuel as [|fuel IH]; intros P Hfuel.
  - simpl. destruct (Tok_is (Tok P) SeparatorK) eqn:E.
    + apply Tok_is_true in E.
      rewrite remaining_not_eof in Hfuel by congruence. lia.
    + exists P. apply Tok_is_false in E. auto.
  - simpl. destruct (Tok_is (Tok P) SeparatorK) eqn:E.
    + apply Tok_is_true in E.
      assert (Kind (Tok P) <> tok.eof) as HP by congruence.
      unfold bind at 1. unfold diagnose at 1.
      set (P1 := mkParser _ _ _ _ _).
      assert (Kind (Tok P1) <> tok.eof) as HP1 by exact HP.
      unfold bind at 1. rewrite (consumeToken_Done P1 HP1).
      pose proof (remaining_lexed_lt P1 HP1) as Hlt.
      change (remaining P1) with (remaining P) in Hlt.
      destruct (IH (lexed P1)) as (P' & H' & Hle & HK); [lia|].
      exists P'. rewrite H'. repeat split; auto. lia.
    + exists P. apply Tok_is_false in E. auto.
Qed.

Lemma parseList_progress_advanced fuel StartLoc Invalid P :
  getLoc (Tok P) <> StartLoc ->
  progress fuel StartLoc Invalid P = Done (LoopContinue Invalid, P).
Proof.
  intros H. unfold progress, parseList_progress, bind, getTok.
  apply Z.eqb_neq in H. rewrite H. reflexivity.
Qed.

Lemma parseList_progress_stuck fuel StartLoc Invalid P :
  getLoc (Tok P) = StartLoc ->
  remaining P <= fuel ->
  exists P1,
    skipUntil fuel RightK SeparatorK StopAtCodeComplete_default P
    = Done (tt, P1)
    /\ remaining P1 <= remaining P
    /\ frame P P1
    /\ ((Kind (Tok P1) = RightK
         /\ progress fuel StartLoc Invalid P = Done (LoopBreak Invalid, P1))
        \/ (Kind (Tok P1) <> RightK
            /\ (Kind (Tok P1) = tok.eof \/ Kind (Tok P1) = tok.code_complete)
            /\ progress fuel StartLoc Invalid P
               = Done (LoopReturn true None, P1))
        \/ (Kind (Tok P1) <> RightK
            /\ Kind (Tok P1) = SeparatorK
            /\ progress fuel StartLoc Invalid P
               = Done (LoopContinue Invalid, lexed P1))).
Proof.
  intros Hloc Hfuel.
  destruct (skipUntil_sound frame frame_refl frame_trans frame_lexed
              fuel RightK SeparatorK StopAtCodeComplete_default P Hfuel)
    as (P1 & HD & Hle & Hfr & _ & Hstop).
  exists P1. split; [exact HD|]. split; [exact Hle|]. split; [exact Hfr|].
  assert (progress fuel StartLoc Invalid P
          = if Tok_is (Tok P1) RightK then Done (LoopBreak Invalid, P1)
            else if Tok_is (Tok P1) tok.eof || Tok_is (Tok P1) tok.code_complete
                 then Done (LoopReturn true None, P1)
                 else (consumeIf SeparatorK ;; ret (LoopContinue Invalid)) P1)
    as Hp.
  { unfold progress, parseList_progress.
    unfold bind at 1. unfold getTok at 1.
    apply Z.eqb_eq in Hloc. rewrite Hloc.
    unfold bind at 1. rewrite HD.
    unfold bind at 1. unfold getTok at 1.
    destruct (Tok_is (Tok P1) RightK); [reflexivity|].
    destruct (Tok_is (Tok P1) tok.eof || Tok_is (Tok P1) tok.code_complete);
      reflexivity. }
  rewrite Hp. clear Hp.
  destruct (Tok_is (Tok P1) RightK) eqn:ER.
  { left. apply Tok_is_true in ER. auto. }
  apply Tok_is_false in ER. right.
  destruct (Tok_is (Tok P1) tok.eof) eqn:EE.
  { left. apply Tok_is_true in EE. auto. }
  destruct (Tok_is (Tok P1) tok.code_complete) eqn:EC.
  { left. apply Tok_is_true in EC. auto. }
  right. simpl.
  apply Tok_is_false in EE, EC.
  assert (Kind (Tok P1) = SeparatorK) as HS.
  { destruct (skipUntil_continues_false RightK SeparatorK _ _
                (Hstop ltac:(intros [_ H];
                  apply (listSeparator_not_unknown _ SeparatorK_ok H))))
      as [H|[H|[H|[_ H]]]]; congruence. }
  repeat split; auto.
  unfold bind.
  rewrite (consumeIf_taken SeparatorK P1 HS
             (listSeparator_not_eof _ SeparatorK_ok)).
  reflexivity.
Qed.

Lemma parseList_afterElement_eq fuel StartLoc Invalid P :
  afterElement fuel StartLoc Invalid P =
  if Tok_is (Tok P) RightK then Done (LoopBreak Invalid, P)
  else if acceptsEofAsClose P
  then Done (LoopReturn Invalid (Some (getLoc (Tok P))), P)
  else if Tok_is (Tok P) SeparatorK
  then Done (LoopContinue Invalid, lexed P)
  else (Invalid' <- parseList_missingSeparator SeparatorK OptionalSep Invalid ;;
        progress fuel StartLoc Invalid') P.
Proof.
  unfold afterElement, parseList_afterElement, acceptsEofAsClose.
  unfold bind at 1. unfold getTok at 1.
  unfold bind at 1. unfold getSourceMgr at 1.
  destruct (Tok_is (Tok P) RightK); [reflexivity|].
  destruct (Tok_is (Tok P) tok.eof
            && StringRef_equals (SourceMgr P) (getText (Tok P)) ")");
    [reflexivity|].
  unfold bind at 1.
  destruct (Tok_is (Tok P) SeparatorK) eqn:E.
  - apply Tok_is_true in E.
    rewrite (consumeIf_taken SeparatorK P E
               (listSeparator_not_eof _ SeparatorK_ok)).
    reflexivity.
  - apply Tok_is_false in E.
    rewrite (consumeIf_not_taken SeparatorK P E). reflexivity.
Qed.

Lemma parseList_progress_no_close fuel StartLoc Invalid P b Loc P' :
  progress fuel StartLoc Invalid P <> Done (LoopReturn b (Some Loc), P').
Proof.
  unfold progress, parseList_progress, bind, getTok.
  destruct (getLoc (Tok P) =? StartLoc)%Z; [|discriminate].
  destruct (skipUntil fuel RightK SeparatorK StopAtCodeComplete_default P)
    as [[[] P1]| | |]; try discriminate.
  destruct (Tok_is (Tok P1) RightK); [discriminate|].
  destruct (Tok_is (Tok P1) tok.eof || Tok_is (Tok P1) tok.code_complete);
    [discriminate|].
  destruct (consumeIf SeparatorK P1) as [[? ?]| | |]; discriminate.
Qed.

Lemma parseList_progress_keeps_invalid fuel StartLoc P step P' :
  progress fuel StartLoc true P = Done (step, P') ->
  stepInvalid step = true.
Proof.
  unfold progress, parseList_progress, bind, getTok.
  destruct (getLoc (Tok P) =? StartLoc)%Z.
  - destruct (skipUntil fuel RightK SeparatorK StopAtCodeComplete_default P)
      as [[[] P1]| | |]; try discriminate.
    destruct (Tok_is (Tok P1) RightK).
    { intros H. injection H as <- _. reflexivity. }
    destruct (Tok_is (Tok P1) tok.eof || Tok_is (Tok P1) tok.code_complete).
    { intros H. injection H as <- _. reflexivity. }
    destruct (consumeIf SeparatorK P1) as [[? ?]| | |]; try discriminate.
    intros H. injection H as <- _. reflexivity.
  - intros H. injection H as <- _. reflexivity.
Qed.

Lemma parseList_afterElement_keeps_invalid fuel StartLoc P step P' :
  afterElement fuel StartLoc true P = Done (step, P') ->
  stepInvalid step = true.
Proof.
  rewrite parseList_afterElement_eq.
  destruct (Tok_is (Tok P) RightK).
  { intros H. injection H as <- _. reflexivity. }
  destruct (acceptsEofAsClose P).
  { intros H. injection H as <- _. reflexivity. }
  destruct (Tok_is (Tok P) SeparatorK).
  { intros H. injection H as <- _. reflexivity. }
  destruct OptionalSep.
  - unfold bind. rewrite parseList_missingSeparator_optional.
    apply parseList_progress_keeps_invalid.
  - unfold bind. rewrite parseList_missingSeparator_mandatory.
    apply parseList_progress_keeps_invalid.
Qed.

Lemma parseList_round_keeps_invalid fuel P step P' :
  round fuel true P = Done (step, P') -> stepInvalid step = true.
Proof.
  unfold round, parseList_round.
  unfold bind at 1.
  destruct (parseList_straySeparators SeparatorK fuel P)
    as [[[] P1]| | |]; try discriminate.
  unfold bind at 1. unfold getTok at 1.
  unfold bind at 1.
  destruct (callback P1) as [[b P2]| | |]; try discriminate.
  apply parseList_afterElement_keeps_invalid.
Qed.

Lemma parseList_loop_keeps_invalid fuel :
  forall P r P',
    parseList_loop StopAtCodeComplete_default RightK LeftLoc SeparatorK
                   OptionalSep ErrorDiag callback fuel true P = Done (r, P') ->
    fst r = true.
Proof.
  induction fuel as [|fuel IH]; intros P r P'; [discriminate|].
  simpl. unfold bind at 1.
  destruct (parseList_round StopAtCodeComplete_default RightK SeparatorK
              OptionalSep callback (S fuel) true P)
    as [[step P1]| | |] eqn:ER; try discriminate.
  apply parseList_round_keeps_invalid in ER.
  destruct step as [i|i|b loc]; simpl in ER; subst.
  - apply IH.
  - unfold bind.
    destruct (parseMatchingToken RightK ErrorDiag LeftLoc P1)
      as [[r1 P2]| | |]; try discriminate.
    unfold ret. intros H. injection H as <- _. reflexivity.
  - unfold ret. intros H. injection H as <- _. reflexivity.
Qed.

Lemma parseList_afterElement_sound fuel StartLoc Invalid P :
  remaining P <= fuel ->
  exists step P',
    afterElement fuel StartLoc Invalid P = Done (step, P')
    /\ remaining P' <= remaining P
    /\ (forall Invalid', step = LoopContinue Invalid' ->
        remaining P' < remaining P \/ getLoc (Tok P) <> StartLoc).
Proof.
  intros Hfuel. rewrite parseList_afterElement_eq.
  destruct (Tok_is (Tok P) RightK).
  { exists (LoopBreak Invalid), P. repeat split; auto. discriminate. }
  destruct (acceptsEofAsClose P).
  { eexists; exists P. repeat split; auto. discriminate. }
  destruct (Tok_is (Tok P) SeparatorK) eqn:ES.
  { apply Tok_is_true in ES.
    assert (Kind (Tok P) <> tok.eof) as Hne.
    { rewrite ES. apply listSeparator_not_eof, SeparatorK_ok. }
    pose proof (remaining_lexed_lt P Hne).
    exists (LoopContinue Invalid), (lexed P). repeat split; auto; lia. }
  assert (exists Invalid' P0,
             parseList_missingSeparator SeparatorK OptionalSep Invalid P
             = Done (Invalid', P0)
             /\ remaining P0 = remaining P /\ Tok P0 = Tok P)
    as (Invalid' & P0 & HM & HR & HT).
  { destruct OptionalSep.
    - rewrite parseList_missingSeparator_optional. eauto.
    - rewrite parseList_missingSeparator_mandatory.
      eexists; eexists; split; [reflexivity|]. split; reflexivity. }
  unfold bind. rewrite HM.
  destruct (Z.eq_dec (getLoc (Tok P0)) StartLoc) as [Hloc|Hloc].
  - destruct (parseList_progress_stuck fuel StartLoc Invalid' P0 Hloc)
      as (P1 & _ & Hle & _ & [[_ Hp]|[(_ & _ & Hp)|(_ & HS & Hp)]]);
      [lia| | |]; fold progress; rewrite Hp.
    + eexists; exists P1. repeat split; [lia|discriminate].
    + eexists; exists P1. repeat split; [lia|discriminate].
    + assert (Kind (Tok P1) <> tok.eof) as Hne.
      { rewrite HS. apply listSeparator_not_eof, SeparatorK_ok. }
      pose proof (remaining_lexed_lt P1 Hne).
      eexists; exists (lexed P1). repeat split; [lia|]. intros; left; lia.
  - fold progress. rewrite (parseList_progress_advanced fuel _ _ _ Hloc).
    eexists; exists P0. repeat split; [lia|].
    intros; right. rewrite <- HT. exact Hloc.
Qed.

Hypothesis callback_forward : forwardOnly callback.

Lemma parseList_round_sound fuel Invalid P :
  remaining P <= fuel ->
  exists step P',
    round fuel Invalid P = Done (step, P')
    /\ remaining P' <= remaining P
    /\ (forall Invalid', step = LoopContinue Invalid' ->
        remaining P' < remaining P).
Proof.
  intros Hfuel. unfold round, parseList_round.
  destruct (parseList_straySeparators_sound fuel P Hfuel)
    as (P1 & H1 & Hle1 & _).
  unfold bind at 1. rewrite H1.
  unfold bind at 1. unfold getTok at 1.
  destruct (callback_forward P1) as (b & P2 & H2 & Hle2 & Hsame).
  unfold bind at 1. rewrite H2.
  destruct (parseList_afterElement_sound fuel (getLoc (Tok P1))
              (Invalid || b) P2)
    as (step & P3 & H3 & Hle3 & Hcont); [lia|].
  fold afterElement. rewrite H3.
  exists step, P3. repeat split; [lia|].
  intros Invalid' Hstep.
  destruct (Hcont Invalid' Hstep) as [Hlt|Hloc]; [lia|].
  destruct (Nat.eq_dec (remaining P2) (remaining P1)) as [E|E]; [|lia].
  exfalso. apply Hloc. auto.
Qed.

Hypothesis RightK_ok : closeDelimiter RightK.

Lemma parseList_loop_sound fuel :
  forall Invalid P,
    remaining P < fuel ->
    exists r P',
      parseList_loop StopAtCodeComplete_default RightK LeftLoc SeparatorK
                     OptionalSep ErrorDiag callback fuel Invalid P
      = Done (r, P')
      /\ remaining P' <= remaining P.
Proof.
  induction fuel as [|fuel IH]; intros Invalid P Hfuel; [lia|].
  simpl.
  destruct (parseList_round_sound (S fuel) Invalid P)
    as (step & P1 & H1 & Hle & Hcont); [lia|].
  unfold bind at 1. fold round. rewrite H1.
  destruct step as [Invalid'|Invalid'|Result RightLoc].
  - specialize (Hcont Invalid' eq_refl).
    destruct (IH Invalid' P1) as (r & P' & H' & Hle'); [lia|].
    exists r, P'. split; [exact H'|lia].
  - destruct (parseMatchingToken_sound RightK ErrorDiag LeftLoc P1 RightK_ok)
      as (r & P2 & H2 & Hle2).
    unfold bind. rewrite H2. unfold ret.
    eexists; exists P2. split; [reflexivity|lia].
  - unfold ret. eexists; exists P1. split; [reflexivity|lia].
Qed.

Lemma parseList_sound fuel P :
  remaining P < fuel ->
  exists r P',
    parseList StopAtCodeComplete_default RightK LeftLoc SeparatorK
              OptionalSep ErrorDiag callback fuel P = Done (r, P')
    /\ remaining P' <= remaining P.
Proof.
  intros Hfuel. unfold parseList.
  assert (tok.eqb SeparatorK tok.comma || tok.eqb SeparatorK tok.semi = true)
    as HS.
  { destruct SeparatorK_ok as [H|H]; rewrite H; reflexivity. }
  rewrite HS. unfold bind at 1. unfold assert at 1.
  unfold bind at 1. unfold getTok at 1.
  destruct (Tok_is (Tok P) RightK) eqn:ER.
  - apply Tok_is_true in ER.
    assert (Kind (Tok P) <> tok.eof) as Hne.
    { rewrite ER. apply closeDelimiter_not_eof, RightK_ok. }
    unfold consumeTokenK, bind, getTok, assert.
    apply Tok_is_true in ER. rewrite ER.
    rewrite (consumeToken_Done P Hne). unfold ret.
    eexists; eexists; split; [reflexivity|].
    pose proof (remaining_lexed_lt P Hne). lia.
  - apply parseList_loop_sound. exact Hfuel.
Qed.

End ParseListProperties.

Lemma parseList_eof_accepted_rparen_text
    StopAtCodeComplete_default RightK SeparatorK OptionalSep fuel StartLoc
    Invalid P :
  closeDelimiter RightK ->
  listSeparator SeparatorK ->
  Kind (Tok P) = tok.eof ->
  parseList_afterElement StopAtCodeComplete_default RightK SeparatorK
    OptionalSep fuel StartLoc Invalid P
  = Done (LoopReturn Invalid (Some (getLoc (Tok P))), P)
  <-> StringRef_equals (SourceMgr P) (getText (Tok P)) ")" = true.
Proof.
  intros HR HS HE.
  rewrite (parseList_afterElement_eq _ _ _ _ HS).
  assert (Tok_is (Tok P) RightK = false) as E1.
  { apply Tok_is_false. rewrite HE. intros H.
    apply (closeDelimiter_not_eof RightK HR). auto. }
  assert (Tok_is (Tok P) SeparatorK = false) as E2.
  { apply Tok_is_false. rewrite HE. intros H.
    apply (listSeparator_not_eof SeparatorK HS). auto. }
  rewrite E1, E2. unfold acceptsEofAsClose.
  apply Tok_is_true in HE. rewrite HE. simpl.
  destruct (StringRef_equals (SourceMgr P) (getText (Tok P)) ")").
  - split; reflexivity.
  - split; [|discriminate]. intros H. exfalso. revert H.
    unfold bind.
    destruct (parseList_missingSeparator SeparatorK OptionalSep Invalid P)
      as [[Invalid' P0]| | |]; try discriminate.
    intros H.
    destruct (Z.eq_dec (getLoc (Tok P0)) StartLoc) as [Hloc|Hloc].
    + eapply parseList_progress_no_close. exact H.
    + rewrite (parseList_progress_advanced _ _ _ fuel _ _ _ Hloc) in H.
      discriminate.
Qed.

Lemma StringRef_equals_one_char SM S a b :
  StringRef_equals SM S (String a EmptyString) = true ->
  a <> b ->
  StringRef_equals SM S (String b EmptyString) = false.
Proof.
  unfold StringRef_equals. simpl. intros H Hab.
  apply andb_true_iff in H. destruct H as [HL HB].
  rewrite HL. simpl.
  destruct (Ascii.eqb (charAt SM (Data S)) a) eqn:Ea; [|discriminate].
  apply Ascii.eqb_eq in Ea. rewrite Ea.
  destruct (Ascii.eqb a b) eqn:Eb; [|reflexivity].
  apply Ascii.eqb_eq in Eb. contradiction.
Qed.







Lemma consumeTokenK_Done K P :
  Kind (Tok P) = K -> K <> tok.eof ->
  consumeTokenK K P = Done (getLoc (Tok P), lexed P).
Proof.
  intros HK Hne. unfold consumeTokenK, bind, getTok, assert.
  apply Tok_is_true in HK as HK'. rewrite HK'.
  apply consumeToken_Done. congruence.
Qed.

Lemma parseToken_taken K D P :
  Kind (Tok P) = K -> K <> tok.eof ->
  parseToken K D P = Done ((false, Some (getLoc (Tok P))), lexed P).
Proof.
  intros HK Hne. unfold parseToken. unfold bind at 1. unfold getTok at 1.
  apply Tok_is_true in HK as HK'. rewrite HK'.
  unfold bind. rewrite (consumeTokenK_Done K P HK Hne). reflexivity.
Qed.

Lemma parseMatchingToken_taken K ErrorDiag OtherLoc P :
  closeDelimiter K -> Kind (Tok P) = K ->
  parseMatchingToken K ErrorDiag OtherLoc P
  = Done ((false, Some (getLoc (Tok P))), lexed P).
Proof.
  intros HK HT. pose proof (closeDelimiter_not_eof K HK) as Hne.
  unfold parseMatchingToken.
  destruct HK as [HK|[HK|HK]]; subst K; unfold bind at 1; unfold ret at 1;
    unfold bind at 1; rewrite (parseToken_taken _ _ _ HT Hne);
    reflexivity.
Qed.

Lemma listSeparator_eqb K :
  tok.eqb K tok.comma || tok.eqb K tok.semi = true <-> listSeparator K.
Proof.
  unfold listSeparator. rewrite orb_true_iff, !tok_eqb_eq. tauto.
Qed.

Lemma parseList_progress_exits StopAtCodeComplete_default RightK SeparatorK
    fuel StartLoc Invalid P step P' :
  parseList_progress StopAtCodeComplete_default RightK SeparatorK fuel
    StartLoc Invalid P = Done (step, P') ->
  roundExit RightK step P'.
Proof.
  unfold parseList_progress, bind, getTok.
  destruct (getLoc (Tok P) =? StartLoc)%Z.
  - destruct (skipUntil fuel RightK SeparatorK StopAtCodeComplete_default P)
      as [[[] P1]| | |]; try discriminate.
    destruct (Tok_is (Tok P1) RightK) eqn:ER.
    { intros H. injection H as <- <-. apply Tok_is_true. exact ER. }
    destruct (Tok_is (Tok P1) tok.eof || Tok_is (Tok P1) tok.code_complete)
      eqn:EE.
    { intros H. injection H as <- <-. simpl. split; [reflexivity|].
      apply orb_true_iff in EE. rewrite !Tok_is_true in EE. exact EE. }
    destruct (consumeIf SeparatorK P1) as [[? ?]| | |]; try discriminate.
    intros H. injection H as <- <-. exact I.
  - intros H. injection H as <- <-. exact I.
Qed.

Lemma parseList_round_exits StopAtCodeComplete_default RightK SeparatorK
    OptionalSep callback fuel Invalid P step P' :
  parseList_round StopAtCodeComplete_default RightK SeparatorK OptionalSep
    callback fuel Invalid P = Done (step, P') ->
  roundExit RightK step P'.
Proof.
  unfold parseList_round. unfold bind at 1.
  destruct (parseList_straySeparators SeparatorK fuel P)
    as [[[] P1]| | |]; try discriminate.
  unfold bind at 1. unfold getTok at 1. unfold bind at 1.
  destruct (callback P1) as [[b P2]| | |]; try discriminate.
  unfold parseList_afterElement.
  unfold bind at 1. unfold getTok at 1.
  unfold bind at 1. unfold getSourceMgr at 1.
  destruct (Tok_is (Tok P2) RightK) eqn:ER.
  { intros H. injection H as <- <-. apply Tok_is_true. exact ER. }
  destruct (Tok_is (Tok P2) tok.eof
            && StringRef_equals (SourceMgr P2) (getText (Tok P2)) ")").
  { intros H. injection H as <- <-. exact I. }
  unfold bind at 1.
  destruct (consumeIf SeparatorK P2) as [[sep P3]| | |]; try discriminate.
  destruct sep.
  { intros H. injection H as <- <-. exact I. }
  unfold bind at 1.
  destruct (parseList_missingSeparator SeparatorK OptionalSep (Invalid || b) P3)
    as [[Invalid' P4]| | |]; try discriminate.
  apply parseList_progress_exits.
Qed.

Lemma parseList_loop_rounds
    StopAtCodeComplete_default RightK LeftLoc SeparatorK OptionalSep
    ErrorDiag callback :
  closeDelimiter RightK ->
  listSeparator SeparatorK ->
  forwardOnly callback ->
  forall fuel Invalid P,
    remaining P < fuel ->
    exists step P1,
      listRounds (parseList_round StopAtCodeComplete_default RightK
                    SeparatorK OptionalSep callback)
                 fuel Invalid P step P1
      /\ parseList_loop StopAtCodeComplete_default RightK LeftLoc SeparatorK
           OptionalSep ErrorDiag callback fuel Invalid P
         = listResult step P1
      /\ exists r P', listResult step P1 = Done (r, P').
Proof.
  intros HR HS Hcb. induction fuel as [|fuel IH]; intros Invalid P Hfuel;
    [lia|].
  destruct (parseList_round_sound StopAtCodeComplete_default RightK
              SeparatorK OptionalSep callback HS Hcb (S fuel) Invalid P)
    as (step & P1 & H1 & Hle & Hcont); [lia|].
  simpl. unfold bind at 1. rewrite H1.
  destruct step as [Invalid'|Invalid'|Result RightLoc].
  - specialize (Hcont Invalid' eq_refl).
    destruct (IH Invalid' P1) as (step & P2 & Hrounds & Hloop & Hres); [lia|].
    exists step, P2. split; [|split; [exact Hloop|exact Hres]].
    eapply listRounds_next; eauto.
  - exists (LoopBreak Invalid'), P1. split; [|split].
    + apply listRounds_last; [exact H1|discriminate].
    + apply parseList_round_exits in H1. simpl in H1.
      unfold bind.
      rewrite (parseMatchingToken_taken RightK ErrorDiag LeftLoc P1 HR H1).
      unfold ret. simpl. rewrite orb_false_r. reflexivity.
    + simpl. eauto.
  - exists (LoopReturn Result RightLoc), P1. split; [|split].
    + apply listRounds_last; [exact H1|discriminate].
    + reflexivity.
    + simpl. eauto.
Qed.


Lemma sampleElement_forwardOnly : forwardOnly sampleElement.
Proof.
  intros P. unfold sampleElement, bind, getTok.
  destruct (Tok_is (Tok P) tok.identifier) eqn:E.
  - apply Tok_is_true in E.
    assert (Kind (Tok P) <> tok.eof) as Hne by (rewrite E; discriminate).
    rewrite (consumeToken_Done P Hne). unfold ret.
    pose proof (remaining_lexed_lt P Hne).
    exists false, (lexed P). repeat split; lia.
  - exists true, P. unfold ret. repeat split; auto.
Qed.


Lemma sampleBacktrack_round fuel :
  parseList_round false tok.r_paren tok.comma true sampleBacktrack fuel false
    sampleTwo = Done (LoopContinue false, lexed sampleTwo)
  /\ parseList_round false tok.r_paren tok.comma true sampleBacktrack fuel
       false (lexed sampleTwo) = Done (LoopContinue false, sampleTwo).
Proof. destruct fuel; split; reflexivity. Qed.


(** ** Bracket balance *)

Lemma closerOf_Some K Close :
  closerOf K = Some Close ->
  K <> tok.eof /\ K <> tok.code_complete
  /\ Close <> tok.eof /\ Close <> tok.unknown /\ Close <> tok.code_complete
  /\ closerOf Close = None.
Proof.
  destruct K; simpl; intros H; try discriminate;
    injection H as <-; repeat split; discriminate.
Qed.

Lemma nesting_app ts1 : forall stack ts2,
  nesting stack (ts1 ++ ts2) = nesting (nesting stack ts1) ts2.
Proof.
  induction ts1 as [|T ts1 IH]; intros stack ts2; [reflexivity|].
  simpl. destruct (closerOf (Kind T)); [apply IH|].
  destruct stack as [|Close stack]; [apply IH|].
  destruct (tok.eqb (Kind T) Close); apply IH.
Qed.

Lemma Nested_nesting Stop Close ts :
  Nested Stop Close ts ->
  forall stack, nesting (Close :: stack) ts = Close :: stack.
Proof.
  induction 1 as [Close|Close T ts HT HC _ _ _ IH
                 |Close Open Close' body Cl ts HO _ _ IHb HCl _ IHt];
    intros stack.
  - reflexivity.
  - simpl. rewrite HT. apply tok_eqb_neq in HC. rewrite HC. apply IH.
  - simpl. rewrite HO. rewrite nesting_app, IHb. simpl.
    destruct (closerOf_Some _ _ HO) as (_ & _ & _ & _ & _ & HN).
    rewrite HCl, HN, tok_eqb_refl. apply IHt.
Qed.

Lemma Nested_group_depth Stop Open Close body Cl :
  closerOf (Kind Open) = Some Close ->
  Nested Stop Close body ->
  Kind Cl = Close ->
  bracketDepth (Open :: body ++ [Cl]) = 0.
Proof.
  intros HO HB HCl. unfold bracketDepth. simpl. rewrite HO.
  rewrite nesting_app, (Nested_nesting Stop Close body HB). simpl.
  destruct (closerOf_Some _ _ HO) as (_ & _ & _ & _ & _ & HN).
  rewrite HCl, HN, tok_eqb_refl. reflexivity.
Qed.

Lemma Nested_app Stop Close ts1 :
  Nested Stop Close ts1 ->
  forall ts2, Nested Stop Close ts2 -> Nested Stop Close (ts1 ++ ts2).
Proof.
  induction 1 as [Close|Close T ts HT HC HE HS _ IH
                 |Close Open Close' body Cl ts HO HOC HB _ HCl _ IHt];
    intros ts2 H2.
  - exact H2.
  - simpl. apply Nested_token; auto.
  - simpl. rewrite <- app_assoc. simpl. eapply Nested_group; eauto.
Qed.

Lemma stream_lexed P T rest :
  NextTokens (L P) = T :: rest -> stream (lexed P) = T :: rest.
Proof. intros H. unfold stream, lexed, lex. rewrite H. reflexivity. Qed.

Lemma lexed_at_end P :
  NextTokens (L P) = [] -> Kind (Tok (lexed P)) = tok.eof.
Proof. intros H. unfold lexed, lex. rewrite H. reflexivity. Qed.

Lemma noUnknown_lexed P :
  noUnknown (stream P) -> noUnknown (stream (lexed P)).
Proof.
  unfold noUnknown, stream. intros H. inversion H as [|T ts HT Hts]; subst.
  destruct (NextTokens (L P)) as [|T' rest] eqn:E.
  - unfold lexed, lex. rewrite E. simpl. rewrite E.
    constructor; [discriminate|constructor].
  - change (T' :: rest) with ([] ++ T' :: rest) in E.
    pose proof (stream_lexed P T' rest E) as HS. unfold stream in HS.
    rewrite HS. exact Hts.
Qed.

Lemma skipUntil_loop_stops single T1 T2 Stop fuel P :
  skipUntil_continues T1 T2 Stop (Tok P) = false ->
  skipUntil_loop single T1 T2 Stop fuel P = Done (tt, P).
Proof. intros H. destruct fuel; simpl; rewrite H; reflexivity. Qed.

Lemma skipUntil_loop_S single T1 T2 Stop fuel P :
  skipUntil_continues T1 T2 Stop (Tok P) = true ->
  skipUntil_loop single T1 T2 Stop (S fuel) P
  = (single ;; skipUntil_loop single T1 T2 Stop fuel) P.
Proof. intros H. simpl. rewrite H. reflexivity. Qed.

Lemma skipUntil_body_loop single fuel Close Stop :
  Close <> tok.unknown ->
  skipUntil_body single fuel Close tok.unknown Stop
  = skipUntil_loop single Close tok.unknown Stop fuel.
Proof.
  intros H. unfold skipUntil_body. apply tok_eqb_neq in H. rewrite H.
  reflexivity.
Qed.

(** A token that is no opening bracket is skipped by consuming it. *)
Lemma skipSingle_plain fuel Stop P :
  closerOf (Kind (Tok P)) = None ->
  Kind (Tok P) <> tok.eof ->
  (Stop = true -> Kind (Tok P) <> tok.code_complete) ->
  skipSingle (S fuel) Stop P = Done (tt, lexed P).
Proof.
  intros HC HE HS. rewrite skipSingle_S.
  assert ((consumeToken ;; ret tt) P = Done (tt, lexed P)) as H.
  { unfold bind. rewrite (consumeToken_Done P HE). reflexivity. }
  destruct (Kind (Tok P)) eqn:EK; try exact H; try discriminate.
  destruct Stop; [|exact H]. exfalso. apply HS; reflexivity.
Qed.

Lemma skipSingle_opener fuel Stop P Close :
  closerOf (Kind (Tok P)) = Some Close ->
  skipSingle (S fuel) Stop P
  = skipSingle_bracket (skipSingle fuel Stop) fuel Close Stop P.
Proof.
  intros HC. rewrite skipSingle_S.
  destruct (Kind (Tok P)); simpl in HC; try discriminate;
    injection HC as <-; reflexivity.
Qed.

Lemma lexed_consumedThrough P P1 Cl after :
  frame P P1 -> Tok P1 = Cl -> NextTokens (L P1) = after ->
  lexed P1 = consumedThrough P Cl after.
Proof.
  intros (H1 & H2 & H3) HT HN. unfold consumedThrough, lexed.
  destruct P1 as [sm d [n e] t pl]. simpl in *. subst.
  reflexivity.
Qed.

(** One statement of a monadic sequence, by its equation. *)
Ltac run_with H := unfold bind at 1; rewrite H; cbv beta iota.

(** A nested run followed by the closer: the loop of [skipUntil] goes
    through the run and stops on the closer. *)
Lemma skipUntil_loop_nested Stop Close ts :
  Nested Stop Close ts ->
  forall fuelS fuelL P Cl after,
    stream P = ts ++ Cl :: after ->
    Kind Cl = Close ->
    noUnknown ts ->
    List.length (stream P) <= fuelS ->
    List.length (stream P) <= fuelL ->
    exists P',
      skipUntil_loop (skipSingle fuelS Stop) Close tok.unknown Stop fuelL P
      = Done (tt, P')
      /\ Tok P' = Cl /\ NextTokens (L P') = after /\ frame P P'.
Proof.
  induction 1 as [Close|Close T ts HT HC HE HS _ IH
                 |Close Open Close' body Cl' ts HO HOC _ IHb HCl' _ IHt];
    intros fuelS fuelL P Cl after Hstream HCl Hunk HfS HfL.
  - (* the closer is the current token *)
    simpl in Hstream. injection Hstream as HTok HNext.
    exists P. split.
    + apply skipUntil_loop_stops. unfold skipUntil_continues.
      assert (Tok_isNot (Tok P) Close = false) as E.
      { unfold Tok_isNot. apply negb_false_iff, Tok_is_true. congruence. }
      rewrite E. rewrite andb_false_r. reflexivity.
    + split; [exact HTok|]. split; [exact HNext|apply frame_refl].
  - (* a plain token *)
    rewrite Hstream in HfS, HfL. simpl in HfS, HfL.
    simpl in Hstream. injection Hstream as HTok HNext.
    inversion Hunk as [|T0 ts0 HTu Hunk']; subst T0 ts0.
    destruct fuelL as [|fuelL]; [lia|]. destruct fuelS as [|fuelS]; [lia|].
    assert (skipUntil_continues Close tok.unknown Stop (Tok P) = true) as E.
    { apply skipUntil_continues_true. rewrite HTok. auto. }
    rewrite (skipUntil_loop_S _ _ _ _ _ _ E).
    run_with (skipSingle_plain fuelS Stop P
                ltac:(rewrite HTok; exact HT) ltac:(rewrite HTok; exact HE)
                ltac:(rewrite HTok; exact HS)).
    assert (stream (lexed P) = ts ++ Cl :: after) as Hs1.
    { destruct (ts ++ Cl :: after) as [|x r] eqn:Ex.
      - destruct ts; discriminate.
      - apply stream_lexed. exact HNext. }
    destruct (IH (S fuelS) fuelL (lexed P) Cl after Hs1 HCl Hunk')
      as (P' & HD & HT' & HN' & HF').
    { rewrite Hs1. lia. }
    { rewrite Hs1. lia. }
    exists P'. split; [exact HD|]. split; [exact HT'|]. split; [exact HN'|].
    apply frame_trans with (lexed P); [|exact HF'].
    apply frame_lexed. rewrite HTok. exact HE.
  - (* a bracketed group *)
    simpl in Hstream. injection Hstream as HTok HNext.
    rewrite <- app_assoc in HNext. simpl in HNext.
    assert (noUnknown body /\ noUnknown ts /\ Kind Open <> tok.unknown)
      as (Hub & Hut & HOu).
    { unfold noUnknown in *. inversion Hunk as [|T0 ts0 HOu Hrest]; subst.
      apply Forall_app in Hrest. destruct Hrest as [Hb Hrest].
      inversion Hrest; subst. auto. }
    destruct (closerOf_Some _ _ HO) as (HOe & HOc & HCe & HCu & HCc & HCn).
    assert (List.length (stream P)
            = S (List.length body + S (List.length (ts ++ Cl :: after))))
      as Hlen.
    { unfold stream. rewrite HNext. simpl. rewrite length_app. reflexivity. }
    rewrite Hlen in HfS, HfL.
    destruct fuelL as [|fuelL]; [lia|]. destruct fuelS as [|fuelS]; [lia|].
    assert (skipUntil_continues Close tok.unknown Stop (Tok P) = true) as E.
    { apply skipUntil_continues_true. rewrite HTok. auto. }
    assert (stream (lexed P) = body ++ Cl' :: ts ++ Cl :: after) as Hs1.
    { destruct (body ++ Cl' :: ts ++ Cl :: after) as [|x r] eqn:Ex.
      - destruct body; discriminate.
      - apply stream_lexed. exact HNext. }
    destruct (IHb fuelS fuelS (lexed P) Cl' (ts ++ Cl :: after) Hs1 HCl' Hub)
      as (P1 & HD1 & HT1 & HN1 & HF1).
    { rewrite Hs1, length_app. simpl. lia. }
    { rewrite Hs1, length_app. simpl. lia. }
    assert (Kind (Tok P1) = Close') as HK1 by (rewrite HT1; exact HCl').
    assert (skipSingle (S fuelS) Stop P = Done (tt, lexed P1)) as HSingle.
    { rewrite (skipSingle_opener fuelS Stop P Close')
        by (rewrite HTok; exact HO).
      unfold skipSingle_bracket.
      run_with (consumeToken_Done P ltac:(rewrite HTok; exact HOe)).
      rewrite (skipUntil_body_loop _ _ _ _ HCu).
      run_with HD1.
      run_with (consumeIf_taken Close' P1 HK1 HCe).
      reflexivity. }
    rewrite (skipUntil_loop_S _ _ _ _ _ _ E). run_with HSingle.
    assert (stream (lexed P1) = ts ++ Cl :: after) as Hs2.
    { destruct (ts ++ Cl :: after) as [|x r] eqn:Ex.
      - destruct ts; discriminate.
      - apply stream_lexed. exact HN1. }
    destruct (IHt (S fuelS) fuelL (lexed P1) Cl after Hs2 HCl Hut)
      as (P' & HD & HT' & HN' & HF').
    { rewrite Hs2. lia. }
    { rewrite Hs2. lia. }
    exists P'. split; [exact HD|]. split; [exact HT'|]. split; [exact HN'|].
    apply frame_trans with (lexed P).
    { apply frame_lexed. rewrite HTok. exact HOe. }
    apply frame_trans with P1; [exact HF1|].
    apply frame_trans with (lexed P1); [|exact HF'].
    apply frame_lexed. rewrite HK1. exact HCe.
Qed.

(** The bracket case of [skipSingle] on an opener whose nested run and
    matching closer are there: all of it is consumed, nothing more. *)
Lemma skipSingle_consumes_group fuel Stop P Close body Cl after :
  closerOf (Kind (Tok P)) = Some Close ->
  NextTokens (L P) = body ++ Cl :: after ->
  Nested Stop Close body ->
  Kind Cl = Close ->
  noUnknown body ->
  remaining P <= fuel ->
  skipSingle fuel Stop P = Done (tt, consumedThrough P Cl after).
Proof.
  intros HO HNext HB HCl Hunk Hfuel.
  destruct (closerOf_Some _ _ HO) as (HOe & HOc & HCe & HCu & HCc & HCn).
  rewrite (remaining_not_eof P HOe), HNext, length_app in Hfuel.
  simpl in Hfuel.
  destruct fuel as [|fuel]; [lia|].
  assert (stream (lexed P) = body ++ Cl :: after) as Hs1.
  { destruct (body ++ Cl :: after) as [|x r] eqn:Ex.
    - destruct body; discriminate.
    - apply stream_lexed. exact HNext. }
  destruct (skipUntil_loop_nested Stop Close body HB fuel fuel (lexed P)
              Cl after Hs1 HCl Hunk)
    as (P1 & HD1 & HT1 & HN1 & HF1).
  { rewrite Hs1, length_app. simpl. lia. }
  { rewrite Hs1, length_app. simpl. lia. }
  assert (Kind (Tok P1) = Close) as HK1 by (rewrite HT1; exact HCl).
  rewrite (skipSingle_opener fuel Stop P Close HO).
  unfold skipSingle_bracket.
  run_with (consumeToken_Done P HOe).
  rewrite (skipUntil_body_loop _ _ _ _ HCu).
  run_with HD1.
  run_with (consumeIf_taken Close P1 HK1 HCe).
  unfold ret. f_equal. f_equal.
  apply lexed_consumedThrough; auto.
  apply frame_trans with (lexed P); [|exact HF1].
  apply frame_lexed. exact HOe.
Qed.

Lemma stopsShort_stops Stop T1 T2 P :
  stopsShort Stop P -> skipUntil_continues T1 T2 Stop (Tok P) = false.
Proof.
  unfold skipUntil_continues, Tok_isNot. intros [H|[HS H]].
  - apply Tok_is_true in H. rewrite H. reflexivity.
  - apply Tok_is_true in H. rewrite H, HS. simpl.
    rewrite !andb_false_r. reflexivity.
Qed.

Lemma skipUntil_loop_runs single Close Stop N :
  skips_unit Stop N single ->
  forall fuel P,
    remaining P <= fuel -> remaining P <= N ->
    noUnknown (stream P) ->
    exists P',
      skipUntil_loop single Close tok.unknown Stop fuel P = Done (tt, P')
      /\ remaining P' <= remaining P
      /\ frame P P'
      /\ noUnknown (stream P')
      /\ ((exists body,
              stream P = body ++ stream P'
              /\ Nested Stop Close body /\ Kind (Tok P') = Close)
          \/ stopsShort Stop P').
Proof.
  intros Hsingle. induction fuel as [|fuel IH]; intros P Hfuel HN Hunk.
  - assert (skipUntil_continues Close tok.unknown Stop (Tok P) = false) as E.
    { destruct (skipUntil_continues Close tok.unknown Stop (Tok P)) eqn:E;
        [|reflexivity].
      apply skipUntil_continues_true in E. destruct E as [E _].
      rewrite (remaining_not_eof P E) in Hfuel. lia. }
    rewrite (skipUntil_loop_stops _ _ _ _ _ _ E).
    exists P. split; [reflexivity|]. split; [lia|].
    split; [apply frame_refl|]. split; [exact Hunk|].
    destruct (skipUntil_continues_false _ _ _ _ E) as [H|[H|[H|H]]].
    + right. left. exact H.
    + left. exists []. split; [reflexivity|]. split; [constructor|exact H].
    + exfalso. inversion Hunk; subst. auto.
    + right. right. exact H.
  - destruct (skipUntil_continues Close tok.unknown Stop (Tok P)) eqn:E.
    + rewrite (skipUntil_loop_S _ _ _ _ _ _ E).
      destruct (Hsingle Close P HN Hunk E)
        as (P1 & H1 & Hlt & HF1 & Hunk1 & Hcase).
      run_with H1.
      destruct Hcase as [(unit & Hs & Hnest)|Hshort].
      * destruct (IH P1) as (P' & H' & Hle & HF' & Hunk' & Hcase');
          [lia|lia|exact Hunk1|].
        exists P'. split; [exact H'|]. split; [lia|].
        split; [apply frame_trans with P1; assumption|].
        split; [exact Hunk'|].
        destruct Hcase' as [(body & Hs' & Hb & HK)|Hshort'];
          [left|right; exact Hshort'].
        exists (unit ++ body). rewrite <- app_assoc, <- Hs', <- Hs.
        auto.
      * rewrite (skipUntil_loop_stops _ _ _ _ _ _
                   (stopsShort_stops Stop Close tok.unknown P1 Hshort)).
        exists P1. split; [reflexivity|]. split; [lia|].
        split; [exact HF1|]. split; [exact Hunk1|]. right. exact Hshort.
    + rewrite (skipUntil_loop_stops _ _ _ _ _ _ E).
      exists P. split; [reflexivity|]. split; [lia|].
      split; [apply frame_refl|]. split; [exact Hunk|].
      destruct (skipUntil_continues_false _ _ _ _ E) as [H|[H|[H|H]]].
      * right. left. exact H.
      * left. exists []. split; [reflexivity|]. split; [constructor|exact H].
      * exfalso. inversion Hunk; subst. auto.
      * right. right. exact H.
Qed.

Lemma skipSingle_bracket_runs single fuel Close Stop :
  skips_unit Stop fuel single ->
  Close <> tok.eof -> Close <> tok.unknown -> Close <> tok.code_complete ->
  forall P,
    Kind (Tok P) <> tok.eof ->
    remaining P <= S fuel ->
    noUnknown (stream P) ->
    exists P',
      skipSingle_bracket single fuel Close Stop P = Done (tt, P')
      /\ remaining P' < remaining P
      /\ frame P P'
      /\ noUnknown (stream P')
      /\ ((exists body Cl after,
              NextTokens (L P) = body ++ Cl :: after
              /\ Nested Stop Close body /\ Kind Cl = Close
              /\ P' = consumedThrough P Cl after)
          \/ stopsShort Stop P').
Proof.
  intros Hsingle HCe HCu HCc P HE Hfuel Hunk.
  pose proof (remaining_lexed_lt P HE) as Hlt.
  pose proof (noUnknown_lexed P Hunk) as Hunk0.
  destruct (skipUntil_loop_runs single Close Stop fuel Hsingle fuel (lexed P))
    as (P1 & H1 & Hle1 & HF1 & Hunk1 & Hcase); [lia|lia|exact Hunk0|].
  unfold skipSingle_bracket.
  run_with (consumeToken_Done P HE).
  rewrite (skipUntil_body_loop _ _ _ _ HCu).
  run_with H1.
  assert (frame P P1) as HF.
  { apply frame_trans with (lexed P); [apply frame_lexed; exact HE|exact HF1]. }
  destruct Hcase as [(body & Hs & Hb & HK)|Hshort].
  - run_with (consumeIf_taken Close P1 HK HCe).
    assert (Kind (Tok P1) <> tok.eof) as HE1 by congruence.
    pose proof (remaining_lexed_lt P1 HE1) as Hlt1.
    exists (lexed P1). split; [reflexivity|]. split; [lia|].
    split; [apply frame_trans with P1;
            [exact HF|apply frame_lexed; exact HE1]|].
    split; [apply noUnknown_lexed; exact Hunk1|].
    destruct (NextTokens (L P)) as [|x r] eqn:EN.
    + (* nothing behind the opener: the loop cannot have found a closer *)
      exfalso. pose proof (lexed_at_end P EN) as Heof.
      assert (stream (lexed P) = [Tok (lexed P)]) as Hone.
      { unfold stream, lexed, lex. rewrite EN. simpl. rewrite EN.
        reflexivity. }
      rewrite Hone in Hs. unfold stream in Hs.
      destruct body as [|b body]; simpl in Hs.
      * injection Hs as Hs _. apply HE1. rewrite <- Hs. exact Heof.
      * injection Hs as _ Hs. destruct body; discriminate.
    + left. rewrite (stream_lexed P x r EN) in Hs.
      exists body, (Tok P1), (NextTokens (L P1)).
      split; [exact Hs|]. split; [exact Hb|]. split; [exact HK|].
      apply lexed_consumedThrough; auto.
  - assert (Kind (Tok P1) <> Close) as HK.
    { destruct Hshort as [H|[_ H]]; rewrite H; auto. }
    run_with (consumeIf_not_taken Close P1 HK).
    exists P1. split; [reflexivity|]. split; [lia|].
    split; [exact HF|]. split; [exact Hunk1|]. right. exact Hshort.
Qed.

Lemma skipSingle_runs Stop :
  forall fuel, skips_unit Stop fuel (skipSingle fuel Stop).
Proof.
  induction fuel as [|fuel IH]; intros Close P Hfuel Hunk E;
    apply skipUntil_continues_true in E;
    destruct E as (HE & HC & HU & HS).
  - rewrite (remaining_not_eof P HE) in Hfuel. lia.
  - destruct (closerOf (Kind (Tok P))) as [Close'|] eqn:EO.
    + destruct (closerOf_Some _ _ EO) as (_ & _ & HCe & HCu & HCc & _).
      rewrite (skipSingle_opener fuel Stop P Close' EO).
      destruct (skipSingle_bracket_runs (skipSingle fuel Stop) fuel Close'
                  Stop IH HCe HCu HCc P HE Hfuel Hunk)
        as (P' & H' & Hlt & HF & Hunk' & Hcase).
      exists P'. split; [exact H'|]. split; [exact Hlt|].
      split; [exact HF|]. split; [exact Hunk'|].
      destruct Hcase as [(body & Cl & after & HN & Hb & HK & HP')|Hshort];
        [|right; exact Hshort].
      destruct after as [|x r].
      * right. left. rewrite HP'. reflexivity.
      * left. exists (Tok P :: body ++ [Cl]). split.
        -- unfold stream at 1. rewrite HN, HP'.
           unfold consumedThrough.
           erewrite stream_lexed by reflexivity.
           simpl. rewrite <- app_assoc. reflexivity.
        -- intros ts Hts. simpl. rewrite <- app_assoc. simpl.
           eapply Nested_group; eauto.
    + rewrite (skipSingle_plain fuel Stop P EO HE HS).
      exists (lexed P). split; [reflexivity|].
      split; [apply remaining_lexed_lt; exact HE|].
      split; [apply frame_lexed; exact HE|].
      split; [apply noUnknown_lexed; exact Hunk|].
      destruct (NextTokens (L P)) as [|x r] eqn:EN.
      * right. left. apply lexed_at_end. exact EN.
      * left. exists [Tok P]. split.
        -- rewrite (stream_lexed P x r EN). unfold stream. rewrite EN.
           reflexivity.
        -- intros ts Hts. simpl. apply Nested_token; auto.
Qed.

(** C4 (as amended): on every token stream that holds no token of kind
    [unknown], [skipSingle] applied on an opening bracket returns (the
    remaining tokens are fuel enough), and
    - either it has consumed the opener, a nested run and the matching
      closer, and nothing more: the tokens behind the opener are
      [body ++ Cl :: after] with [body] nested to any depth, [Cl] the
      closer of the opener, the parser is the one that has consumed
      through [Cl], and the bracket nesting of what was consumed is back
      at zero;
    - or it has stopped short, on [eof] or, when [StopAtCodeComplete] is
      set, on a code-completion token;
    and whenever the tokens behind the opener do start with a nested run
    and the matching closer, it is the first case, with that closer. *)
Theorem skipSingle_bracket_balance
    (fuel : nat) (StopAtCodeComplete : bool) (P : Parser) (Close : tok) :
  closerOf (Kind (Tok P)) = Some Close ->
  remaining P <= fuel ->
  noUnknown (NextTokens (L P)) ->
  exists P',
    skipSingle fuel StopAtCodeComplete P = Done (tt, P')
    /\ ((exists body Cl after,
            NextTokens (L P) = body ++ Cl :: after
            /\ Nested StopAtCodeComplete Close body
            /\ Kind Cl = Close
            /\ P' = consumedThrough P Cl after
            /\ bracketDepth (Tok P :: body ++ [Cl]) = 0)
        \/ stopsShort StopAtCodeComplete P')
    /\ (forall body Cl after,
           NextTokens (L P) = body ++ Cl :: after ->
           Nested StopAtCodeComplete Close body ->
           Kind Cl = Close ->
           P' = consumedThrough P Cl after).
Proof.
  intros HO Hfuel Hunk.
  destruct (closerOf_Some _ _ HO) as (HOe & HOc & HCe & HCu & HCc & HCn).
  assert (noUnknown (stream P)) as Hunk'.
  { constructor; [|exact Hunk]. intros H. rewrite H in HO. discriminate. }
  destruct fuel as [|fuel].
  { rewrite (remaining_not_eof P HOe) in Hfuel. lia. }
  destruct (skipSingle_bracket_runs (skipSingle fuel StopAtCodeComplete) fuel
              Close StopAtCodeComplete (skipSingle_runs StopAtCodeComplete fuel)
              HCe HCu HCc P HOe Hfuel Hunk')
    as (P' & H' & _ & _ & _ & Hcase).
  rewrite <- (skipSingle_opener fuel StopAtCodeComplete P Close HO) in H'.
  exists P'. split; [exact H'|]. split.
  - destruct Hcase as [(body & Cl & after & HN & Hb & HK & HP')|Hshort];
      [left|right; exact Hshort].
    exists body, Cl, after. repeat split; auto.
    eapply Nested_group_depth; eauto.
  - intros body Cl after HN Hb HK.
    assert (noUnknown body) as Hub.
    { unfold noUnknown in *. rewrite HN in Hunk.
      apply Forall_app in Hunk. tauto. }
    pose proof (skipSingle_consumes_group (S fuel) StopAtCodeComplete P Close
                  body Cl after HO HN Hb HK Hub Hfuel) as HA.
    rewrite H' in HA. injection HA as HA. exact HA.
Qed.

Lemma skipSingle_bracket_balance_witness :
  exists P',
    skipSingle 8 false sampleNested = Done (tt, P')
    /\ Tok P' = tokenAt tok.identifier 8
    /\ PreviousLoc P' = 7%Z.
Proof.
  destruct (skipSingle_bracket_balance 8 false sampleNested tok.r_paren)
    as (P' & HD & _ & Hthrough).
  - reflexivity.
  - vm_compute. lia.
  - repeat constructor; discriminate.
  - exists P'. split; [exact HD|].
    rewrite (Hthrough
               [tokenAt tok.l_square 2; tokenAt tok.identifier 3;
                tokenAt tok.r_square 4; tokenAt tok.l_brace 5;
                tokenAt tok.r_brace 6]
               (tokenAt tok.r_paren 7) [tokenAt tok.identifier 8]).
    + split; reflexivity.
    + reflexivity.
    + apply (Nested_group false tok.r_paren (tokenAt tok.l_square 2)
               tok.r_square [tokenAt tok.identifier 3]
               (tokenAt tok.r_square 4)
               [tokenAt tok.l_brace 5; tokenAt tok.r_brace 6]);
        try reflexivity; try discriminate.
      * apply Nested_token; try reflexivity; try discriminate.
        apply Nested_nil.
      * apply (Nested_group false tok.r_paren (tokenAt tok.l_brace 5)
                 tok.r_brace [] (tokenAt tok.r_brace 6) []);
          try reflexivity; try discriminate; apply Nested_nil.
    + reflexivity.
Defined.

(** C4, the claim as stated fails: with [StopAtCodeComplete] set,
    [skipSingle] on the opening parenthesis of [( <code-completion> ) y]
    consumes the opener only and returns on the code-completion token;
    the closer is still ahead and [eof] has not been reached. *)
Lemma skipSingle_code_complete_counterexample :
  exists P',
    skipSingle 4 true sampleCompletion = Done (tt, P')
    /\ Tok P' = tokenAt tok.code_complete 2
    /\ NextTokens (L P') = [tokenAt tok.r_paren 3; tokenAt tok.identifier 4]
    /\ Kind (Tok P') <> tok.eof
    /\ bracketDepth [tokenAt tok.l_paren 1] = 1.
Proof.
  eexists. split; [vm_compute; reflexivity|].
  repeat split. discriminate.
Qed.

(** ** String segments *)

Lemma unsigned_small z : (0 <= z < 2 ^ 32)%Z -> unsigned z = z.
Proof. intros H. unfold unsigned. apply Z.mod_small. exact H. Qed.

Lemma literalSegmentToken_quoted isFirst isLast Seg :
  segmentFits Seg ->
  literalSegmentToken isFirst isLast Seg = quotedSegmentToken isFirst isLast Seg.
Proof.
  intros [H0 H2]. unfold literalSegmentToken, quotedSegmentToken, getAdvancedLoc.
  destruct isFirst, isLast; f_equal; f_equal;
    rewrite ?unsigned_small; rewrite ?unsigned_small; lia.
Qed.

Section StringSegments.

Variable getStringLiteralSegments : Token -> list StringSegment.
Variable TokenizeInterpolatedString_default : bool.
Variable tokenize : Z -> Z -> Z -> bool -> bool -> Res (list Token).
Variables (SM : SourceManager) (BufID : Z).

Hypothesis tokenize_returns :
  forall Offset EndOffset KeepComments Interpolated,
  exists Tokens,
    tokenize BufID Offset EndOffset KeepComments Interpolated = Done Tokens.

Lemma getStringPartTokens_loop_sound Segments :
  (Z.of_nat (List.length Segments) < 2 ^ 32)%Z ->
  Forall (fun Seg => SegKind Seg = Literal -> segmentFits Seg) Segments ->
  forall k i Toks,
    i + k = List.length Segments ->
    exists parts,
      List.length parts = k
      /\ getStringPartTokens_loop TokenizeInterpolatedString_default tokenize
           SM BufID Segments k (Z.of_nat i)
           (Z.of_nat (List.length Segments)) Toks
         = Done (Toks ++ List.concat parts)
      /\ forall j Seg,
           nth_error Segments (i + j) = Some Seg ->
           exists part,
             nth_error parts j = Some part
             /\ segmentTokens TokenizeInterpolatedString_default tokenize SM
                  BufID (List.length Segments) (i + j) Seg = Done part.
Proof.
  intros Hsize Hfit.
  induction k as [|k IH]; intros i Toks Hik.
  - exists []. split; [reflexivity|]. split.
    + simpl. replace i with (List.length Segments) by lia.
      rewrite Z.eqb_refl, app_nil_r. reflexivity.
    + intros j Seg Hnth. exfalso.
      assert (nth_error Segments (i + j) <> None) as Hne by congruence.
      apply nth_error_Some in Hne. lia.
  - assert (i < List.length Segments) as Hi by lia.
    destruct (nth_error Segments i) as [Seg|] eqn:ESeg;
      [|apply nth_error_None in ESeg; lia].
    assert ((Z.of_nat i =? Z.of_nat (List.length Segments))%Z = false) as E1.
    { apply Z.eqb_neq. lia. }
    assert ((Z.of_nat i =? 0)%Z = (i =? 0)) as EF.
    { destruct i; reflexivity. }
    assert ((Z.of_nat i =? unsigned (Z.of_nat (List.length Segments) - 1))%Z
            = (i =? List.length Segments - 1)) as EL.
    { rewrite unsigned_small by lia.
      destruct (Nat.eqb_spec i (List.length Segments - 1)) as [H|H].
      - apply Z.eqb_eq. lia.
      - apply Z.eqb_neq. lia. }
    assert (unsigned (Z.of_nat i + 1) = Z.of_nat (S i)) as EN.
    { rewrite unsigned_small by lia. lia. }
    assert (exists part,
               segmentTokens TokenizeInterpolatedString_default tokenize SM
                 BufID (List.length Segments) i Seg = Done part
               /\ match SegKind Seg with
                  | Literal =>
                      Done (Toks ++ [literalSegmentToken
                                       (Z.of_nat i =? 0)%Z
                                       (Z.of_nat i =? unsigned
                                          (Z.of_nat (List.length Segments) - 1))%Z
                                       Seg])
                  | Expr =>
                      Res_bind
                        (tokenize BufID
                           (unsigned (getLocOffsetInBuffer SM (SegLoc Seg) BufID))
                           (unsigned
                              (unsigned (getLocOffsetInBuffer SM (SegLoc Seg) BufID)
                               + SegLength Seg))
                           true TokenizeInterpolatedString_default)
                        (fun NewTokens => Done (Toks ++ NewTokens))
                  end = Done (Toks ++ part))
      as (part & Hpart & Hstep).
    { unfold segmentTokens. destruct (SegKind Seg) eqn:EK.
      - eexists. split; [reflexivity|]. rewrite EF, EL.
        rewrite literalSegmentToken_quoted; [reflexivity|].
        rewrite Forall_forall in Hfit. apply Hfit; [|exact EK].
        eapply nth_error_In. exact ESeg.
      - destruct (tokenize_returns
                    (unsigned (getLocOffsetInBuffer SM (SegLoc Seg) BufID))
                    (unsigned
                       (unsigned (getLocOffsetInBuffer SM (SegLoc Seg) BufID)
                        + SegLength Seg))
                    true TokenizeInterpolatedString_default) as (ts & Hts).
        exists ts. rewrite Hts. split; reflexivity. }
    destruct (IH (S i) (Toks ++ part)) as (parts & Hlen & Hloop & Hparts);
      [lia|].
    exists (part :: parts). split; [simpl; lia|]. split.
    + simpl. rewrite E1. rewrite Nat2Z.id, ESeg.
      rewrite Hstep. simpl. rewrite EN, Hloop.
      rewrite <- app_assoc. reflexivity.
    + intros [|j] Seg' Hnth.
      * rewrite Nat.add_0_r in *. rewrite ESeg in Hnth.
        injection Hnth as <-. exists part. split; [reflexivity|exact Hpart].
      * replace (i + S j) with (S i + j) in * by lia.
        destruct (Hparts j Seg' Hnth) as (part' & H1 & H2).
        exists part'. split; [exact H1|exact H2].
Qed.

End StringSegments.

(** C7: when [getStringPartTokens] splits a string-literal token whose
    segments, quotes included, fit [unsigned], and the nested [tokenize]
    returns, it appends to the vector one group of tokens per segment, in
    order, and the group of every literal segment is one synthesized
    [string_literal] token: its range is the segment's, starting one
    character earlier and one longer when the segment is the first, and
    one longer when it is the last; a segment that is both gets both. *)
Theorem getStringPartTokens_literal_segments
    (getStringLiteralSegments : Token -> list StringSegment)
    (TokenizeInterpolatedString_default : bool)
    (tokenize : Z -> Z -> Z -> bool -> bool -> Res (list Token))
    (SM : SourceManager) (BufID : Z) (T : Token) (Toks : list Token) :
  Kind T = tok.string_literal ->
  (Z.of_nat (List.length (getStringLiteralSegments T)) < 2 ^ 32)%Z ->
  Forall (fun Seg => SegKind Seg = Literal -> segmentFits Seg)
         (getStringLiteralSegments T) ->
  (forall Offset EndOffset KeepComments Interpolated,
      exists Tokens,
        tokenize BufID Offset EndOffset KeepComments Interpolated
        = Done Tokens) ->
  exists parts,
    List.length parts = List.length (getStringLiteralSegments T)
    /\ getStringPartTokens getStringLiteralSegments
         TokenizeInterpolatedString_default tokenize T SM BufID Toks
       = Done (Toks ++ List.concat parts)
    /\ (forall i Seg,
           nth_error (getStringLiteralSegments T) i = Some Seg ->
           exists part,
             nth_error parts i = Some part
             /\ segmentTokens TokenizeInterpolatedString_default tokenize SM
                  BufID (List.length (getStringLiteralSegments T)) i Seg
                = Done part)
    /\ (forall i Seg,
           nth_error (getStringLiteralSegments T) i = Some Seg ->
           SegKind Seg = Literal ->
           nth_error parts i
           = Some [quotedSegmentToken
                     (i =? 0)
                     (i =? List.length (getStringLiteralSegments T) - 1)
                     Seg]).
Proof.
  intros HK Hsize Hfit Hrec.
  destruct (getStringPartTokens_loop_sound TokenizeInterpolatedString_default
              tokenize SM BufID Hrec (getStringLiteralSegments T) Hsize Hfit
              (List.length (getStringLiteralSegments T)) 0 Toks eq_refl)
    as (parts & Hlen & Hloop & Hparts).
  exists parts. split; [exact Hlen|]. split; [|split].
  - unfold getStringPartTokens. apply Tok_is_true in HK. rewrite HK.
    rewrite unsigned_small by lia. rewrite Nat2Z.id. exact Hloop.
  - intros i Seg Hnth. apply (Hparts i Seg Hnth).
  - intros i Seg Hnth HL.
    destruct (Hparts i Seg Hnth) as (part & H1 & H2).
    simpl in H2. unfold segmentTokens in H2. rewrite HL in H2.
    injection H2 as <-. exact H1.
Qed.

Lemma getStringPartTokens_literal_segments_witness :
  exists parts,
    getStringPartTokens sampleSegments true sampleTokenize
      (mkToken tok.string_literal (mkStringRef 0 8)) sampleSM 0 []
    = Done ([] ++ List.concat parts)
    /\ nth_error parts 0
       = Some [mkToken tok.string_literal (mkStringRef 0 2)]
    /\ nth_error parts 2
       = Some [mkToken tok.string_literal (mkStringRef 6 2)].
Proof.
  destruct (getStringPartTokens_literal_segments sampleSegments true
              sampleTokenize sampleSM 0
              (mkToken tok.string_literal (mkStringRef 0 8)) [])
    as (parts & _ & HD & _ & Hlit).
  - reflexivity.
  - vm_compute. reflexivity.
  - repeat constructor; simpl; lia.
  - intros. eexists. reflexivity.
  - exists parts. split; [exact HD|]. split.
    + apply (Hlit 0 (mkStringSegment Literal 1 1)); reflexivity.
    + apply (Hlit 2 (mkStringSegment Literal 6 1)); reflexivity.
Defined.

(** ** The tokenizer *)

Lemma back_snoc {A} (v : list A) (x : A) : back (v ++ [x]) = Some x.
Proof. unfold back. rewrite rev_app_distr. reflexivity. Qed.

Lemma back_In {A} (v : list A) (x : A) : back v = Some x -> In x v.
Proof.
  unfold back. intros H. apply in_rev.
  destruct (rev v) as [|y r]; [discriminate|].
  injection H as ->. left. reflexivity.
Qed.

Section TokenizeProperties.

Variable Lexer_new : SourceManager -> Z -> bool -> Z -> Z -> Lexer.
Variable getStringLiteralSegments : Token -> list StringSegment.
Variable TokenizeInterpolatedString_default : bool.

Lemma getStringPartTokens_loop_notEof rec SM BufID Segments :
  (forall B O E K I Tokens, rec B O E K I = Done Tokens -> Forall notEof Tokens) ->
  forall fuel i e Toks out,
    Forall notEof Toks ->
    getStringPartTokens_loop TokenizeInterpolatedString_default rec SM BufID
      Segments fuel i e Toks = Done out ->
    Forall notEof out.
Proof.
  intros Hrec. induction fuel as [|fuel IH]; intros i e Toks out HT; simpl.
  - destruct (i =? e)%Z; [|discriminate].
    intros H. injection H as <-. exact HT.
  - destruct (i =? e)%Z.
    { intros H. injection H as <-. exact HT. }
    destruct (nth_error Segments (Z.to_nat i)) as [Seg|]; [|discriminate].
    destruct (SegKind Seg).
    + simpl. apply IH. apply Forall_app. split; [exact HT|].
      constructor; [|constructor]. unfold notEof, literalSegmentToken.
      simpl. discriminate.
    + destruct (rec BufID
                  (unsigned (getLocOffsetInBuffer SM (SegLoc Seg) BufID))
                  (unsigned
                     (unsigned (getLocOffsetInBuffer SM (SegLoc Seg) BufID)
                      + SegLength Seg))
                  true TokenizeInterpolatedString_default)
        as [NewTokens| | |] eqn:ER; simpl; try discriminate.
      apply IH. apply Forall_app. split; [exact HT|].
      eapply Hrec. exact ER.
Qed.

Lemma tokenize_loop_notEof rec SM BufferID Interpolated :
  (forall B O E K I Tokens, rec B O E K I = Done Tokens -> Forall notEof Tokens) ->
  forall fuel Lx Tokens out,
    Forall notEof Tokens ->
    tokenize_loop getStringLiteralSegments TokenizeInterpolatedString_default
      rec SM BufferID Interpolated fuel Lx Tokens = Done out ->
    Forall notEof (removelast out).
Proof.
  intros Hrec. induction fuel as [|fuel IH]; intros Lx Tokens out HT; simpl;
    [discriminate|].
  destruct (lex Lx) as [T Lx'].
  destruct (Tok_is T tok.string_literal && Interpolated).
  - unfold getStringPartTokens.
    destruct (Tok_is T tok.string_literal); [|discriminate].
    destruct (getStringPartTokens_loop _ _ _ _ _ _ _ _ _) as [Tokens'| | |]
      eqn:EP; simpl; try discriminate.
    pose proof (getStringPartTokens_loop_notEof rec SM BufferID _ Hrec
                  _ _ _ _ _ HT EP) as HT'.
    destruct (back Tokens') as [B|] eqn:EB; [|discriminate].
    assert (Tok_isNot B tok.eof = true) as HB.
    { apply Tok_isNot_true. rewrite Forall_forall in HT'.
      apply HT'. apply back_In. exact EB. }
    rewrite HB. apply IH. exact HT'.
  - simpl. rewrite back_snoc.
    destruct (Tok_isNot T tok.eof) eqn:ET.
    + apply IH. apply Forall_app. split; [exact HT|].
      constructor; [|constructor]. apply Tok_isNot_true. exact ET.
    + intros H. injection H as <-. rewrite removelast_last. exact HT.
Qed.

Lemma tokenize_S fuel SM BufferID Offset EndOffset KeepComments Interpolated :
  tokenize Lexer_new getStringLiteralSegments
    TokenizeInterpolatedString_default (S fuel) SM BufferID Offset EndOffset
    KeepComments Interpolated
  = Res_bind
      (tokenize_loop getStringLiteralSegments
         TokenizeInterpolatedString_default
         (tokenize Lexer_new getStringLiteralSegments
            TokenizeInterpolatedString_default fuel SM)
         SM BufferID Interpolated (S fuel)
         (Lexer_new SM BufferID KeepComments Offset
            (effectiveEndOffset SM BufferID Offset EndOffset))
         [])
      (fun Tokens => Done (removelast Tokens)).
Proof. reflexivity. Qed.

Lemma tokenize_notEof :
  forall fuel SM BufferID Offset EndOffset KeepComments Interpolated Tokens,
    tokenize Lexer_new getStringLiteralSegments
      TokenizeInterpolatedString_default fuel SM BufferID Offset EndOffset
      KeepComments Interpolated = Done Tokens ->
    Forall notEof Tokens.
Proof.
  induction fuel as [|fuel IH];
    intros SM BufferID Offset EndOffset KeepComments Interpolated Tokens;
    [discriminate|].
  rewrite tokenize_S.
  match goal with
  | |- Res_bind ?l _ = _ -> _ => destruct l as [out| | |] eqn:EL
  end; simpl; try discriminate.
  intros H. injection H as <-.
  eapply tokenize_loop_notEof; [|constructor|exact EL].
  intros B O E K I Tokens'. apply IH.
Qed.

Lemma tokenize_loop_plain_returns rec SM BufferID :
  forall fuel Lx Tokens,
    List.length (NextTokens Lx) < fuel ->
    exists out,
      tokenize_loop getStringLiteralSegments
        TokenizeInterpolatedString_default rec SM BufferID false fuel Lx
        Tokens = Done out.
Proof.
  induction fuel as [|fuel IH]; intros Lx Tokens Hfuel; [lia|].
  simpl. unfold lex. destruct (NextTokens Lx) as [|T rest] eqn:EN.
  - rewrite andb_false_r. simpl. rewrite back_snoc.
    unfold Tok_isNot, Tok_is. simpl. eexists. reflexivity.
  - rewrite andb_false_r. simpl. rewrite back_snoc.
    destruct (Tok_isNot T tok.eof); [|eexists; reflexivity].
    apply IH. simpl in *. lia.
Qed.

End TokenizeProperties.

Section TokenizeExact.

Variable getStringLiteralSegments : Token -> list StringSegment.
Variable TokenizeInterpolatedString_default : bool.
Variable rec : Z -> Z -> Z -> bool -> bool -> Res (list Token).
Variables (SM : SourceManager) (BufferID : Z) (Interpolated : bool).

Hypothesis rec_notEof :
  forall B O E K I Tokens, rec B O E K I = Done Tokens -> Forall notEof Tokens.

(** [getStringPartTokens] only appends to the vector it is given. *)
Lemma getStringPartTokens_loop_append Segments :
  forall fuel i e Toks,
    getStringPartTokens_loop TokenizeInterpolatedString_default rec SM
      BufferID Segments fuel i e Toks
    = Res_bind
        (getStringPartTokens_loop TokenizeInterpolatedString_default rec SM
           BufferID Segments fuel i e [])
        (fun parts => Done (Toks ++ parts)).
Proof.
  induction fuel as [|fuel IH]; intros i e Toks; simpl.
  - destruct (i =? e)%Z; simpl; [rewrite app_nil_r|]; reflexivity.
  - destruct (i =? e)%Z; simpl; [rewrite app_nil_r; reflexivity|].
    destruct (nth_error Segments (Z.to_nat i)) as [Seg|]; [|reflexivity].
    destruct (SegKind Seg); simpl.
    + rewrite IH. rewrite (IH _ _ [_]).
      destruct (getStringPartTokens_loop _ _ _ _ _ _ _ _ []); simpl;
        try reflexivity.
      rewrite <- app_assoc. reflexivity.
    + destruct (rec _ _ _ _ _) as [NewTokens| | |]; simpl; try reflexivity.
      rewrite IH. rewrite (IH _ _ NewTokens).
      destruct (getStringPartTokens_loop _ _ _ _ _ _ _ _ []); simpl;
        try reflexivity.
      rewrite <- app_assoc. reflexivity.
Qed.

Lemma getStringPartTokens_append T Toks parts :
  getStringPartTokens getStringLiteralSegments
    TokenizeInterpolatedString_default rec T SM BufferID [] = Done parts ->
  getStringPartTokens getStringLiteralSegments
    TokenizeInterpolatedString_default rec T SM BufferID Toks
  = Done (Toks ++ parts)
  /\ Forall notEof parts.
Proof.
  unfold getStringPartTokens.
  destruct (Tok_is T tok.string_literal); [|discriminate].
  intros H. split.
  - rewrite getStringPartTokens_loop_append, H. reflexivity.
  - eapply (getStringPartTokens_loop_notEof TokenizeInterpolatedString_default
              rec SM BufferID _ rec_notEof); [constructor|exact H].
Qed.

Lemma back_app_nonempty {A} (v w : list A) :
  w <> [] -> exists x, back (v ++ w) = Some x /\ In x w.
Proof.
  intros Hw. destruct (exists_last Hw) as (w' & x & ->).
  exists x. rewrite app_assoc, back_snoc. split; [reflexivity|].
  apply in_or_app. right. left. reflexivity.
Qed.

Lemma tokenize_loop_exact (parts : Token -> list Token) :
  forall fuel Lx Tokens,
    (Interpolated = true ->
     forall T, In T (beforeEof (NextTokens Lx)) ->
       Kind T = tok.string_literal ->
       getStringPartTokens getStringLiteralSegments
         TokenizeInterpolatedString_default rec T SM BufferID []
       = Done (parts T)
       /\ parts T <> []) ->
    List.length (NextTokens Lx) < fuel ->
    exists E,
      tokenize_loop getStringLiteralSegments
        TokenizeInterpolatedString_default rec SM BufferID Interpolated fuel
        Lx Tokens
      = Done ((Tokens
               ++ List.concat (map (expandToken Interpolated parts)
                                   (beforeEof (NextTokens Lx))))
              ++ [E]).
Proof.
  induction fuel as [|fuel IH]; intros Lx Tokens Hparts Hfuel; [lia|].
  simpl tokenize_loop. unfold lex.
  destruct (NextTokens Lx) as [|T rest] eqn:EN.
  - assert (Tok_is (setToken tok.eof (EofText Lx)) tok.string_literal = false)
      as ES by reflexivity.
    rewrite ES. simpl. rewrite back_snoc.
    exists (setToken tok.eof (EofText Lx)). rewrite app_nil_r. reflexivity.
  - destruct (Tok_is T tok.string_literal && Interpolated) eqn:ES.
    + apply andb_true_iff in ES. destruct ES as [EK EI].
      apply Tok_is_true in EK.
      assert (Tok_isNot T tok.eof = true) as ET
          by (apply Tok_isNot_true; rewrite EK; discriminate).
      simpl beforeEof in *. rewrite ET in *.
      destruct (Hparts EI T (or_introl eq_refl) EK) as [HP Hne].
      destruct (getStringPartTokens_append T Tokens (parts T) HP)
        as [HA HnotEof].
      rewrite HA. simpl Res_bind.
      destruct (back_app_nonempty Tokens (parts T) Hne) as (B & HB & HIn).
      rewrite HB.
      assert (Tok_isNot B tok.eof = true) as HBe.
      { apply Tok_isNot_true. rewrite Forall_forall in HnotEof.
        apply HnotEof, HIn. }
      rewrite HBe.
      destruct (IH (mkLexer rest (EofText Lx)) (Tokens ++ parts T))
        as (E & HE).
      * intros HI T' HIn' HK'. apply (Hparts HI T'); [right; exact HIn'|exact HK'].
      * simpl in *. lia.
      * exists E. rewrite HE. simpl. unfold expandToken at 2.
        apply Tok_is_true in EK. rewrite EK, EI. simpl.
        rewrite <- !app_assoc. reflexivity.
    + simpl Res_bind. rewrite back_snoc.
      simpl beforeEof in *.
      destruct (Tok_isNot T tok.eof) eqn:ET.
      * destruct (IH (mkLexer rest (EofText Lx)) (Tokens ++ [T]))
          as (E & HE).
        -- intros HI T' HIn' HK'.
           apply (Hparts HI T'); [right; exact HIn'|exact HK'].
        -- simpl in *. lia.
        -- exists E. rewrite HE. simpl. unfold expandToken at 2.
           rewrite ES. simpl. rewrite <- !app_assoc. reflexivity.
      * exists T. simpl. rewrite app_nil_r. reflexivity.
Qed.

End TokenizeExact.

(** C8: what [tokenize] returns, for every buffer and every call.
    - Called with both offsets zero it tokenizes the whole buffer: it
      returns the tokens that the lexer built over the range from 0 to
      the size of the buffer (as the [unsigned] end offset holds it)
      hands out before its [eof] token, all of them and in their order,
      a string literal being replaced by the tokens
      [getStringPartTokens] splits it into when
      [TokenizeInterpolatedString] is set.  It does return them, for any
      fuel beyond the number of tokens in the range, when string
      literals are not split, and, when they are, when the split of each
      of them returns, with at least one token (line 205 reads [back()]
      of the vector after the split).
    - When the size fits the [unsigned] end offset, that call is the
      call with the end offset set to the buffer's size.
    - Called with other offsets it returns in the same way the tokens of
      the range they give.
    - The token sequence any call returns holds no [eof] token. *)
Theorem tokenize_whole_buffer_without_eof
    (Lexer_new : SourceManager -> Z -> bool -> Z -> Z -> Lexer)
    (getStringLiteralSegments : Token -> list StringSegment)
    (TokenizeInterpolatedString_default : bool)
    (SM : SourceManager) (BufferID : Z) :
  (forall fuel KeepComments Interpolated (parts : Token -> list Token),
      List.length
        (NextTokens
           (Lexer_new SM BufferID KeepComments 0%Z
              (unsigned (getBufferSize SM BufferID)))) <= fuel ->
      (Interpolated = true ->
       forall T,
         In T (beforeEof
                 (NextTokens
                    (Lexer_new SM BufferID KeepComments 0%Z
                       (unsigned (getBufferSize SM BufferID))))) ->
         Kind T = tok.string_literal ->
         getStringPartTokens getStringLiteralSegments
           TokenizeInterpolatedString_default
           (tokenize Lexer_new getStringLiteralSegments
              TokenizeInterpolatedString_default fuel SM)
           T SM BufferID [] = Done (parts T)
         /\ parts T <> []) ->
      tokenize Lexer_new getStringLiteralSegments
        TokenizeInterpolatedString_default (S fuel) SM BufferID 0 0
        KeepComments Interpolated
      = Done (List.concat
                (map (expandToken Interpolated parts)
                     (beforeEof
                        (NextTokens
                           (Lexer_new SM BufferID KeepComments 0%Z
                              (unsigned (getBufferSize SM BufferID))))))))
  /\ (forall fuel KeepComments Interpolated,
         (0 <= getBufferSize SM BufferID < 2 ^ 32)%Z ->
         tokenize Lexer_new getStringLiteralSegments
           TokenizeInterpolatedString_default fuel SM BufferID 0 0
           KeepComments Interpolated
         = tokenize Lexer_new getStringLiteralSegments
             TokenizeInterpolatedString_default fuel SM BufferID 0
             (getBufferSize SM BufferID) KeepComments Interpolated)
  /\ (forall fuel Offset EndOffset KeepComments Interpolated
             (parts : Token -> list Token),
         (Offset =? 0)%Z && (EndOffset =? 0)%Z = false ->
         List.length
           (NextTokens
              (Lexer_new SM BufferID KeepComments Offset EndOffset))
         <= fuel ->
         (Interpolated = true ->
          forall T,
            In T (beforeEof
                    (NextTokens
                       (Lexer_new SM BufferID KeepComments Offset
                          EndOffset))) ->
            Kind T = tok.string_literal ->
            getStringPartTokens getStringLiteralSegments
              TokenizeInterpolatedString_default
              (tokenize Lexer_new getStringLiteralSegments
                 TokenizeInterpolatedString_default fuel SM)
              T SM BufferID [] = Done (parts T)
            /\ parts T <> []) ->
         tokenize Lexer_new getStringLiteralSegments
           TokenizeInterpolatedString_default (S fuel) SM BufferID Offset
           EndOffset KeepComments Interpolated
         = Done (List.concat
                   (map (expandToken Interpolated parts)
                        (beforeEof
                           (NextTokens
                              (Lexer_new SM BufferID KeepComments Offset
                                 EndOffset))))))
  /\ (forall fuel Offset EndOffset KeepComments Interpolated Tokens,
         tokenize Lexer_new getStringLiteralSegments
           TokenizeInterpolatedString_default fuel SM BufferID Offset
           EndOffset KeepComments Interpolated = Done Tokens ->
         Forall (fun T => Kind T <> tok.eof) Tokens).
Proof.
  assert (forall fuel Offset EndOffset KeepComments Interpolated
                 (parts : Token -> list Token),
             List.length
               (NextTokens
                  (Lexer_new SM BufferID KeepComments Offset
                     (effectiveEndOffset SM BufferID Offset EndOffset)))
             <= fuel ->
             (Interpolated = true ->
              forall T,
                In T (beforeEof
                        (NextTokens
                           (Lexer_new SM BufferID KeepComments Offset
                              (effectiveEndOffset SM BufferID Offset
                                 EndOffset)))) ->
                Kind T = tok.string_literal ->
                getStringPartTokens getStringLiteralSegments
                  TokenizeInterpolatedString_default
                  (tokenize Lexer_new getStringLiteralSegments
                     TokenizeInterpolatedString_default fuel SM)
                  T SM BufferID [] = Done (parts T)
                /\ parts T <> []) ->
             tokenize Lexer_new getStringLiteralSegments
               TokenizeInterpolatedString_default (S fuel) SM BufferID Offset
               EndOffset KeepComments Interpolated
             = Done (List.concat
                       (map (expandToken Interpolated parts)
                            (beforeEof
                               (NextTokens
                                  (Lexer_new SM BufferID KeepComments Offset
                                     (effectiveEndOffset SM BufferID Offset
                                        EndOffset))))))) as Hexact.
  { intros fuel Offset EndOffset KeepComments Interpolated parts Hfuel Hparts.
    rewrite tokenize_S.
    destruct (tokenize_loop_exact getStringLiteralSegments
                TokenizeInterpolatedString_default
                (tokenize Lexer_new getStringLiteralSegments
                   TokenizeInterpolatedString_default fuel SM)
                SM BufferID Interpolated
                (fun B O E K I Tokens =>
                   tokenize_notEof Lexer_new getStringLiteralSegments
                     TokenizeInterpolatedString_default fuel SM B O E K I
                     Tokens)
                parts (S fuel) _ [] Hparts) as (E & HE); [lia|].
    rewrite HE. simpl. rewrite removelast_last. reflexivity. }
  split; [|split; [|split]].
  - intros fuel KeepComments Interpolated parts Hfuel Hparts.
    apply (Hexact fuel 0%Z 0%Z KeepComments Interpolated parts Hfuel Hparts).
  - intros fuel KeepComments Interpolated Hsize.
    destruct fuel as [|fuel]; [reflexivity|]. rewrite !tokenize_S.
    assert (effectiveEndOffset SM BufferID 0 0
            = effectiveEndOffset SM BufferID 0 (getBufferSize SM BufferID))
      as E.
    { unfold effectiveEndOffset. simpl.
      rewrite (unsigned_small _ Hsize).
      destruct (getBufferSize SM BufferID =? 0)%Z; reflexivity. }
    rewrite E. reflexivity.
  - intros fuel Offset EndOffset KeepComments Interpolated parts Hnz
      Hfuel Hparts.
    pose proof (Hexact fuel Offset EndOffset KeepComments Interpolated parts)
      as H.
    unfold effectiveEndOffset in H. rewrite Hnz in H.
    apply H; assumption.
  - intros fuel Offset EndOffset KeepComments Interpolated Tokens H.
    apply (tokenize_notEof _ _ _ _ _ _ _ _ _ _ _ H).
Qed.

Lemma tokenize_whole_buffer_without_eof_witness :
  tokenize sampleInterpolatedLexer sampleSegments true 4 sampleSM 0 0 0 false
    true
  = Done [mkToken tok.string_literal (mkStringRef 0 2);
          tokenAt tok.identifier 4;
          mkToken tok.string_literal (mkStringRef 6 2);
          tokenAt tok.comma 9; tokenAt tok.identifier 11]
  /\ Forall (fun T => Kind T <> tok.eof)
            [mkToken tok.string_literal (mkStringRef 0 2);
             tokenAt tok.identifier 4;
             mkToken tok.string_literal (mkStringRef 6 2);
             tokenAt tok.comma 9; tokenAt tok.identifier 11]
  /\ tokenize sampleLexer sampleSegments true 3 sampleSM 0 0 0 true false
     = Done [tokenAt tok.identifier 0; tokenAt tok.comma 1].
Proof.
  destruct (tokenize_whole_buffer_without_eof sampleInterpolatedLexer
              sampleSegments true sampleSM 0) as (Hwhole & _ & _ & Hnoeof).
  destruct (tokenize_whole_buffer_without_eof sampleLexer sampleSegments true
              sampleSM 0) as (Hplain & _).
  assert (tokenize sampleInterpolatedLexer sampleSegments true 4 sampleSM 0 0
            0 false true
          = Done [mkToken tok.string_literal (mkStringRef 0 2);
                  tokenAt tok.identifier 4;
                  mkToken tok.string_literal (mkStringRef 6 2);
                  tokenAt tok.comma 9; tokenAt tok.identifier 11]) as HD.
  { rewrite (Hwhole 3 false true sampleParts).
    - reflexivity.
    - simpl. lia.
    - intros _ T HIn HK. simpl in HIn.
      destruct HIn as [<-|[<-|[<-|[]]]]; try discriminate.
      split; [reflexivity|discriminate]. }
  split; [exact HD|]. split; [exact (Hnoeof _ _ _ _ _ _ HD)|].
  rewrite (Hplain 2 true false sampleParts).
  - reflexivity.
  - simpl. lia.
  - discriminate.
Defined.

(** ** Parser construction *)

(** C10: constructing a [Parser] always takes the saved position out of
    the persistent parser state it works on, the caller's or, for a null
    pointer, a fresh one: afterwards that state holds no saved position
    (and the same pending declaration as before), whether or not the
    position's buffer is the parser's.  A position in the parser's buffer
    seeds the parser: it starts from that position restored.  A position
    in another buffer is dropped: the parser starts unprimed at the
    beginning of its buffer, as it does when there was no position. *)
Theorem Parser_new_takes_position
    (Lexer_ofBuffer : SourceManager -> Z -> bool -> bool -> Lexer)
    (BufferID : Z) (Context : ASTContext) (SIL : bool)
    (PersistentState : option PersistentParserState.t) :
  let State :=
    match PersistentState with
    | Some TheState => TheState
    | None => PersistentParserState.fresh
    end in
  let P := fst (Parser_new Lexer_ofBuffer BufferID Context SIL PersistentState) in
  let State' :=
    snd (Parser_new Lexer_ofBuffer BufferID Context SIL PersistentState) in
  PersistentParserState.MarkedPos State' = None
  /\ PersistentParserState.DelayedDeclLoc State'
     = PersistentParserState.DelayedDeclLoc State
  /\ (forall Pos,
         PersistentParserState.MarkedPos State = Some Pos ->
         FindBufferContainingLoc (ASTContext_SourceMgr Context)
           (PersistentParserState.Loc Pos) = int_of_unsigned BufferID ->
         P = restoreParserPosition
               (getParserPosition
                  (unprimed Lexer_ofBuffer BufferID Context SIL) Pos)
               (unprimed Lexer_ofBuffer BufferID Context SIL))
  /\ (forall Pos,
         PersistentParserState.MarkedPos State = Some Pos ->
         FindBufferContainingLoc (ASTContext_SourceMgr Context)
           (PersistentParserState.Loc Pos) <> int_of_unsigned BufferID ->
         P = unprimed Lexer_ofBuffer BufferID Context SIL)
  /\ (PersistentParserState.MarkedPos State = None ->
      P = unprimed Lexer_ofBuffer BufferID Context SIL).
Proof.
  intros State. unfold Parser_new, PersistentParserState.takeParserPosition.
  fold State.
  destruct (PersistentParserState.MarkedPos State) as [Pos|] eqn:EM; simpl.
  - destruct (FindBufferContainingLoc (ASTContext_SourceMgr Context)
                (PersistentParserState.Loc Pos) =? int_of_unsigned BufferID)%Z
      eqn:EB; simpl.
    + repeat split; try discriminate.
      * intros Pos' H _. injection H as <-. reflexivity.
      * intros Pos' H Hne. injection H as <-.
        apply Z.eqb_eq in EB. contradiction.
    + repeat split; try discriminate.
      * intros Pos' H Heq. injection H as <-.
        apply Z.eqb_neq in EB. contradiction.
  - repeat split; discriminate.
Qed.

Lemma Parser_new_takes_position_witness :
  PersistentParserState.MarkedPos
    (snd (Parser_new sampleBufferLexer 0 sampleContext false (Some sampleState)))
  = None
  /\ Tok (fst (Parser_new sampleBufferLexer 0 sampleContext false
                 (Some sampleState)))
     = tokenAt tok.comma 1.
Proof.
  destruct (Parser_new_takes_position sampleBufferLexer 0 sampleContext false
              (Some sampleState)) as (Hnone & _ & Hseed & _).
  split; [exact Hnone|].
  rewrite (Hseed (PersistentParserState.mkParserPos 1 0));
    reflexivity.
Defined.

(** ** The completion callbacks of a sub-parser *)

Lemma parseFunctionBody_with_factory Lexer_ofBuffer TU F FD s :
  FuncDecl_Body FD = Some Unparsed ->
  exists s',
    parseFunctionBody Lexer_ofBuffer TU (Some F) FD s = Done (tt, s')
    /\ Created s' = S (Created s)
    /\ Events s'
       = Events s ++ [createCodeCompletionCallbacks (Created s);
                      setCodeCompletionCallbacks (Created s);
                      parseDeclFuncBodyDelayed FD;
                      doneParsing (Created s)].
Proof.
  intros HB. unfold parseFunctionBody. rewrite HB.
  unfold bind, assert, newSubParser, createCallbacks, emit, ret,
    callDoneParsing.
  destruct (Parser_new _ _ _ _ _) as [TheParser State']. simpl.
  eexists. split; [reflexivity|]. split; [reflexivity|].
  simpl. rewrite <- !app_assoc. reflexivity.
Qed.

Lemma parseFunctionBody_without_factory Lexer_ofBuffer TU FD s :
  FuncDecl_Body FD = Some Unparsed ->
  parseFunctionBody Lexer_ofBuffer TU None FD s = NullDereference.
Proof.
  intros HB. unfold parseFunctionBody. rewrite HB.
  unfold bind, assert, newSubParser, emit, ret, callDoneParsing.
  destruct (Parser_new _ _ _ _ _) as [TheParser State']. reflexivity.
Qed.

Lemma parseDelayedTopLevelDecl_with_factory Lexer_ofBuffer TU F s DelayedLoc :
  PersistentParserState.DelayedDeclLoc (ParserState s) = Some DelayedLoc ->
  exists s',
    parseDelayedTopLevelDecl Lexer_ofBuffer TU (Some F) s = Done (tt, s')
    /\ Created s' = S (Created s)
    /\ Events s'
       = Events s ++ [createCodeCompletionCallbacks (Created s);
                      setCodeCompletionCallbacks (Created s);
                      parseTopLevelCodeDeclDelayed;
                      doneParsing (Created s)].
Proof.
  intros HD. unfold parseDelayedTopLevelDecl.
  unfold bind at 1. unfold assert at 1.
  unfold PersistentParserState.hasDelayedDecl. rewrite HD.
  unfold bind, newSubParser, createCallbacks, emit, ret, callDoneParsing.
  destruct (Parser_new _ _ _ _ _) as [TheParser State']. simpl.
  eexists. split; [reflexivity|]. split; [reflexivity|].
  simpl. rewrite <- !app_assoc. reflexivity.
Qed.

(** C2, at the failing input: [performDelayedParsing] on a translation
    unit with one unparsed function body and no completion-callback
    factory ends in [parseFunctionBody] calling [doneParsing] through the
    null [CodeCompletion] pointer (line 91), where the claim has no
    callback object and no [doneParsing] call.  With a factory the same
    input gives one fresh callback object, installed before the body is
    parsed and notified exactly once after. *)
Theorem performDelayedParsing_null_factory :
  performDelayedParsing sampleBufferLexer sampleTU None sampleDelayed
  = NullDereference
  /\ exists s',
       performDelayedParsing sampleBufferLexer sampleTU (Some TheFactory)
         sampleDelayed = Done (tt, s')
       /\ Events s'
          = [createCodeCompletionCallbacks 0; setCodeCompletionCallbacks 0;
             parseDeclFuncBodyDelayed sampleFunc; doneParsing 0].
Proof.
  split; [reflexivity|].
  eexists. split; reflexivity.
Qed.

(** * Further properties *)

(** ** Tokens that start with an angle bracket *)

(** X1: [consumeStartingLess] and [consumeStartingGreater] always
    return the location of the current token, but only a token of one
    character is consumed like any other: of a longer token the first
    character is split off without [PreviousLoc] being updated, so that
    [getEndOfPreviousLoc] afterwards still is the end of the token
    before, not of the angle bracket just consumed.  On a token that
    does not start with the angle bracket both stop on their
    assertion. *)
Theorem consumeStartingAngle_previous_loc
    (startsWithLess startsWithGreater : Token -> bool)
    (getTokenAt : Lexer -> SourceLoc -> Token * Lexer) (P : Parser) :
  (Kind (Tok P) <> tok.eof ->
   (startsWithLess (Tok P) = true ->
    consumeStartingLess startsWithLess getTokenAt P
    = Done (getLoc (Tok P), afterStartingAngle getTokenAt P))
   /\ (startsWithGreater (Tok P) = true ->
       consumeStartingGreater startsWithGreater getTokenAt P
       = Done (getLoc (Tok P), afterStartingAngle getTokenAt P))
   /\ getEndOfPreviousLoc (afterStartingAngle getTokenAt P)
      = Done (getLocForEndOfToken (SourceMgr P)
                (if (getLength (Tok P) =? 1)%Z then getLoc (Tok P)
                 else PreviousLoc P),
              afterStartingAngle getTokenAt P))
  /\ (startsWithLess (Tok P) = false ->
      consumeStartingLess startsWithLess getTokenAt P
      = AssertionFailure "Token does not start with '<'")
  /\ (startsWithGreater (Tok P) = false ->
      consumeStartingGreater startsWithGreater getTokenAt P
      = AssertionFailure "Token does not start with '>'").
Proof.
  split; [|split].
  - intros Hne. split; [|split].
    + intros HS. unfold consumeStartingLess, afterStartingAngle, bind,
        getTok, assert. rewrite HS.
      destruct (getLength (Tok P) =? 1)%Z; [apply consumeToken_Done, Hne|].
      unfold getAdvancedLoc. destruct (getTokenAt _ _). reflexivity.
    + intros HS. unfold consumeStartingGreater, afterStartingAngle, bind,
        getTok, assert. rewrite HS.
      destruct (getLength (Tok P) =? 1)%Z; [apply consumeToken_Done, Hne|].
      unfold getAdvancedLoc. destruct (getTokenAt _ _). reflexivity.
    + unfold afterStartingAngle.
      destruct (getLength (Tok P) =? 1)%Z; [|reflexivity].
      destruct (frame_lexed P Hne) as (F1 & _).
      unfold getEndOfPreviousLoc, bind, getSourceMgr, getPreviousLoc, ret.
      rewrite F1. reflexivity.
  - intros HS. unfold consumeStartingLess, bind, getTok, assert.
    rewrite HS. reflexivity.
  - intros HS. unfold consumeStartingGreater, bind, getTok, assert.
    rewrite HS. reflexivity.
Qed.

Lemma consumeStartingAngle_previous_loc_witness :
  (consumeStartingLess sampleStartsWithAngle sampleTokenAt ;;
   getEndOfPreviousLoc) sampleShift
  = Done (4%Z,
          mkParser sampleSM []
                   (mkLexer [tokenAt tok.identifier 6] (mkStringRef 7 0))
                   (tokenAt (tok.other 0) 5) 3%Z).
Proof.
  destruct (consumeStartingAngle_previous_loc sampleStartsWithAngle
              sampleStartsWithAngle sampleTokenAt sampleShift) as (H & _).
  destruct H as (HL & _ & HE); [discriminate|].
  unfold bind. rewrite HL by reflexivity. rewrite HE. reflexivity.
Defined.

(** ** The recovery engine: single steps and the other loops *)

Lemma whileLoop_stops continues body fuel P :
  continues P = Done (false, P) ->
  whileLoop continues body fuel P = Done (tt, P).
Proof.
  intros H. destruct fuel; simpl; unfold bind; rewrite H; reflexivity.
Qed.

Lemma whileLoop_S continues body fuel P :
  continues P = Done (true, P) ->
  whileLoop continues body (S fuel) P
  = (body ;; whileLoop continues body fuel) P.
Proof. intros H. simpl. unfold bind at 1. rewrite H. reflexivity. Qed.

Lemma whileLoop_stuck continues body P :
  continues P = Done (true, P) ->
  body P = Done (tt, P) ->
  forall fuel, whileLoop continues body fuel P = OutOfFuel.
Proof.
  intros HC HB. induction fuel as [|fuel IH].
  - simpl. unfold bind. rewrite HC. reflexivity.
  - rewrite (whileLoop_S _ _ _ _ HC). unfold bind. rewrite HB. exact IH.
Qed.

Lemma skipSingle_code_complete_stays fuel P :
  Kind (Tok P) = tok.code_complete ->
  skipSingle (S fuel) true P = Done (tt, P).
Proof. intros HC. rewrite skipSingle_S, HC. reflexivity. Qed.

Section WhileSkip.

(** A loop over [skipSingle] whose condition only reads the parser, and
    holds neither at [eof] nor where [skipSingle] would not move. *)
Variable I : Parser -> Parser -> Prop.
Hypothesis I_refl : forall P, I P P.
Hypothesis I_trans : forall P Q R, I P Q -> I Q R -> I P R.

Variable Inv : Parser -> Prop.
Variable c : Parser -> bool.
Variable continues : M bool.
Variables (Stop : bool) (N : nat) (single : M unit).

Hypothesis continues_reads : forall P, continues P = Done (c P, P).
Hypothesis single_ok : skips_one I Stop N single.
Hypothesis c_guard :
  forall P, Inv P -> c P = true ->
    Kind (Tok P) <> tok.eof
    /\ (Stop = true -> Kind (Tok P) <> tok.code_complete).
Hypothesis Inv_step : forall P P', Inv P -> I P P' -> Inv P'.

Lemma whileLoop_sound :
  forall fuel P,
    Inv P -> remaining P <= fuel -> remaining P <= N ->
    exists P',
      whileLoop continues single fuel P = Done (tt, P')
      /\ remaining P' <= remaining P
      /\ I P P'
      /\ c P' = false
      /\ (c P = false -> P' = P).
Proof.
  induction fuel as [|fuel IH]; intros P HInv Hfuel HN.
  - destruct (c P) eqn:E.
    + destruct (c_guard P HInv E) as [Hne _].
      rewrite (remaining_not_eof P Hne) in Hfuel. lia.
    + exists P. rewrite whileLoop_stops by (rewrite continues_reads, E; auto).
      auto.
  - destruct (c P) eqn:E.
    + destruct (c_guard P HInv E) as [Hne Hcc].
      destruct (single_ok P HN Hne Hcc) as (P1 & H1 & Hlt & HI).
      rewrite whileLoop_S by (rewrite continues_reads, E; auto).
      unfold bind at 1. rewrite H1.
      destruct (IH P1) as (P' & H' & Hle & HI' & Hstop & _);
        [eauto|lia|lia|].
      exists P'. rewrite H'. repeat split; eauto; try lia.
    + exists P. rewrite whileLoop_stops by (rewrite continues_reads, E; auto).
      auto.
Qed.

End WhileSkip.

Lemma noCodeComplete_lexed P :
  noCodeComplete (stream P) -> noCodeComplete (stream (lexed P)).
Proof.
  unfold noCodeComplete, stream. intros H. inversion H as [|T ts HT Hts]; subst.
  destruct (NextTokens (L P)) as [|T' rest] eqn:E.
  - unfold lexed, lex. rewrite E. simpl. rewrite E.
    constructor; [discriminate|constructor].
  - pose proof (stream_lexed P T' rest E) as HS. unfold stream in HS.
    rewrite HS. exact Hts.
Qed.

Lemma skipKeeps_refl P : skipKeeps P P.
Proof. split; [apply frame_refl|auto]. Qed.

Lemma skipKeeps_trans P Q R : skipKeeps P Q -> skipKeeps Q R -> skipKeeps P R.
Proof.
  intros [F1 N1] [F2 N2]. split; [eapply frame_trans; eauto|auto].
Qed.

Lemma skipKeeps_lexed P : Kind (Tok P) <> tok.eof -> skipKeeps P (lexed P).
Proof.
  intros H. split; [apply frame_lexed; exact H|apply noCodeComplete_lexed].
Qed.

Lemma skipSingle_keeps Stop fuel :
  skips_one skipKeeps Stop fuel (skipSingle fuel Stop).
Proof.
  apply skipSingle_sound;
    [exact skipKeeps_refl|exact skipKeeps_trans|exact skipKeeps_lexed].
Qed.

Lemma passesCodeComplete_step default P P' :
  passesCodeComplete default P -> skipKeeps P P' ->
  passesCodeComplete default P'.
Proof. intros [H|H] [_ HN]; [left; exact H|right; auto]. Qed.

Lemma passesCodeComplete_guard default P :
  passesCodeComplete default P ->
  default = true -> Kind (Tok P) <> tok.code_complete.
Proof.
  intros [H|H] Hd; [congruence|].
  unfold noCodeComplete, stream in H. inversion H; auto.
Qed.

(** X2: [skipSingle] has a precondition and one case in which it does
    not move.  At [eof] it stops on the assertion of [consumeToken]; on a
    code-completion token with [StopAtCodeComplete] set it returns
    without consuming anything; on every other token it returns having
    consumed at least one token, and it emits no diagnostic. *)
Theorem skipSingle_progress (fuel : nat) (StopAtCodeComplete : bool)
    (P : Parser) :
  (Kind (Tok P) = tok.eof ->
   skipSingle (S fuel) StopAtCodeComplete P
   = AssertionFailure "Lexing past eof!")
  /\ (Kind (Tok P) = tok.code_complete -> StopAtCodeComplete = true ->
      skipSingle (S fuel) StopAtCodeComplete P = Done (tt, P))
  /\ (Kind (Tok P) <> tok.eof ->
      (StopAtCodeComplete = true -> Kind (Tok P) <> tok.code_complete) ->
      remaining P <= fuel ->
      exists P',
        skipSingle fuel StopAtCodeComplete P = Done (tt, P')
        /\ remaining P' < remaining P
        /\ Diags P' = Diags P).
Proof.
  split; [|split].
  - intros HE. rewrite skipSingle_S, HE. unfold bind.
    rewrite (consumeToken_eof P HE). reflexivity.
  - intros HC HS. rewrite skipSingle_S, HC, HS. reflexivity.
  - intros HE HC Hfuel.
    destruct (skipSingle_keeps StopAtCodeComplete fuel P Hfuel HE HC)
      as (P' & HD & Hlt & (_ & HDiags & _) & _).
    exists P'. auto.
Qed.

Lemma skipSingle_progress_witness :
  skipSingle 1 false (parserOn (mkToken tok.eof (mkStringRef 2 0)) [] 2)
  = AssertionFailure "Lexing past eof!"
  /\ skipSingle 1 true (parserOn (tokenAt tok.code_complete 1) [] 2)
     = Done (tt, parserOn (tokenAt tok.code_complete 1) [] 2)
  /\ exists P',
       skipSingle 3 false sampleCompletion = Done (tt, P')
       /\ remaining P' < remaining sampleCompletion.
Proof.
  split; [|split].
  - apply (skipSingle_progress 0 false
             (parserOn (mkToken tok.eof (mkStringRef 2 0)) [] 2)).
    reflexivity.
  - apply (skipSingle_progress 0 true
             (parserOn (tokenAt tok.code_complete 1) [] 2)); reflexivity.
  - destruct (skipSingle_progress 4 false sampleCompletion)
      as (_ & _ & H).
    destruct H as (P' & HD & Hlt & _);
      [discriminate|discriminate|vm_compute; lia|].
    exists P'. split; [|exact Hlt].
    vm_compute in HD. injection HD as <-. reflexivity.
Defined.

Lemma skipUntil_loop_Done_stops single T1 T2 Stop :
  forall fuel P P',
    skipUntil_loop single T1 T2 Stop fuel P = Done (tt, P') ->
    skipUntil_continues T1 T2 Stop (Tok P') = false.
Proof.
  induction fuel as [|fuel IH]; intros P P'; simpl.
  - destruct (skipUntil_continues T1 T2 Stop (Tok P)) eqn:E; [discriminate|].
    intros H. injection H as <-. exact E.
  - destruct (skipUntil_continues T1 T2 Stop (Tok P)) eqn:E.
    + unfold bind. destruct (single P) as [[[] P1]| | |]; try discriminate.
      apply IH.
    + intros H. injection H as <-. exact E.
Qed.

(** X3: [skipUntil] is idempotent.  Wherever a call has left the
    parser, a second call with the same targets, whatever its fuel,
    returns at once with the parser as it is: nothing more is consumed. *)
Theorem skipUntil_idempotent (fuel fuel' : nat) (T1 T2 : tok)
    (StopAtCodeComplete : bool) (P P' : Parser) :
  skipUntil fuel T1 T2 StopAtCodeComplete P = Done (tt, P') ->
  skipUntil fuel' T1 T2 StopAtCodeComplete P' = Done (tt, P').
Proof.
  unfold skipUntil, skipUntil_body.
  destruct (tok.eqb T1 tok.unknown && tok.eqb T2 tok.unknown); [reflexivity|].
  intros H. apply skipUntil_loop_Done_stops in H.
  apply skipUntil_loop_stops. exact H.
Qed.

Lemma skipUntil_idempotent_witness :
  exists P',
    skipUntil 4 tok.r_paren tok.comma false sampleList = Done (tt, P')
    /\ skipUntil 0 tok.r_paren tok.comma false P' = Done (tt, P')
    /\ getLoc (Tok P') = 2%Z.
Proof.
  eexists. split; [vm_compute; reflexivity|]. split; [|reflexivity].
  apply (skipUntil_idempotent 4 0 tok.r_paren tok.comma false sampleList).
  vm_compute. reflexivity.
Defined.

(** X4: [skipUntilDeclStmtRBrace] returns on every finite token stream
    (the remaining tokens are fuel enough), without emitting a
    diagnostic and without going back, with the cursor on [eof], on a
    closing brace, on the start of a statement or of a declaration, or,
    when [StopAtCodeComplete] is set, on a code-completion token; when
    the cursor is already on one of these, nothing is consumed. *)
Theorem skipUntilDeclStmtRBrace_stops
    (isStartOfStmt : Token -> bool) (isStartOfDecl : Token -> Token -> bool)
    (fuel : nat) (StopAtCodeComplete : bool) (P : Parser) :
  remaining P <= fuel ->
  exists P',
    skipUntilDeclStmtRBrace isStartOfStmt isStartOfDecl fuel
      StopAtCodeComplete P = Done (tt, P')
    /\ remaining P' <= remaining P
    /\ Diags P' = Diags P
    /\ declStmtStop isStartOfStmt isStartOfDecl StopAtCodeComplete P'
    /\ (declStmtStop isStartOfStmt isStartOfDecl StopAtCodeComplete P ->
        P' = P).
Proof.
  intros Hfuel.
  set (c := fun P : Parser =>
         if Tok_isNot (Tok P) tok.eof && Tok_isNot (Tok P) tok.r_brace
            && negb (isStartOfStmt (Tok P))
         then negb (isStartOfDecl (Tok P) (peekNextToken (L P)))
              && (negb StopAtCodeComplete
                  || Tok_isNot (Tok P) tok.code_complete)
         else false).
  assert (forall Q, c Q = false <->
                    declStmtStop isStartOfStmt isStartOfDecl
                                 StopAtCodeComplete Q) as Hc.
  { intros Q. unfold c, declStmtStop, Tok_isNot, Tok_is.
    destruct (tok.eq_dec (Kind (Tok Q)) tok.eof) as [E1|E1];
      [rewrite E1; simpl; tauto|].
    destruct (tok.eq_dec (Kind (Tok Q)) tok.r_brace) as [E2|E2];
      [rewrite E2; simpl; tauto|].
    apply tok_eqb_neq in E1 as E1', E2 as E2'. rewrite E1', E2'. simpl.
    destruct (isStartOfStmt (Tok Q)); simpl; [tauto|].
    destruct (isStartOfDecl (Tok Q) (peekNextToken (L Q))); simpl; [tauto|].
    destruct StopAtCodeComplete; simpl.
    - destruct (tok.eq_dec (Kind (Tok Q)) tok.code_complete) as [E3|E3].
      + rewrite E3. simpl. tauto.
      + apply tok_eqb_neq in E3 as E3'. rewrite E3'. simpl.
        split; [discriminate|].
        intros [H|[H|[H|[H|[_ H]]]]]; congruence.
    - split; [discriminate|].
      intros [H|[H|[H|[H|[H _]]]]]; congruence. }
  destruct (whileLoop_sound skipKeeps skipKeeps_refl skipKeeps_trans
              (fun _ => True) c
              (skipUntilDeclStmtRBrace_continues isStartOfStmt isStartOfDecl
                 StopAtCodeComplete)
              StopAtCodeComplete fuel (skipSingle fuel StopAtCodeComplete))
    with (fuel := fuel) (P := P)
    as (P' & HD & Hle & ((_ & HDiags & _) & _) & Hstop & Hnoop); auto.
  - intros Q. unfold skipUntilDeclStmtRBrace_continues, c, bind, getTok,
      peekToken, ret.
    destruct (Tok_isNot (Tok Q) tok.eof && Tok_isNot (Tok Q) tok.r_brace
              && negb (isStartOfStmt (Tok Q))); reflexivity.
  - apply skipSingle_keeps.
  - intros Q _ HQ. unfold c in HQ.
    destruct (Tok_isNot (Tok Q) tok.eof) eqn:E1; [|discriminate].
    apply Tok_isNot_true in E1. split; [exact E1|].
    intros HS. rewrite HS in HQ. simpl in HQ.
    destruct (Tok_isNot (Tok Q) tok.r_brace && negb (isStartOfStmt (Tok Q)));
      [|discriminate].
    apply andb_true_iff in HQ. destruct HQ as [_ HQ].
    apply Tok_isNot_true. exact HQ.
  - exists P'. split; [exact HD|]. split; [exact Hle|].
    split; [exact HDiags|]. split; [apply Hc; exact Hstop|].
    intros H. apply Hnoop, Hc, H.
Qed.

Lemma skipUntilDeclStmtRBrace_stops_witness :
  exists P',
    skipUntilDeclStmtRBrace sampleStartOfStmt sampleStartOfDecl 6 true
      sampleOperators = Done (tt, P')
    /\ Tok P' = tokenAt (tok.other 1) 6.
Proof.
  destruct (skipUntilDeclStmtRBrace_stops sampleStartOfStmt sampleStartOfDecl
              6 true sampleOperators) as (P' & HD & _).
  - vm_compute. lia.
  - exists P'. split; [exact HD|].
    vm_compute in HD. injection HD as <-. reflexivity.
Defined.

(** X5: [skipUntilAnyOperator] calls [skipSingle()] with its default
    argument and has no exit of its own at a code-completion token.
    When that default is not to stop there, or no code-completion token
    is ahead, it returns on every finite token stream (the remaining
    tokens are fuel enough), without emitting a diagnostic, with the
    cursor on [eof] or on an operator; an operator inside a bracketed
    group is skipped with the group; when the cursor is already on
    [eof] or an operator, nothing is consumed.  Were the default to stop
    at a code-completion token, the loop would not return from one: no
    fuel is enough. *)
Theorem skipUntilAnyOperator_stops
    (skipSingle_default : bool) (operatorKind : nat -> bool)
    (fuel : nat) (P : Parser) :
  (passesCodeComplete skipSingle_default P ->
   remaining P <= fuel ->
   exists P',
     skipUntilAnyOperator skipSingle_default operatorKind fuel P
     = Done (tt, P')
     /\ remaining P' <= remaining P
     /\ Diags P' = Diags P
     /\ operatorStop operatorKind P'
     /\ (operatorStop operatorKind P -> P' = P))
  /\ (skipSingle_default = true ->
      Kind (Tok P) = tok.code_complete ->
      skipUntilAnyOperator skipSingle_default operatorKind fuel P
      = OutOfFuel).
Proof.
  split.
  2:{ intros HD HC. subst skipSingle_default. unfold skipUntilAnyOperator.
      assert (skipUntilAnyOperator_continues operatorKind P = Done (true, P))
        as Hcont.
      { unfold skipUntilAnyOperator_continues, bind, getTok, ret,
          Tok_isNotAnyOperator, Tok_isAnyOperator, Tok_isNot, Tok_is.
        rewrite HC. reflexivity. }
      destruct fuel as [|fuel].
      - simpl. unfold bind. rewrite Hcont. reflexivity.
      - apply whileLoop_stuck; [exact Hcont|].
        apply skipSingle_code_complete_stays, HC. }
  intros Hpass Hfuel.
  set (c := fun P : Parser =>
         Tok_isNot (Tok P) tok.eof
         && Tok_isNotAnyOperator operatorKind (Tok P)).
  assert (forall Q, c Q = false <-> operatorStop operatorKind Q) as Hc.
  { intros Q. unfold c, operatorStop, Tok_isNotAnyOperator, Tok_isNot, Tok_is.
    destruct (tok.eq_dec (Kind (Tok Q)) tok.eof) as [E1|E1];
      [rewrite E1; simpl; tauto|].
    apply tok_eqb_neq in E1 as E1'. rewrite E1'. simpl.
    destruct (Tok_isAnyOperator operatorKind (Tok Q)); simpl; [tauto|].
    split; [discriminate|]. intros [H|H]; congruence. }
  destruct (whileLoop_sound skipKeeps skipKeeps_refl skipKeeps_trans
              (passesCodeComplete skipSingle_default) c
              (skipUntilAnyOperator_continues operatorKind)
              skipSingle_default fuel (skipSingle fuel skipSingle_default))
    with (fuel := fuel) (P := P)
    as (P' & HD & Hle & ((_ & HDiags & _) & _) & Hstop & Hnoop); auto.
  - apply skipSingle_keeps.
  - intros Q HQ Hcont. unfold c in Hcont.
    apply andb_true_iff in Hcont. destruct Hcont as [E1 _].
    apply Tok_isNot_true in E1. split; [exact E1|].
    apply passesCodeComplete_guard. exact HQ.
  - apply passesCodeComplete_step.
  - exists P'. split; [exact HD|]. split; [exact Hle|].
    split; [exact HDiags|]. split; [apply Hc; exact Hstop|].
    intros H. apply Hnoop, Hc, H.
Qed.

Lemma skipUntilAnyOperator_stops_witness :
  exists P',
    skipUntilAnyOperator false sampleOperatorKind 6 sampleOperators
    = Done (tt, P')
    /\ Tok P' = tokenAt (tok.other 0) 5.
Proof.
  destruct (skipUntilAnyOperator_stops false sampleOperatorKind 6
              sampleOperators) as [H _].
  destruct H as (P' & HD & _).
  - left. reflexivity.
  - vm_compute. lia.
  - exists P'. split; [exact HD|].
    vm_compute in HD. injection HD as <-. reflexivity.
Defined.

(** X6: [skipUntilDeclRBrace] calls [skipSingle()] with its default
    argument as well.  When that default is not to stop at a
    code-completion token, or none is ahead, it returns on every finite
    token stream, without emitting a diagnostic, with the cursor on
    [eof], on a closing brace or on a token that, with the one after it,
    starts a declaration; a closing brace inside a bracketed group is
    skipped with the group; when the cursor is already on such a token,
    nothing is consumed.  Were the default to stop at a code-completion
    token, the loop would not return from one that starts no
    declaration: no fuel is enough. *)
Theorem skipUntilDeclRBrace_stops
    (skipSingle_default : bool) (isStartOfDecl : Token -> Token -> bool)
    (fuel : nat) (P : Parser) :
  (passesCodeComplete skipSingle_default P ->
   remaining P <= fuel ->
   exists P',
     skipUntilDeclRBrace skipSingle_default isStartOfDecl fuel P
     = Done (tt, P')
     /\ remaining P' <= remaining P
     /\ Diags P' = Diags P
     /\ declStop isStartOfDecl P'
     /\ (declStop isStartOfDecl P -> P' = P))
  /\ (skipSingle_default = true ->
      Kind (Tok P) = tok.code_complete ->
      isStartOfDecl (Tok P) (peekNextToken (L P)) = false ->
      skipUntilDeclRBrace skipSingle_default isStartOfDecl fuel P
      = OutOfFuel).
Proof.
  split.
  2:{ intros HD HC HS. subst skipSingle_default. unfold skipUntilDeclRBrace.
      assert (skipUntilDeclRBrace_continues isStartOfDecl P = Done (true, P))
        as Hcont.
      { assert (Tok_isNot (Tok P) tok.eof && Tok_isNot (Tok P) tok.r_brace
                = true) as HB
            by (unfold Tok_isNot, Tok_is; rewrite HC; reflexivity).
        unfold skipUntilDeclRBrace_continues, bind, getTok. rewrite HB.
        unfold peekToken. rewrite HS. reflexivity. }
      destruct fuel as [|fuel].
      - simpl. unfold bind. rewrite Hcont. reflexivity.
      - apply whileLoop_stuck; [exact Hcont|].
        apply skipSingle_code_complete_stays, HC. }
  intros Hpass Hfuel.
  set (c := fun P : Parser =>
         if Tok_isNot (Tok P) tok.eof && Tok_isNot (Tok P) tok.r_brace
         then negb (isStartOfDecl (Tok P) (peekNextToken (L P)))
         else false).
  assert (forall Q, c Q = false <-> declStop isStartOfDecl Q) as Hc.
  { intros Q. unfold c, declStop, Tok_isNot, Tok_is.
    destruct (tok.eq_dec (Kind (Tok Q)) tok.eof) as [E1|E1];
      [rewrite E1; simpl; tauto|].
    destruct (tok.eq_dec (Kind (Tok Q)) tok.r_brace) as [E2|E2];
      [rewrite E2; simpl; tauto|].
    apply tok_eqb_neq in E1 as E1', E2 as E2'. rewrite E1', E2'. simpl.
    destruct (isStartOfDecl (Tok Q) (peekNextToken (L Q))); simpl; [tauto|].
    split; [discriminate|]. intros [H|[H|H]]; congruence. }
  destruct (whileLoop_sound skipKeeps skipKeeps_refl skipKeeps_trans
              (passesCodeComplete skipSingle_default) c
              (skipUntilDeclRBrace_continues isStartOfDecl)
              skipSingle_default fuel (skipSingle fuel skipSingle_default))
    with (fuel := fuel) (P := P)
    as (P' & HD & Hle & ((_ & HDiags & _) & _) & Hstop & Hnoop); auto.
  - intros Q. unfold skipUntilDeclRBrace_continues, c, bind, getTok,
      peekToken, ret.
    destruct (Tok_isNot (Tok Q) tok.eof && Tok_isNot (Tok Q) tok.r_brace);
      reflexivity.
  - apply skipSingle_keeps.
  - intros Q HQ Hcont. unfold c in Hcont.
    destruct (Tok_isNot (Tok Q) tok.eof) eqn:E1; [|discriminate].
    apply Tok_isNot_true in E1. split; [exact E1|].
    apply passesCodeComplete_guard. exact HQ.
  - apply passesCodeComplete_step.
  - exists P'. split; [exact HD|]. split; [exact Hle|].
    split; [exact HDiags|]. split; [apply Hc; exact Hstop|].
    intros H. apply Hnoop, Hc, H.
Qed.

Lemma skipUntilDeclRBrace_stops_witness :
  exists P',
    skipUntilDeclRBrace false sampleStartOfDecl 6 sampleOperators
    = Done (tt, P')
    /\ Tok P' = tokenAt (tok.other 1) 6.
Proof.
  destruct (skipUntilDeclRBrace_stops false sampleStartOfDecl 6
              sampleOperators) as [H _].
  destruct H as (P' & HD & _).
  - left. reflexivity.
  - vm_compute. lia.
  - exists P'. split; [exact HD|].
    vm_compute in HD. injection HD as <-. reflexivity.
Defined.

(** ** The recovery engine: targets inside brackets *)

(** X7: [skipUntil] with one target, the second left at the sentinel
    [tok::unknown], does not stop at a target that is inside brackets.
    When the tokens ahead are a run of plain tokens and balanced
    bracketed groups, nested to any depth, followed by a token of the
    target kind, and none of the tokens in front of that one is of kind
    [unknown], it returns with the cursor on that token: target tokens
    inside the groups are skipped with their group.  It emits no
    diagnostic.  The run holds no [eof] and, with [StopAtCodeComplete]
    set, no code-completion token.  A token of kind [unknown] is ruled
    out because the sentinel is compared like a target (line 320): the
    loop stops on such a token as well. *)
Theorem skipUntil_stops_outside_brackets
    (fuel : nat) (T1 : tok) (StopAtCodeComplete : bool) (P : Parser)
    (ts : list Token) (Cl : Token) (after : list Token) :
  T1 <> tok.unknown ->
  stream P = ts ++ Cl :: after ->
  Nested StopAtCodeComplete T1 ts ->
  Kind Cl = T1 ->
  noUnknown ts ->
  List.length (stream P) <= fuel ->
  exists P',
    skipUntil fuel T1 tok.unknown StopAtCodeComplete P = Done (tt, P')
    /\ Tok P' = Cl
    /\ NextTokens (L P') = after
    /\ Diags P' = Diags P.
Proof.
  intros HT Hst HN HCl Hunk Hfuel.
  unfold skipUntil. rewrite (skipUntil_body_loop _ _ _ _ HT).
  destruct (skipUntil_loop_nested StopAtCodeComplete T1 ts HN fuel fuel P
              Cl after Hst HCl Hunk Hfuel Hfuel)
    as (P' & HD & HTok & HNext & (_ & HDiags & _)).
  exists P'. auto.
Qed.

Lemma skipUntil_stops_outside_brackets_witness :
  exists P',
    skipUntil 5 tok.comma tok.unknown false
      (parserOn (tokenAt tok.identifier 1)
                [tokenAt tok.l_square 2; tokenAt tok.comma 3;
                 tokenAt tok.r_square 4; tokenAt tok.comma 5] 6)
    = Done (tt, P')
    /\ Tok P' = tokenAt tok.comma 5.
Proof.
  destruct (skipUntil_stops_outside_brackets 5 tok.comma false
              (parserOn (tokenAt tok.identifier 1)
                        [tokenAt tok.l_square 2; tokenAt tok.comma 3;
                         tokenAt tok.r_square 4; tokenAt tok.comma 5] 6)
              [tokenAt tok.identifier 1; tokenAt tok.l_square 2;
               tokenAt tok.comma 3; tokenAt tok.r_square 4]
              (tokenAt tok.comma 5) [])
    as (P' & HD & HTok & _).
  - discriminate.
  - reflexivity.
  - apply Nested_token; try reflexivity; try discriminate.
    apply (Nested_group false tok.comma (tokenAt tok.l_square 2)
             tok.r_square [tokenAt tok.comma 3] (tokenAt tok.r_square 4) []);
      try reflexivity; try discriminate; [|apply Nested_nil].
    apply Nested_token; try reflexivity; try discriminate.
    apply Nested_nil.
  - reflexivity.
  - repeat constructor; discriminate.
  - simpl. lia.
  - exists P'. split; [exact HD|exact HTok].
Defined.

(** ** Primitive parsing *)

Lemma parseToken_not_taken K D P :
  Kind (Tok P) <> K ->
  parseToken K D P = Done ((true, None), rejected P D).
Proof.
  intros HK. unfold parseToken. unfold bind at 1. unfold getTok at 1.
  apply Tok_is_false in HK. rewrite HK. reflexivity.
Qed.

(** X8: [parseToken] is all or nothing.  On a token of the expected kind
    it consumes that token, returns [false] and sets [TokLoc] to the
    token's location, emitting nothing; on any other token it returns
    [true], leaves [TokLoc] and the cursor untouched and emits exactly
    the given diagnostic at the current token.  It cannot be used to
    expect [eof]: at [eof] the consume stops on an assertion. *)
Theorem parseToken_contract (K : tok) (D : diag.t) (P : Parser) :
  (Kind (Tok P) = K -> K <> tok.eof ->
   parseToken K D P = Done ((false, Some (getLoc (Tok P))), lexed P))
  /\ (Kind (Tok P) <> K ->
      parseToken K D P = Done ((true, None), rejected P D))
  /\ (Kind (Tok P) = tok.eof ->
      parseToken tok.eof D P = AssertionFailure "Lexing past eof!").
Proof.
  split; [apply parseToken_taken|]. split; [apply parseToken_not_taken|].
  intros HE. unfold parseToken. unfold bind at 1. unfold getTok at 1.
  apply Tok_is_true in HE as HE'. rewrite HE'.
  unfold bind, consumeTokenK, bind, getTok, assert. rewrite HE'.
  rewrite (consumeToken_eof P HE). reflexivity.
Qed.

Lemma parseToken_contract_witness :
  parseToken tok.comma (diag.user 0) sampleAfterB
  = Done ((true, None),
          withDiag sampleAfterB (plainDiag 4%Z (diag.user 0)))
  /\ parseToken tok.identifier (diag.user 0) sampleAfterB
     = Done ((false, Some 4%Z), lexed sampleAfterB).
Proof.
  destruct (parseToken_contract tok.comma (diag.user 0) sampleAfterB)
    as (_ & Hno & _).
  destruct (parseToken_contract tok.identifier (diag.user 0) sampleAfterB)
    as (Hyes & _).
  split; [apply Hno; discriminate|apply Hyes; [reflexivity|discriminate]].
Defined.

Lemma parseMatchingToken_not_taken K ErrorDiag OtherLoc P :
  closeDelimiter K -> Kind (Tok P) <> K ->
  parseMatchingToken K ErrorDiag OtherLoc P
  = Done ((true, None),
          withDiag (rejected P ErrorDiag) (plainDiag OtherLoc (openingNote K))).
Proof.
  intros HK HT. unfold parseMatchingToken.
  destruct HK as [HK|[HK|HK]]; subst K; unfold bind at 1; unfold ret at 1;
    unfold bind at 1; rewrite (parseToken_not_taken _ _ _ HT);
    reflexivity.
Qed.

Lemma parseMatchingToken_unknown K ErrorDiag OtherLoc P :
  ~ closeDelimiter K ->
  parseMatchingToken K ErrorDiag OtherLoc P
  = AssertionFailure "unknown matching token!".
Proof.
  intros HK. unfold parseMatchingToken, closeDelimiter in *.
  destruct K; try reflexivity; exfalso; apply HK; auto.
Qed.

(** X9: [parseMatchingToken] accepts only the three close delimiters as
    [K]; for any other kind it stops on its assertion.  On the close
    delimiter it consumes it and emits nothing.  On any other token it
    consumes nothing and emits exactly two diagnostics, in this order:
    the error at the current token, then the note that names the kind of
    the opening delimiter, at [OtherLoc]. *)
Theorem parseMatchingToken_contract (K : tok) (ErrorDiag : diag.t)
    (OtherLoc : SourceLoc) (P : Parser) :
  (closeDelimiter K -> Kind (Tok P) = K ->
   parseMatchingToken K ErrorDiag OtherLoc P
   = Done ((false, Some (getLoc (Tok P))), lexed P))
  /\ (closeDelimiter K -> Kind (Tok P) <> K ->
      parseMatchingToken K ErrorDiag OtherLoc P
      = Done ((true, None),
              withDiag (rejected P ErrorDiag)
                       (plainDiag OtherLoc (openingNote K))))
  /\ (~ closeDelimiter K ->
      parseMatchingToken K ErrorDiag OtherLoc P
      = AssertionFailure "unknown matching token!").
Proof.
  split; [apply parseMatchingToken_taken|].
  split; [apply parseMatchingToken_not_taken|apply parseMatchingToken_unknown].
Qed.

Lemma parseMatchingToken_contract_witness :
  parseMatchingToken tok.r_square (diag.user 0) 1%Z sampleAfterB
  = Done ((true, None),
          mkParser sampleSM
            [plainDiag 4%Z (diag.user 0); plainDiag 1%Z diag.opening_bracket]
            (L sampleAfterB) (Tok sampleAfterB) (PreviousLoc sampleAfterB))
  /\ parseMatchingToken tok.comma (diag.user 0) 1%Z sampleAfterB
     = AssertionFailure "unknown matching token!".
Proof.
  destruct (parseMatchingToken_contract tok.r_square (diag.user 0) 1%Z
              sampleAfterB) as (_ & Hno & _).
  destruct (parseMatchingToken_contract tok.comma (diag.user 0) 1%Z
              sampleAfterB) as (_ & _ & Hbad).
  split.
  - rewrite Hno; [reflexivity|right; left; reflexivity|discriminate].
  - apply Hbad. intros [H|[H|H]]; discriminate.
Defined.

(** ** Identifiers *)

Lemma isIdentifierToken_not_eof identifierKeyword T :
  isIdentifierToken identifierKeyword T = true -> Kind T <> tok.eof.
Proof.
  unfold isIdentifierToken. intros H E. rewrite E in H. discriminate.
Qed.

Lemma isAnyIdentifierToken_not_eof operatorKind T :
  isAnyIdentifierToken operatorKind T = true -> Kind T <> tok.eof.
Proof.
  unfold isAnyIdentifierToken. intros H E. rewrite E in H. discriminate.
Qed.

Section IdentifierProperties.

Variable Identifier : Type.
Variable getIdentifier : StringRef -> Identifier.

Lemma parseIdentifier_eq identifierKeyword D P :
  parseIdentifier getIdentifier identifierKeyword D P
  = if isIdentifierToken identifierKeyword (Tok P)
    then Done ((false, Some (identifierOf getIdentifier P)), lexed P)
    else Done ((true, None), rejected P D).
Proof.
  destruct (isIdentifierToken identifierKeyword (Tok P)) eqn:E.
  - pose proof (isIdentifierToken_not_eof _ _ E) as Hne.
    unfold parseIdentifier, isIdentifierToken in *.
    unfold bind at 1. unfold getTok at 1.
    assert ((consumeToken ;;
             ret (false, Some (getIdentifier (getText (Tok P)),
                               getLoc (Tok P)))) P
            = Done ((false, Some (identifierOf getIdentifier P)), lexed P))
      as HA.
    { unfold bind. rewrite (consumeToken_Done P Hne). reflexivity. }
    destruct (Kind (Tok P)); try discriminate; [exact HA|].
    rewrite E. exact HA.
  - unfold parseIdentifier, isIdentifierToken in *.
    unfold bind at 1. unfold getTok at 1.
    destruct (Kind (Tok P)); try discriminate; try reflexivity.
    rewrite E. reflexivity.
Qed.

Lemma parseAnyIdentifier_eq operatorKind D P :
  parseAnyIdentifier getIdentifier operatorKind D P
  = if isAnyIdentifierToken operatorKind (Tok P)
    then Done ((false, Some (identifierOf getIdentifier P)), lexed P)
    else Done ((true, None), rejected P D).
Proof.
  assert (Tok_is (Tok P) tok.identifier
          || Tok_isAnyOperator operatorKind (Tok P)
          = isAnyIdentifierToken operatorKind (Tok P)) as HC.
  { unfold isAnyIdentifierToken, Tok_isAnyOperator, Tok_is.
    destruct (Kind (Tok P)); reflexivity. }
  unfold parseAnyIdentifier.
  unfold bind at 1. unfold getTok at 1.
  rewrite HC.
  destruct (isAnyIdentifierToken operatorKind (Tok P)) eqn:E; [|reflexivity].
  pose proof (isAnyIdentifierToken_not_eof _ _ E) as Hne.
  unfold bind. rewrite (consumeToken_Done P Hne). reflexivity.
Qed.

End IdentifierProperties.

(** X10: [parseIdentifier] and [parseAnyIdentifier] never stop on an
    assertion, and each is all or nothing: either it returns [false]
    with the name and location of the current token, having consumed
    exactly that token and emitted nothing, or it returns [true] with
    [Result] and [Loc] untouched, the cursor where it was, and exactly
    the given diagnostic emitted at the current token.  The first
    accepts identifiers and the keywords usable as identifiers, the
    second identifiers and operators. *)
Theorem parseIdentifier_all_or_nothing
    (Identifier : Type) (getIdentifier : StringRef -> Identifier)
    (identifierKeyword operatorKind : nat -> bool) (D : diag.t) (P : Parser) :
  parseIdentifier getIdentifier identifierKeyword D P
  = (if isIdentifierToken identifierKeyword (Tok P)
     then Done ((false, Some (identifierOf getIdentifier P)), lexed P)
     else Done ((true, None), rejected P D))
  /\ parseAnyIdentifier getIdentifier operatorKind D P
     = (if isAnyIdentifierToken operatorKind (Tok P)
        then Done ((false, Some (identifierOf getIdentifier P)), lexed P)
        else Done ((true, None), rejected P D)).
Proof.
  split; [apply parseIdentifier_eq|apply parseAnyIdentifier_eq].
Qed.

(** X11: [parseAnyIdentifier] does not accept everything that
    [parseIdentifier] accepts.  On a token the two do the same, unless
    the token is a keyword usable as an identifier and no operator,
    which only [parseIdentifier] accepts, or an operator that is no such
    keyword, which only [parseAnyIdentifier] accepts. *)
Theorem parseAnyIdentifier_agrees_with_parseIdentifier
    (Identifier : Type) (getIdentifier : StringRef -> Identifier)
    (identifierKeyword operatorKind : nat -> bool) (D : diag.t) (P : Parser) :
  parseAnyIdentifier getIdentifier operatorKind D P
  = parseIdentifier getIdentifier identifierKeyword D P
  <-> (forall n, Kind (Tok P) = tok.other n ->
                 operatorKind n = identifierKeyword n).
Proof.
  rewrite parseIdentifier_eq, parseAnyIdentifier_eq.
  unfold isIdentifierToken, isAnyIdentifierToken.
  destruct (Kind (Tok P)) eqn:EK;
    try (split; [intros _ n H; discriminate|reflexivity]).
  split.
  - intros H m Hm. injection Hm as <-.
    destruct (operatorKind n), (identifierKeyword n); try reflexivity;
      discriminate.
  - intros H. rewrite (H n eq_refl). reflexivity.
Qed.

Lemma parseAnyIdentifier_agrees_with_parseIdentifier_witness :
  parseAnyIdentifier sampleGetIdentifier sampleOperatorKind (diag.user 0)
    (parserOn (tokenAt (tok.other 3) 1) [] 2)
  <> parseIdentifier sampleGetIdentifier sampleIdentifierKeyword (diag.user 0)
       (parserOn (tokenAt (tok.other 3) 1) [] 2).
Proof.
  intros H.
  apply (parseAnyIdentifier_agrees_with_parseIdentifier string
           sampleGetIdentifier sampleIdentifierKeyword sampleOperatorKind
           (diag.user 0) (parserOn (tokenAt (tok.other 3) 1) [] 2))
    with (n := 3) in H; [discriminate|reflexivity].
Defined.

(** ** The list parser: entry, exits and well-formed lists *)

(** X12: the entry of [parseList].  A separator kind other than comma
    and semicolon stops it on its first assertion.  On the close
    delimiter, the empty list, it consumes the delimiter, returns
    [false] with [RightLoc] at the delimiter, and neither calls the
    element callback nor emits a diagnostic: callback, error diagnostic,
    fuel and the optional-separator flag do not matter. *)
Theorem parseList_entry
    (StopAtCodeComplete_default : bool) (RightK : tok) (LeftLoc : SourceLoc)
    (SeparatorK : tok) (OptionalSep : bool) (ErrorDiag : diag.t)
    (callback : M bool) (fuel : nat) (P : Parser) :
  (~ listSeparator SeparatorK ->
   parseList StopAtCodeComplete_default RightK LeftLoc SeparatorK OptionalSep
     ErrorDiag callback fuel P
   = AssertionFailure "SeparatorK == tok::comma || SeparatorK == tok::semi")
  /\ (listSeparator SeparatorK -> Kind (Tok P) = RightK -> RightK <> tok.eof ->
      parseList StopAtCodeComplete_default RightK LeftLoc SeparatorK
        OptionalSep ErrorDiag callback fuel P
      = Done ((false, Some (getLoc (Tok P))), lexed P)).
Proof.
  split.
  - intros HS. unfold parseList.
    destruct (tok.eqb SeparatorK tok.comma || tok.eqb SeparatorK tok.semi)
      eqn:E; [|reflexivity].
    exfalso. apply HS, listSeparator_eqb, E.
  - intros HS HK Hne. unfold parseList.
    apply listSeparator_eqb in HS. rewrite HS.
    unfold bind at 1. unfold assert at 1.
    unfold bind at 1. unfold getTok at 1.
    apply Tok_is_true in HK as HK'. rewrite HK'.
    unfold bind. rewrite (consumeTokenK_Done RightK P HK Hne). reflexivity.
Qed.

Lemma parseList_entry_witness :
  parseList false tok.r_paren 0%Z tok.comma false (diag.user 0)
    (fun _ => AssertionFailure "never called") 0
    (parserOn (tokenAt tok.r_paren 1) [tokenAt tok.identifier 2] 3)
  = Done ((false, Some 1%Z),
          mkParser sampleSM [] (mkLexer [] (mkStringRef 3 0))
                   (tokenAt tok.identifier 2) 1%Z)
  /\ parseList false tok.r_paren 0%Z tok.identifier false (diag.user 0)
       sampleElement 9 sampleList
     = AssertionFailure "SeparatorK == tok::comma || SeparatorK == tok::semi".
Proof.
  split.
  - destruct (parseList_entry false tok.r_paren 0%Z tok.comma false
                (diag.user 0) (fun _ => AssertionFailure "never called") 0
                (parserOn (tokenAt tok.r_paren 1) [tokenAt tok.identifier 2] 3))
      as [_ H].
    rewrite H; [reflexivity|left; reflexivity|reflexivity|discriminate].
  - destruct (parseList_entry false tok.r_paren 0%Z tok.identifier false
                (diag.user 0) sampleElement 9 sampleList) as [H _].
    apply H. intros [E|E]; discriminate.
Defined.

Lemma parseList_loop_error_diag_unused
    StopAtCodeComplete_default RightK SeparatorK OptionalSep callback
    LeftLoc1 ErrorDiag1 LeftLoc2 ErrorDiag2 :
  forall fuel Invalid P,
    parseList_loop StopAtCodeComplete_default RightK LeftLoc1 SeparatorK
      OptionalSep ErrorDiag1 callback fuel Invalid P
    = parseList_loop StopAtCodeComplete_default RightK LeftLoc2 SeparatorK
        OptionalSep ErrorDiag2 callback fuel Invalid P.
Proof.
  induction fuel as [|fuel IH]; intros Invalid P; [reflexivity|].
  simpl. unfold bind at 1. unfold bind at 2.
  destruct (parseList_round StopAtCodeComplete_default RightK SeparatorK
              OptionalSep callback (S fuel) Invalid P)
    as [[step P1]| | |] eqn:ER; try reflexivity.
  apply parseList_round_exits in ER.
  destruct step as [i|i|b loc]; [apply IH| |reflexivity].
  simpl in ER. unfold bind.
  destruct (tok.eq_dec RightK tok.r_paren) as [E1|E1];
    [|destruct (tok.eq_dec RightK tok.r_square) as [E2|E2];
      [|destruct (tok.eq_dec RightK tok.r_brace) as [E3|E3]]].
  - rewrite !(parseMatchingToken_taken RightK _ _ P1) by (unfold closeDelimiter; auto).
    reflexivity.
  - rewrite !(parseMatchingToken_taken RightK _ _ P1) by (unfold closeDelimiter; auto).
    reflexivity.
  - rewrite !(parseMatchingToken_taken RightK _ _ P1) by (unfold closeDelimiter; auto).
    reflexivity.
  - rewrite !(parseMatchingToken_unknown RightK)
      by (intros [H|[H|H]]; contradiction).
    reflexivity.
Qed.

(** X13: [parseList] never emits its [ErrorDiag], nor the note at
    [LeftLoc].  The loop is left for the final [parseMatchingToken] only
    with the cursor on the close delimiter, where that call succeeds
    (or, for a [RightK] it does not know, stops on its assertion); so,
    for every token stream and every element callback, the result and
    the diagnostics of [parseList] do not depend on these two
    arguments. *)
Theorem parseList_error_diag_unused
    (StopAtCodeComplete_default : bool) (RightK SeparatorK : tok)
    (OptionalSep : bool) (callback : M bool)
    (LeftLoc1 LeftLoc2 : SourceLoc) (ErrorDiag1 ErrorDiag2 : diag.t)
    (fuel : nat) (P : Parser) :
  parseList StopAtCodeComplete_default RightK LeftLoc1 SeparatorK OptionalSep
    ErrorDiag1 callback fuel P
  = parseList StopAtCodeComplete_default RightK LeftLoc2 SeparatorK
      OptionalSep ErrorDiag2 callback fuel P.
Proof.
  unfold parseList.
  destruct (assert (tok.eqb SeparatorK tok.comma || tok.eqb SeparatorK tok.semi)
                   "SeparatorK == tok::comma || SeparatorK == tok::semi" P)
    as [[[] P0]| | |] eqn:EA;
    unfold bind at 1; unfold bind at 3; rewrite EA; try reflexivity.
  unfold bind at 1. unfold bind at 2. unfold getTok.
  destruct (Tok_is (Tok P0) RightK); [reflexivity|].
  apply parseList_loop_error_diag_unused.
Qed.

Lemma parseList_loop_unset_RightLoc
    StopAtCodeComplete_default RightK LeftLoc SeparatorK OptionalSep
    ErrorDiag callback :
  forall fuel Invalid P b P',
    parseList_loop StopAtCodeComplete_default RightK LeftLoc SeparatorK
      OptionalSep ErrorDiag callback fuel Invalid P = Done ((b, None), P') ->
    b = true
    /\ (Kind (Tok P') = tok.eof \/ Kind (Tok P') = tok.code_complete).
Proof.
  induction fuel as [|fuel IH]; intros Invalid P b P'; [discriminate|].
  simpl. unfold bind at 1.
  destruct (parseList_round StopAtCodeComplete_default RightK SeparatorK
              OptionalSep callback (S fuel) Invalid P)
    as [[step P1]| | |] eqn:ER; try discriminate.
  apply parseList_round_exits in ER.
  destruct step as [i|i|r loc]; [apply IH| |].
  - simpl in ER. unfold bind.
    destruct (tok.eq_dec RightK tok.r_paren) as [E1|E1];
      [|destruct (tok.eq_dec RightK tok.r_square) as [E2|E2];
        [|destruct (tok.eq_dec RightK tok.r_brace) as [E3|E3]]].
    + rewrite (parseMatchingToken_taken RightK _ _ P1)
        by (unfold closeDelimiter; auto). discriminate.
    + rewrite (parseMatchingToken_taken RightK _ _ P1)
        by (unfold closeDelimiter; auto). discriminate.
    + rewrite (parseMatchingToken_taken RightK _ _ P1)
        by (unfold closeDelimiter; auto). discriminate.
    + rewrite (parseMatchingToken_unknown RightK)
        by (intros [H|[H|H]]; contradiction).
      discriminate.
  - unfold ret. intros H. injection H as -> -> <-. exact ER.
Qed.

(** X14: [parseList] leaves [RightLoc] untouched only when it gives up.
    For every token stream and every element callback, if it returns
    without having set [RightLoc], then it returns [true] and the cursor
    is on [eof] or on a code-completion token; so a list that parses as
    valid always has its [RightLoc]. *)
Theorem parseList_unset_RightLoc
    (StopAtCodeComplete_default : bool) (RightK : tok) (LeftLoc : SourceLoc)
    (SeparatorK : tok) (OptionalSep : bool) (ErrorDiag : diag.t)
    (callback : M bool) (fuel : nat) (P P' : Parser) (Result : bool) :
  parseList StopAtCodeComplete_default RightK LeftLoc SeparatorK OptionalSep
    ErrorDiag callback fuel P = Done ((Result, None), P') ->
  Result = true
  /\ (Kind (Tok P') = tok.eof \/ Kind (Tok P') = tok.code_complete).
Proof.
  unfold parseList. unfold bind at 1.
  destruct (assert (tok.eqb SeparatorK tok.comma || tok.eqb SeparatorK tok.semi)
                   "SeparatorK == tok::comma || SeparatorK == tok::semi" P)
    as [[[] P0]| | |]; try discriminate.
  unfold bind at 1. unfold getTok at 1.
  destruct (Tok_is (Tok P0) RightK).
  - unfold bind. destruct (consumeTokenK RightK P0) as [[? ?]| | |];
      discriminate.
  - apply parseList_loop_unset_RightLoc.
Qed.

Lemma parseList_unset_RightLoc_witness :
  exists P',
    parseList false tok.r_paren 0%Z tok.comma false (diag.user 0)
      sampleElement 2 (parserOn (tokenAt tok.integer_literal 1) [] 2)
    = Done ((true, None), P')
    /\ (Kind (Tok P') = tok.eof \/ Kind (Tok P') = tok.code_complete).
Proof.
  eexists. split; [vm_compute; reflexivity|].
  apply (parseList_unset_RightLoc false tok.r_paren 0%Z tok.comma false
           (diag.user 0) sampleElement 2
           (parserOn (tokenAt tok.integer_literal 1) [] 2) _ true).
  vm_compute. reflexivity.
Defined.

Lemma stream_lexed_nonempty P ts :
  NextTokens (L P) = ts -> ts <> [] -> stream (lexed P) = ts.
Proof.
  intros H Hne. destruct ts as [|T rest]; [contradiction|].
  apply stream_lexed. exact H.
Qed.

Lemma stream_cons P T ts :
  stream P = T :: ts -> Tok P = T /\ NextTokens (L P) = ts.
Proof. unfold stream. intros H. injection H as -> ->. auto. Qed.

Lemma consumedThrough_ext P Q Cl after :
  SourceMgr Q = SourceMgr P -> Diags Q = Diags P ->
  EofText (L Q) = EofText (L P) ->
  consumedThrough Q Cl after = consumedThrough P Cl after.
Proof.
  intros H1 H2 H3. unfold consumedThrough, lexed. simpl.
  rewrite H1, H2, H3. reflexivity.
Qed.

Lemma closeDelimiter_not_separator RightK SeparatorK :
  closeDelimiter RightK -> listSeparator SeparatorK -> SeparatorK <> RightK.
Proof. intros [H|[H|H]] [E|E]; subst; discriminate. Qed.

Lemma parseList_straySeparators_exact SeparatorK :
  listSeparator SeparatorK ->
  forall strays fuel P T rest,
    Forall (fun T => Kind T = SeparatorK) strays ->
    Kind T <> SeparatorK ->
    stream P = strays ++ T :: rest ->
    List.length strays <= fuel ->
    exists P1,
      parseList_straySeparators SeparatorK fuel P = Done (tt, P1)
      /\ stream P1 = T :: rest
      /\ Diags P1
         = Diags P ++ map (unexpectedSeparatorDiag SeparatorK) strays
      /\ SourceMgr P1 = SourceMgr P
      /\ EofText (L P1) = EofText (L P).
Proof.
  intros HS. pose proof (listSeparator_not_eof _ HS) as Hne.
  induction strays as [|s strays IH]; intros fuel P T rest Hall HT Hst Hfuel.
  - simpl in Hst. destruct (stream_cons P T rest Hst) as [HTok _].
    exists P. split.
    + assert (Tok_is (Tok P) SeparatorK = false) as E
          by (apply Tok_is_false; congruence).
      destruct fuel; simpl; rewrite E; reflexivity.
    + simpl. rewrite app_nil_r. auto.
  - simpl in Hst. destruct (stream_cons P s _ Hst) as [HTok HNext].
    apply Forall_cons_iff in Hall. destruct Hall as [Hs Hall'].
    destruct fuel as [|fuel]; [simpl in Hfuel; lia|].
    simpl. assert (Tok_is (Tok P) SeparatorK = true) as E
        by (apply Tok_is_true; congruence).
    rewrite E. unfold bind at 1. unfold diagnose at 1.
    set (P1 := mkParser _ _ _ _ _).
    assert (Kind (Tok P1) <> tok.eof) as HP1 by (simpl; congruence).
    unfold bind at 1. rewrite (consumeToken_Done P1 HP1).
    destruct (IH fuel (lexed P1) T rest Hall' HT)
      as (P2 & H2 & Hst2 & HD2 & HSM2 & HE2).
    + apply stream_lexed_nonempty; [exact HNext|].
      destruct strays; discriminate.
    + simpl in Hfuel. lia.
    + exists P2. split; [exact H2|]. split; [exact Hst2|].
      destruct (frame_lexed P1 HP1) as (F1 & F2 & F3).
      split; [|split].
      * rewrite HD2, F2. unfold P1. simpl. rewrite <- app_assoc, HTok.
        reflexivity.
      * rewrite HSM2, F1. reflexivity.
      * rewrite HE2, F3. reflexivity.
Qed.

Section WellFormedList.

Variable StopAtCodeComplete_default : bool.
Variables (RightK : tok) (LeftLoc : SourceLoc) (SeparatorK : tok)
          (OptionalSep : bool) (ErrorDiag : diag.t) (callback : M bool).
Variable elem : Token -> Prop.
Variables (Cl : Token) (after : list Token).

Hypothesis RightK_ok : closeDelimiter RightK.
Hypothesis SeparatorK_ok : listSeparator SeparatorK.
Hypothesis elem_kind :
  forall T, elem T ->
    Kind T <> RightK /\ Kind T <> SeparatorK /\ Kind T <> tok.eof.
Hypothesis callback_elem :
  forall Q, elem (Tok Q) -> callback Q = Done (false, lexed Q).

Lemma listRest_nonempty prev ts ds :
  listRest elem RightK SeparatorK OptionalSep Cl after prev ts ds -> ts <> [].
Proof. intros H. destruct H; discriminate. Qed.

(** The round that starts on the stray separators before the element
    [e]: what is left to do is what follows the element. *)
Lemma parseList_round_element fuel Invalid P strays e ts :
  Forall (fun T => Kind T = SeparatorK) strays ->
  elem e ->
  ts <> [] ->
  stream P = strays ++ e :: ts ->
  List.length strays <= fuel ->
  exists P2,
    parseList_round StopAtCodeComplete_default RightK SeparatorK OptionalSep
      callback fuel Invalid P
    = parseList_afterElement StopAtCodeComplete_default RightK SeparatorK
        OptionalSep fuel (getLoc e) Invalid P2
    /\ stream P2 = ts
    /\ Diags P2 = Diags P ++ map (unexpectedSeparatorDiag SeparatorK) strays
    /\ SourceMgr P2 = SourceMgr P
    /\ EofText (L P2) = EofText (L P).
Proof.
  intros Hall He Hts Hst Hfuel.
  destruct (elem_kind e He) as (_ & HeS & HeE).
  destruct (parseList_straySeparators_exact SeparatorK SeparatorK_ok strays
              fuel P e ts Hall HeS Hst Hfuel)
    as (P1 & H1 & Hst1 & HD1 & HSM1 & HE1).
  destruct (stream_cons P1 e ts Hst1) as [HTok1 HNext1].
  assert (Kind (Tok P1) <> tok.eof) as Hne1 by congruence.
  exists (lexed P1). split.
  - unfold parseList_round. unfold bind at 1. rewrite H1.
    unfold bind at 1. unfold getTok at 1.
    unfold bind at 1. rewrite callback_elem by (rewrite HTok1; exact He).
    rewrite HTok1, orb_false_r. reflexivity.
  - destruct (frame_lexed P1 Hne1) as (F1 & F2 & F3).
    split; [apply stream_lexed_nonempty; assumption|].
    split; [congruence|]. split; congruence.
Qed.

Lemma parseList_loop_well_formed e ts ds :
  listRest elem RightK SeparatorK OptionalSep Cl after e ts ds ->
  forall fuel strays P Invalid,
    Forall (fun T => Kind T = SeparatorK) strays ->
    elem e ->
    stream P = strays ++ e :: ts ->
    List.length (strays ++ e :: ts) <= fuel ->
    parseList_loop StopAtCodeComplete_default RightK LeftLoc SeparatorK
      OptionalSep ErrorDiag callback fuel Invalid P
    = Done ((Invalid, Some (getLoc Cl)),
            consumedThrough
              (withDiags P (map (unexpectedSeparatorDiag SeparatorK) strays
                            ++ ds))
              Cl after).
Proof.
  pose proof (closeDelimiter_not_separator _ _ RightK_ok SeparatorK_ok) as HSR.
  pose proof (listSeparator_not_eof _ SeparatorK_ok) as HSE.
  induction 1 as [prev HCl|prev s strays' e' ts' ds' Hs Hall' He' Hrest IH
                 |prev e' ts' ds' HOpt He' Hloc Hrest IH];
    intros fuel strays P Invalid Hall He Hst Hfuel;
    (destruct fuel as [|fuel];
     [rewrite length_app in Hfuel; simpl in Hfuel; lia|]).
  - destruct (parseList_round_element (S fuel) Invalid P strays prev
                (Cl :: after) Hall He ltac:(discriminate) Hst)
      as (P2 & HR & Hst2 & HD2 & HSM2 & HE2).
    { rewrite length_app in Hfuel. lia. }
    destruct (stream_cons P2 Cl after Hst2) as [HTok2 HNext2].
    simpl. unfold bind at 1. rewrite HR.
    rewrite (parseList_afterElement_eq _ _ _ _ SeparatorK_ok).
    assert (Tok_is (Tok P2) RightK = true) as ER
        by (apply Tok_is_true; congruence).
    rewrite ER. unfold bind.
    rewrite (parseMatchingToken_taken RightK ErrorDiag LeftLoc P2 RightK_ok)
      by congruence.
    unfold ret. simpl. rewrite orb_false_r, HTok2.
    f_equal. f_equal.
    apply lexed_consumedThrough; [|exact HTok2|exact HNext2].
    unfold frame, withDiags. simpl. rewrite app_nil_r. auto.
  - destruct (parseList_round_element (S fuel) Invalid P strays prev
                (s :: strays' ++ e' :: ts') Hall He ltac:(discriminate) Hst)
      as (P2 & HR & Hst2 & HD2 & HSM2 & HE2).
    { rewrite length_app in Hfuel. lia. }
    destruct (stream_cons P2 s _ Hst2) as [HTok2 HNext2].
    simpl. unfold bind at 1. rewrite HR.
    rewrite (parseList_afterElement_eq _ _ _ _ SeparatorK_ok).
    assert (Tok_is (Tok P2) RightK = false) as ER
        by (apply Tok_is_false; congruence).
    assert (acceptsEofAsClose P2 = false) as EA.
    { unfold acceptsEofAsClose.
      assert (Tok_is (Tok P2) tok.eof = false) as EE
          by (apply Tok_is_false; congruence).
      rewrite EE. reflexivity. }
    assert (Tok_is (Tok P2) SeparatorK = true) as ES
        by (apply Tok_is_true; congruence).
    rewrite ER, EA, ES.
    assert (Kind (Tok P2) <> tok.eof) as Hne2 by congruence.
    destruct (frame_lexed P2 Hne2) as (F1 & F2 & F3).
    rewrite (IH fuel strays' (lexed P2) Invalid Hall' He').
    + f_equal. f_equal.
      apply consumedThrough_ext; unfold withDiags; cbn [SourceMgr Diags L].
      * congruence.
      * rewrite F2, HD2, <- app_assoc. reflexivity.
      * congruence.
    + apply stream_lexed_nonempty; [exact HNext2|].
      destruct strays'; discriminate.
    + rewrite length_app in Hfuel. simpl in Hfuel. lia.
  - destruct (parseList_round_element (S fuel) Invalid P strays prev
                (e' :: ts') Hall He ltac:(discriminate) Hst)
      as (P2 & HR & Hst2 & HD2 & HSM2 & HE2).
    { rewrite length_app in Hfuel. lia. }
    destruct (stream_cons P2 e' _ Hst2) as [HTok2 HNext2].
    destruct (elem_kind e' He') as (HeR & HeS & HeE).
    simpl. unfold bind at 1. rewrite HR.
    rewrite (parseList_afterElement_eq _ _ _ _ SeparatorK_ok).
    assert (Tok_is (Tok P2) RightK = false) as ER
        by (apply Tok_is_false; congruence).
    assert (acceptsEofAsClose P2 = false) as EA.
    { unfold acceptsEofAsClose.
      assert (Tok_is (Tok P2) tok.eof = false) as EE
          by (apply Tok_is_false; congruence).
      rewrite EE. reflexivity. }
    assert (Tok_is (Tok P2) SeparatorK = false) as ES
        by (apply Tok_is_false; congruence).
    rewrite ER, EA, ES.
    assert (parseList_missingSeparator SeparatorK OptionalSep Invalid P2
            = Done (Invalid, P2)) as HM
        by (rewrite HOpt; apply parseList_missingSeparator_optional).
    unfold bind at 1. rewrite HM.
    rewrite parseList_progress_advanced by congruence.
    cbv beta iota.
    rewrite (IH fuel [] P2 Invalid (Forall_nil _) He').
    + f_equal. f_equal.
      apply consumedThrough_ext; unfold withDiags; cbn [SourceMgr Diags L].
      * congruence.
      * rewrite HD2, <- app_assoc. reflexivity.
      * congruence.
    + exact Hst2.
    + rewrite length_app in Hfuel. simpl in *. lia.
Qed.

End WellFormedList.

(** X15: [parseList] on a well-formed list.  The tokens ahead are any
    number of stray separators, an element, and then, any number of
    times, a separator with any number of stray separators behind it and
    an element (or, when separators are optional, an element right away),
    up to the close delimiter; the callback parses an element by
    consuming its one token.  Then [parseList] returns [false] with
    [RightLoc] at the close delimiter, having consumed everything up to
    and including it.  It emits one [unexpected_separator] diagnostic
    with a fix-it that removes it for each stray separator, in order,
    and nothing else: stray separators do not make the list invalid. *)
Theorem parseList_well_formed
    (StopAtCodeComplete_default : bool) (RightK : tok) (LeftLoc : SourceLoc)
    (SeparatorK : tok) (OptionalSep : bool) (ErrorDiag : diag.t)
    (callback : M bool) (elem : Token -> Prop)
    (Cl : Token) (after strays : list Token) (e : Token) (ts : list Token)
    (ds : list Diagnostic) (fuel : nat) (P : Parser) :
  closeDelimiter RightK ->
  listSeparator SeparatorK ->
  (forall T, elem T ->
     Kind T <> RightK /\ Kind T <> SeparatorK /\ Kind T <> tok.eof) ->
  (forall Q, elem (Tok Q) -> callback Q = Done (false, lexed Q)) ->
  Forall (fun T => Kind T = SeparatorK) strays ->
  elem e ->
  listRest elem RightK SeparatorK OptionalSep Cl after e ts ds ->
  stream P = strays ++ e :: ts ->
  List.length (strays ++ e :: ts) <= fuel ->
  parseList StopAtCodeComplete_default RightK LeftLoc SeparatorK OptionalSep
    ErrorDiag callback fuel P
  = Done ((false, Some (getLoc Cl)),
          consumedThrough
            (withDiags P (map (unexpectedSeparatorDiag SeparatorK) strays
                          ++ ds))
            Cl after).
Proof.
  intros HR HS Hkind Hcb Hall He Hrest Hst Hfuel.
  unfold parseList.
  apply listSeparator_eqb in HS as HS'. rewrite HS'.
  unfold bind at 1. unfold assert at 1.
  unfold bind at 1. unfold getTok at 1.
  assert (Tok_is (Tok P) RightK = false) as ER.
  { apply Tok_is_false.
    destruct strays as [|s strays]; simpl in Hst;
      destruct (stream_cons P _ _ Hst) as [HTok _]; rewrite HTok.
    - apply (Hkind e He).
    - apply Forall_cons_iff in Hall. destruct Hall as [Hs _]. rewrite Hs.
      apply (closeDelimiter_not_separator _ _ HR HS). }
  rewrite ER.
  apply (parseList_loop_well_formed StopAtCodeComplete_default RightK LeftLoc
           SeparatorK OptionalSep ErrorDiag callback elem Cl after
           HR HS Hkind Hcb e ts ds Hrest fuel strays P false Hall He Hst Hfuel).
Qed.

Lemma parseList_well_formed_witness :
  parseList false tok.r_paren 0%Z tok.comma true (diag.user 0) sampleElement
    7 sampleStrayList
  = Done ((false, Some 7%Z),
          mkParser sampleSM
            [mkDiagnostic 1%Z diag.unexpected_separator [","%string]
                          [fixItRemove 1%Z 1%Z];
             mkDiagnostic 4%Z diag.unexpected_separator [","%string]
                          [fixItRemove 4%Z 4%Z]]
            (mkLexer [] (mkStringRef 8 0))
            (mkToken tok.eof (mkStringRef 8 0)) 7%Z).
Proof.
  rewrite (parseList_well_formed false tok.r_paren 0%Z tok.comma true
             (diag.user 0) sampleElement
             (fun T => Kind T = tok.identifier)
             (tokenAt tok.r_paren 7) []
             [tokenAt tok.comma 1] (tokenAt tok.identifier 2)
             [tokenAt tok.comma 3; tokenAt tok.comma 4;
              tokenAt tok.identifier 5; tokenAt tok.identifier 6;
              tokenAt tok.r_paren 7]
             ([] ++ map (unexpectedSeparatorDiag tok.comma)
                        [tokenAt tok.comma 4] ++ [])).
  - reflexivity.
  - left. reflexivity.
  - left. reflexivity.
  - intros T H. rewrite H. repeat split; discriminate.
  - intros Q H. unfold sampleElement, bind, getTok.
    apply Tok_is_true in H as H'. rewrite H'.
    rewrite consumeToken_Done by congruence. reflexivity.
  - repeat constructor.
  - reflexivity.
  - apply (listRest_separated _ _ _ _ _ _ _ (tokenAt tok.comma 3)
             [tokenAt tok.comma 4] (tokenAt tok.identifier 5)
             [tokenAt tok.identifier 6; tokenAt tok.r_paren 7] []);
      [reflexivity|repeat constructor|reflexivity|].
    apply listRest_juxtaposed; [reflexivity|reflexivity|discriminate|].
    apply listRest_close. reflexivity.
  - reflexivity.
  - simpl. lia.
Defined.

(** ** String literals without interpolation *)

Lemma getStringPartTokens_loop_plain
    (TokenizeInterpolatedString_default : bool)
    (tokenize : Z -> Z -> Z -> bool -> bool -> Res (list Token))
    (T : Token) (SM : SourceManager) (BufID : Z) (Toks : list Token) :
  Kind T = tok.string_literal ->
  (2 <= getLength T < 2 ^ 32)%Z ->
  getStringPartTokens_loop TokenizeInterpolatedString_default tokenize SM
    BufID [mkStringSegment Literal (getLoc T + 1)%Z (getLength T - 2)%Z]
    1 0%Z 1%Z Toks
  = Done (Toks ++ [T]).
Proof.
  intros HK HLen. simpl.
  unfold literalSegmentToken, getAdvancedLoc, setToken. simpl.
  rewrite (unsigned_small (getLength T - 2 + 1)) by lia.
  rewrite (unsigned_small (getLength T - 2 + 1 + 1)) by lia.
  destruct T as [K [D Len]]. unfold getLoc, getLength in *. simpl in *.
  subst K. repeat f_equal; lia.
Qed.

(** X16: splitting a string literal that has no interpolation gives the
    literal back.  When the one segment of a string-literal token is the
    text between its quotes, [getStringPartTokens] appends exactly one
    token, and that token is the given one: the quotes taken off by the
    segment are put back by the first-segment and last-segment
    adjustments. *)
Theorem getStringPartTokens_plain_literal
    (getStringLiteralSegments : Token -> list StringSegment)
    (TokenizeInterpolatedString_default : bool)
    (tokenize : Z -> Z -> Z -> bool -> bool -> Res (list Token))
    (T : Token) (SM : SourceManager) (BufID : Z) (Toks : list Token) :
  plainLiteral getStringLiteralSegments T ->
  getStringPartTokens getStringLiteralSegments
    TokenizeInterpolatedString_default tokenize T SM BufID Toks
  = Done (Toks ++ [T]).
Proof.
  intros (HK & HLen & HSeg).
  unfold getStringPartTokens.
  apply Tok_is_true in HK as HK'. rewrite HK', HSeg.
  change (unsigned (Z.of_nat (List.length
            [mkStringSegment Literal (getLoc T + 1) (getLength T - 2)])))
    with 1%Z.
  change (Z.to_nat 1) with 1.
  apply getStringPartTokens_loop_plain; assumption.
Qed.

Lemma getStringPartTokens_plain_literal_witness :
  getStringPartTokens samplePlainSegments true sampleTokenize
    (mkToken tok.string_literal (mkStringRef 3 5)) sampleSM 0
    [tokenAt tok.identifier 1]
  = Done [tokenAt tok.identifier 1;
          mkToken tok.string_literal (mkStringRef 3 5)].
Proof.
  rewrite (getStringPartTokens_plain_literal samplePlainSegments true
             sampleTokenize (mkToken tok.string_literal (mkStringRef 3 5))
             sampleSM 0 [tokenAt tok.identifier 1]).
  - reflexivity.
  - split; [reflexivity|]. split; [unfold getLength; simpl; lia|reflexivity].
Defined.

(** ** The tokenizer: what it returns *)

Section TokenizePlain.

Variable getStringLiteralSegments : Token -> list StringSegment.
Variable TokenizeInterpolatedString_default : bool.
Variable rec : Z -> Z -> Z -> bool -> bool -> Res (list Token).
Variables (SM : SourceManager) (BufferID : Z) (Interpolated : bool).

Lemma tokenize_loop_plain_exact :
  forall fuel Lx Tokens,
    Interpolated = false
    \/ Forall (fun T => Kind T = tok.string_literal ->
                        plainLiteral getStringLiteralSegments T)
              (NextTokens Lx) ->
    List.length (NextTokens Lx) < fuel ->
    exists E,
      tokenize_loop getStringLiteralSegments
        TokenizeInterpolatedString_default rec SM BufferID Interpolated fuel
        Lx Tokens
      = Done ((Tokens ++ beforeEof (NextTokens Lx)) ++ [E]).
Proof.
  induction fuel as [|fuel IH]; intros Lx Tokens Hplain Hfuel; [lia|].
  simpl. unfold lex. destruct (NextTokens Lx) as [|T rest] eqn:EN.
  - assert (Tok_is (setToken tok.eof (EofText Lx)) tok.string_literal = false)
      as ES by reflexivity.
    rewrite ES. simpl. rewrite back_snoc.
    exists (setToken tok.eof (EofText Lx)). rewrite app_nil_r. reflexivity.
  - assert ((if Tok_is T tok.string_literal && Interpolated
             then getStringPartTokens getStringLiteralSegments
                    TokenizeInterpolatedString_default rec T SM BufferID
                    Tokens
             else Done (Tokens ++ [T]))
            = Done (Tokens ++ [T])) as ES.
    { destruct (Tok_is T tok.string_literal) eqn:EK; [|reflexivity].
      destruct Hplain as [H|H]; [rewrite H; reflexivity|].
      destruct Interpolated; [|reflexivity]. simpl.
      apply Forall_cons_iff in H. destruct H as [H _].
      destruct (H (proj1 (Tok_is_true _ _) EK)) as (_ & HLen & HSeg).
      unfold getStringPartTokens. rewrite EK, HSeg.
      change (unsigned (Z.of_nat (List.length
                [mkStringSegment Literal (getLoc T + 1) (getLength T - 2)])))
        with 1%Z.
      change (Z.to_nat 1) with 1.
      apply getStringPartTokens_loop_plain; [|exact HLen].
      apply Tok_is_true, EK. }
    rewrite ES. simpl. rewrite back_snoc.
    destruct (Tok_isNot T tok.eof) eqn:ET.
    + destruct (IH (mkLexer rest (EofText Lx)) (Tokens ++ [T])) as (E & HE).
      * destruct Hplain as [H|H]; [left; exact H|right].
        apply Forall_cons_iff in H. simpl. tauto.
      * simpl in *. lia.
      * exists E. rewrite HE. simpl. rewrite <- !app_assoc. reflexivity.
    + exists T. rewrite app_nil_r. reflexivity.
Qed.

End TokenizePlain.

(** X17: what [tokenize] returns when nothing is interpolated.  With
    [TokenizeInterpolatedString] off, or when every string literal the
    lexer finds in the range is one without interpolation (none, for
    one), it returns (for any fuel beyond the number of tokens in the
    range) exactly the tokens the lexer hands out before its first [eof]
    token, in their order: splitting changes nothing where there is
    nothing to split. *)
Theorem tokenize_plain_tokens
    (Lexer_new : SourceManager -> Z -> bool -> Z -> Z -> Lexer)
    (getStringLiteralSegments : Token -> list StringSegment)
    (TokenizeInterpolatedString_default : bool)
    (fuel : nat) (SM : SourceManager) (BufferID Offset EndOffset : Z)
    (KeepComments Interpolated : bool) :
  Interpolated = false
  \/ Forall (fun T => Kind T = tok.string_literal ->
                      plainLiteral getStringLiteralSegments T)
            (NextTokens
               (Lexer_new SM BufferID KeepComments Offset
                  (effectiveEndOffset SM BufferID Offset EndOffset))) ->
  List.length
    (NextTokens
       (Lexer_new SM BufferID KeepComments Offset
          (effectiveEndOffset SM BufferID Offset EndOffset))) < fuel ->
  tokenize Lexer_new getStringLiteralSegments
    TokenizeInterpolatedString_default fuel SM BufferID Offset EndOffset
    KeepComments Interpolated
  = Done (beforeEof
            (NextTokens
               (Lexer_new SM BufferID KeepComments Offset
                  (effectiveEndOffset SM BufferID Offset EndOffset)))).
Proof.
  intros Hplain Hfuel. destruct fuel as [|fuel]; [lia|].
  rewrite tokenize_S.
  destruct (tokenize_loop_plain_exact getStringLiteralSegments
              TokenizeInterpolatedString_default
              (tokenize Lexer_new getStringLiteralSegments
                 TokenizeInterpolatedString_default fuel SM)
              SM BufferID Interpolated (S fuel) _ [] Hplain Hfuel)
    as (E & HE).
  rewrite HE. simpl. rewrite removelast_last. reflexivity.
Qed.

Lemma tokenize_plain_tokens_witness :
  tokenize sampleStringLexer samplePlainSegments true 4 sampleSM 0 0 16 false
    true
  = Done [tokenAt tok.identifier 0;
          mkToken tok.string_literal (mkStringRef 2 5);
          tokenAt tok.comma 7].
Proof.
  rewrite (tokenize_plain_tokens sampleStringLexer samplePlainSegments true 4
             sampleSM 0 0 16 false true).
  - reflexivity.
  - right. simpl.
    constructor; [discriminate|].
    constructor; [|constructor; [discriminate|constructor]].
    intros _. split; [reflexivity|].
    split; [unfold getLength; simpl; lia|reflexivity].
  - simpl. lia.
Defined.

(** ** The first token of a new parser *)

(** X18: a parser constructed without a saved position stands on the
    sentinel [tok::NUM_TOKENS], which is not [eof]: the first
    [consumeToken] does not stop on its assertion, whatever the buffer
    holds, and installs the first token of the buffer (its [eof] token
    when the buffer holds none), with the lexer one token on and the
    diagnostics of the context untouched. *)
Theorem Parser_new_first_consumeToken
    (Lexer_ofBuffer : SourceManager -> Z -> bool -> bool -> Lexer)
    (BufferID : Z) (Context : ASTContext) (SIL : bool)
    (PersistentState : option PersistentParserState.t) :
  (forall TheState,
     PersistentState = Some TheState ->
     PersistentParserState.MarkedPos TheState = None) ->
  exists Loc P',
    consumeToken
      (fst (Parser_new Lexer_ofBuffer BufferID Context SIL PersistentState))
    = Done (Loc, P')
    /\ Tok P'
       = fst (lex (Lexer_ofBuffer (ASTContext_SourceMgr Context) BufferID
                                  SIL false))
    /\ L P'
       = snd (lex (Lexer_ofBuffer (ASTContext_SourceMgr Context) BufferID
                                  SIL false))
    /\ Diags P' = ASTContext_Diags Context.
Proof.
  intros HNone.
  assert (fst (Parser_new Lexer_ofBuffer BufferID Context SIL PersistentState)
          = unprimed Lexer_ofBuffer BufferID Context SIL) as HP.
  { unfold Parser_new, PersistentParserState.takeParserPosition.
    destruct PersistentState as [TheState|].
    - rewrite (HNone TheState eq_refl). reflexivity.
    - reflexivity. }
  rewrite HP. rewrite consumeToken_Done by (simpl; discriminate).
  eexists. eexists. split; [reflexivity|].
  split; [reflexivity|]. split; reflexivity.
Qed.

Lemma Parser_new_first_consumeToken_witness :
  exists Loc P',
    consumeToken (fst (Parser_new sampleBufferLexer 0 sampleContext false None))
    = Done (Loc, P')
    /\ Tok P' = tokenAt tok.identifier 0.
Proof.
  destruct (Parser_new_first_consumeToken sampleBufferLexer 0 sampleContext
              false None) as (Loc & P' & HD & HTok & _).
  - discriminate.
  - exists Loc, P'. split; [exact HD|exact HTok].
Defined.

(** ** Sub-parsers and buffer numbers *)

Lemma int_of_unsigned_round_trip z :
  (- 2 ^ 31 <= z < 2 ^ 31)%Z -> int_of_unsigned (unsigned z) = z.
Proof.
  intros H. unfold int_of_unsigned, unsigned.
  rewrite Z.mod_mod by lia.
  destruct (Z_lt_le_dec z 0) as [Hn|Hp].
  - assert (z mod 2 ^ 32 = z + 2 ^ 32)%Z as E.
    { symmetry. apply (Z.mod_unique _ _ (-1)); lia. }
    rewrite E. destruct (z + 2 ^ 32 <? 2 ^ 31)%Z eqn:EL; [|lia].
    apply Z.ltb_lt in EL. lia.
  - rewrite Z.mod_small by lia.
    destruct (z <? 2 ^ 31)%Z eqn:EL; [reflexivity|].
    apply Z.ltb_ge in EL. lia.
Qed.

(** X19: the buffer number of a sub-parser survives its conversions.
    The delayed parsers take the [int] that [FindBufferContainingLoc]
    returns, pass it to the constructor's [unsigned] parameter, and the
    constructor compares [int(BufferID)] with the buffer of the saved
    position.  For every [int], negative ones included, that comparison
    is the comparison with the original number: the saved position is
    restored exactly when it lies in that buffer, and it is taken out of
    the persistent state in either case. *)
Theorem newSubParser_buffer_id
    (Lexer_ofBuffer : SourceManager -> Z -> bool -> bool -> Lexer)
    (BufferID : Z) (TU : TranslationUnit) (s : Delayed)
    (Pos : PersistentParserState.ParserPos) :
  (- 2 ^ 31 <= BufferID < 2 ^ 31)%Z ->
  PersistentParserState.MarkedPos (ParserState s) = Some Pos ->
  exists s',
    newSubParser Lexer_ofBuffer BufferID TU s
    = Done (if (FindBufferContainingLoc (ASTContext_SourceMgr (Ctx TU))
                  (PersistentParserState.Loc Pos) =? BufferID)%Z
            then restoreParserPosition
                   (getParserPosition
                      (unprimed Lexer_ofBuffer (unsigned BufferID) (Ctx TU)
                                false) Pos)
                   (unprimed Lexer_ofBuffer (unsigned BufferID) (Ctx TU) false)
            else unprimed Lexer_ofBuffer (unsigned BufferID) (Ctx TU) false,
            s')
    /\ PersistentParserState.MarkedPos (ParserState s') = None
    /\ Events s' = Events s.
Proof.
  intros Hint HPos.
  unfold newSubParser, Parser_new, PersistentParserState.takeParserPosition.
  rewrite HPos. rewrite (int_of_unsigned_round_trip BufferID Hint).
  change (SourceMgr (unprimed Lexer_ofBuffer (unsigned BufferID) (Ctx TU) false))
    with (ASTContext_SourceMgr (Ctx TU)).
  destruct (FindBufferContainingLoc (ASTContext_SourceMgr (Ctx TU))
              (PersistentParserState.Loc Pos) =? BufferID)%Z;
    eexists; split; try reflexivity; split; reflexivity.
Qed.

Lemma newSubParser_buffer_id_witness :
  exists s',
    newSubParser sampleBufferLexer (-1) sampleTU sampleDelayed
    = Done (unprimed sampleBufferLexer (unsigned (-1)) sampleContext false, s')
    /\ PersistentParserState.MarkedPos (ParserState s') = None.
Proof.
  destruct (newSubParser_buffer_id sampleBufferLexer (-1) sampleTU
              sampleDelayed (PersistentParserState.mkParserPos 1 0))
    as (s' & HD & HM & _).
  - lia.
  - reflexivity.
  - exists s'. split; [exact HD|exact HM].
Defined.

(** ** Delayed parsing: the whole walk *)

Lemma Decl_induction (P : Decl -> Prop) :
  (forall FD members, Forall P members -> P (FuncDeclNode FD members)) ->
  (forall members, Forall P members -> P (OtherDeclNode members)) ->
  forall D, P D.
Proof.
  intros Hf Ho. fix IH 1. intros [FD members|members].
  - apply Hf. induction members as [|D members IHm]; constructor.
    + apply IH.
    + exact IHm.
  - apply Ho. induction members as [|D members IHm]; constructor.
    + apply IH.
    + exact IHm.
Qed.

Section DelayedWalk.

Variable Lexer_ofBuffer : SourceManager -> Z -> bool -> bool -> Lexer.
Variable TU : TranslationUnit.

Lemma walk_eq CodeCompletionFactory D :
  walk Lexer_ofBuffer TU CodeCompletionFactory D
  = (descend <- walkToDeclPre Lexer_ofBuffer TU CodeCompletionFactory D ;;
     if descend then
       walkDecls Lexer_ofBuffer TU CodeCompletionFactory
         match D with
         | FuncDeclNode _ members => members
         | OtherDeclNode members => members
         end
     else ret tt).
Proof.
  assert (forall Ds,
             (fix walkAll (Ds : list Decl) : ST Delayed unit :=
                match Ds with
                | [] => ret tt
                | D' :: Ds' =>
                    walk Lexer_ofBuffer TU CodeCompletionFactory D' ;;
                    walkAll Ds'
                end) Ds
             = walkDecls Lexer_ofBuffer TU CodeCompletionFactory Ds) as HA.
  { induction Ds as [|D' Ds' IH]; [reflexivity|]. simpl. rewrite IH.
    reflexivity. }
  destruct D as [FD members|members]; simpl; rewrite HA; reflexivity.
Qed.

Lemma Parser_new_keeps_delayed_decl BufferID Context SIL TheState :
  PersistentParserState.hasDelayedDecl
    (snd (Parser_new Lexer_ofBuffer BufferID Context SIL (Some TheState)))
  = PersistentParserState.hasDelayedDecl TheState.
Proof.
  unfold Parser_new, PersistentParserState.takeParserPosition.
  destruct (PersistentParserState.MarkedPos TheState) as [Pos|];
    [|reflexivity].
  destruct (FindBufferContainingLoc _ _ =? _)%Z; reflexivity.
Qed.

Lemma parseFunctionBody_factory_state F FD s :
  FuncDecl_Body FD = Some Unparsed ->
  exists s',
    parseFunctionBody Lexer_ofBuffer TU (Some F) FD s = Done (tt, s')
    /\ Created s' = S (Created s)
    /\ Events s' = Events s ++ bodyEvents (Created s) FD
    /\ PersistentParserState.hasDelayedDecl (ParserState s')
       = PersistentParserState.hasDelayedDecl (ParserState s).
Proof.
  intros HB. unfold parseFunctionBody. rewrite HB.
  unfold bind, assert, newSubParser, createCallbacks, emit, ret,
    callDoneParsing.
  pose proof (Parser_new_keeps_delayed_decl
                (unsigned
                   (FindBufferContainingLoc (ASTContext_SourceMgr (Ctx TU))
                      (FuncDecl_Loc FD)))
                (Ctx TU) false (ParserState s)) as HP.
  destruct (Parser_new _ _ _ _ _) as [TheParser State']. simpl in *.
  eexists. split; [reflexivity|]. split; [reflexivity|]. split.
  - simpl. rewrite <- !app_assoc. reflexivity.
  - exact HP.
Qed.

Lemma bodiesEvents_app FDs1 : forall k FDs2,
  bodiesEvents k (FDs1 ++ FDs2)
  = bodiesEvents k FDs1 ++ bodiesEvents (k + List.length FDs1) FDs2.
Proof.
  induction FDs1 as [|FD FDs1 IH]; intros k FDs2; simpl.
  - rewrite Nat.add_0_r. reflexivity.
  - rewrite IH, <- Nat.add_succ_comm. reflexivity.
Qed.

Lemma walked_nil : walked (ret tt) [].
Proof.
  intros s. exists s. unfold ret. rewrite Nat.add_0_r, app_nil_r. auto.
Qed.

Lemma walked_seq m1 m2 FDs1 FDs2 :
  walked m1 FDs1 -> walked m2 FDs2 -> walked (m1 ;; m2) (FDs1 ++ FDs2).
Proof.
  intros H1 H2 s.
  destruct (H1 s) as (s1 & E1 & C1 & V1 & D1).
  destruct (H2 s1) as (s2 & E2 & C2 & V2 & D2).
  exists s2. unfold bind. rewrite E1. split; [exact E2|].
  split; [rewrite C2, C1, length_app; lia|].
  split; [|congruence].
  rewrite V2, V1, C1, bodiesEvents_app, <- app_assoc. reflexivity.
Qed.

Lemma walkDecls_with_factory F Ds :
  Forall (fun D => walked (walk Lexer_ofBuffer TU (Some F) D)
                          (delayedBodies D)) Ds ->
  walked (walkDecls Lexer_ofBuffer TU (Some F) Ds)
         (flat_map delayedBodies Ds).
Proof.
  induction 1 as [|D Ds HD _ IH]; simpl.
  - apply walked_nil.
  - apply walked_seq; assumption.
Qed.

Lemma walk_with_factory F D :
  walked (walk Lexer_ofBuffer TU (Some F) D) (delayedBodies D).
Proof.
  induction D as [FD members IH|members IH] using Decl_induction;
    rewrite walk_eq; simpl.
  - destruct (FuncDecl_Body FD) as [[|]|] eqn:EB.
    + change (FD :: flat_map delayedBodies members)
        with ([FD] ++ flat_map delayedBodies members).
      intros s.
      destruct (parseFunctionBody_factory_state F FD s EB)
        as (s1 & E1 & C1 & V1 & D1).
      destruct (walkDecls_with_factory F members IH s1)
        as (s2 & E2 & C2 & V2 & D2).
      exists s2. unfold bind at 1. unfold bind at 1. rewrite E1.
      unfold ret at 1. split; [exact E2|].
      split; [rewrite C2, C1, length_app; simpl; lia|].
      split; [|congruence].
      rewrite V2, V1, C1, bodiesEvents_app, <- app_assoc. simpl.
      rewrite Nat.add_1_r. reflexivity.
    + apply walked_nil.
    + apply (walkDecls_with_factory F members IH).
  - apply (walkDecls_with_factory F members IH).
Qed.

Lemma walkDecls_without_factory Ds :
  Forall (fun D =>
            forall s,
              walk Lexer_ofBuffer TU None D s
              = match delayedBodies D with
                | [] => Done (tt, s)
                | _ :: _ => NullDereference
                end) Ds ->
  forall s,
    walkDecls Lexer_ofBuffer TU None Ds s
    = match flat_map delayedBodies Ds with
      | [] => Done (tt, s)
      | _ :: _ => NullDereference
      end.
Proof.
  induction 1 as [|D Ds HD _ IH]; intros s; simpl; [reflexivity|].
  unfold bind. rewrite HD.
  destruct (delayedBodies D); simpl; [apply IH|reflexivity].
Qed.

Lemma walk_without_factory D :
  forall s,
    walk Lexer_ofBuffer TU None D s
    = match delayedBodies D with
      | [] => Done (tt, s)
      | _ :: _ => NullDereference
      end.
Proof.
  induction D as [FD members IH|members IH] using Decl_induction;
    intros s; rewrite walk_eq; simpl.
  - destruct (FuncDecl_Body FD) as [[|]|] eqn:EB.
    + unfold bind at 1. unfold bind at 1.
      rewrite (parseFunctionBody_without_factory _ _ _ _ EB). reflexivity.
    + reflexivity.
    + apply (walkDecls_without_factory members IH).
  - apply (walkDecls_without_factory members IH).
Qed.

End DelayedWalk.

(** X20: with a completion-callback factory, [performDelayedParsing]
    returns for every translation unit, and what it does is determined
    by the function bodies it reaches: for each function with an
    unparsed body that is not inside a function whose body is parsed
    already, in the order of the walk, one new callback object is
    created, installed in the sub-parser, the body is parsed, and the
    object is told [doneParsing]; then the same happens once more for
    the top-level declaration if one is pending.  Every callback object
    created is told [doneParsing] exactly once, before the next one is
    created. *)
Theorem performDelayedParsing_with_factory
    (Lexer_ofBuffer : SourceManager -> Z -> bool -> bool -> Lexer)
    (TU : TranslationUnit) (F : CodeCompletionCallbacksFactory)
    (s : Delayed) :
  exists s',
    performDelayedParsing Lexer_ofBuffer TU (Some F) s = Done (tt, s')
    /\ Events s'
       = Events s
         ++ bodiesEvents (Created s) (flat_map delayedBodies (Decls TU))
         ++ (if PersistentParserState.hasDelayedDecl (ParserState s)
             then topLevelEvents
                    (Created s
                     + List.length (flat_map delayedBodies (Decls TU)))
             else []).
Proof.
  unfold performDelayedParsing.
  destruct (walkDecls_with_factory Lexer_ofBuffer TU F (Decls TU)) with (s := s)
    as (s1 & E1 & C1 & V1 & D1).
  { apply Forall_forall. intros D _. apply walk_with_factory. }
  unfold bind. rewrite E1. rewrite <- D1.
  unfold PersistentParserState.hasDelayedDecl.
  destruct (PersistentParserState.DelayedDeclLoc (ParserState s1))
    as [DelayedLoc|] eqn:ED.
  - destruct (parseDelayedTopLevelDecl_with_factory Lexer_ofBuffer TU F s1
                DelayedLoc ED) as (s2 & E2 & _ & V2).
    exists s2. split; [exact E2|].
    rewrite V2, V1, C1, <- app_assoc. reflexivity.
  - exists s1. split.
    + unfold parseDelayedTopLevelDecl, bind, assert,
        PersistentParserState.hasDelayedDecl. rewrite ED. reflexivity.
    + rewrite V1, app_nil_r. reflexivity.
Qed.

(** X21: without a completion-callback factory, [performDelayedParsing]
    returns only when there is nothing to parse: when it reaches no
    function with an unparsed body it returns with the state untouched,
    and in every other case it dereferences the null callback pointer
    after parsing the first such body. *)
Theorem performDelayedParsing_without_factory
    (Lexer_ofBuffer : SourceManager -> Z -> bool -> bool -> Lexer)
    (TU : TranslationUnit) (s : Delayed) :
  performDelayedParsing Lexer_ofBuffer TU None s
  = match flat_map delayedBodies (Decls TU) with
    | [] => Done (tt, s)
    | _ :: _ => NullDereference
    end.
Proof.
  unfold performDelayedParsing, bind.
  rewrite walkDecls_without_factory.
  - destruct (flat_map delayedBodies (Decls TU)); reflexivity.
  - apply Forall_forall. intros D _. apply walk_without_factory.
Qed.

